(** * Data transport layer: ordered store and L2 ingestion loop

    A shallow embedding of [src/db/db.ts] (class [TransportDB] over a LevelUP
    handle) and of the L2 ingestion service (its [_start] polling loop and
    [_syncSequencerBlocks]), with the properties of the specification proved
    or refuted over that embedding.

    JavaScript numbers that are used as indices, block numbers and option
    values are integers; they are modelled as [Z].  The two places where the
    code converts through [BigNumber] keep the conversion's range check. *)

From Stdlib Require Import ZArith Lia Ascii String Sorted Permutation.
From stdpp Require Import gmap strings list sorting.

Local Open Scope Z_scope.

(** ** Exceptions and the result monad *)

Module Js.

(** What a [throw] carries.  The constructors are the exceptions the modelled
    code can meet: the language's own [TypeError] and [SyntaxError], the
    numeric faults of [BigNumber], the store's [NotFoundError], and whatever
    an external collaborator (store backend, RPC endpoint, block handler)
    raises. *)
Inductive error : Type :=
  | TypeError (msg : string)
  | SyntaxError (msg : string)
  | NumericFault (msg : string)
  | NotFoundError (key : string)
  | ExternalError (msg : string).

Inductive result (A : Type) : Type :=
  | Ok (a : A)
  | Throw (e : error).
Arguments Ok {A} a.
Arguments Throw {A} e.

(** Values that cross the store boundary: [db.put] is given either a number
    (a latest pointer, a scanned block) or a string (a serialized record). *)
Inductive value : Type :=
  | VNull
  | VNum (n : Z)
  | VStr (s : string).

#[global] Instance error_eq_dec : EqDecision error.
Proof. solve_decision. Defined.
#[global] Instance value_eq_dec : EqDecision value.
Proof. solve_decision. Defined.

(** An asynchronous method over a state [S]: it runs to completion on the
    state it is given, leaves a state behind and either returns or throws.
    A throw keeps the state reached so far (writes already performed stay
    performed). *)
Definition M (S A : Type) : Type := S -> S * result A.

Definition ret {S A} (a : A) : M S A := fun s => (s, Ok a).
Definition throw {S A} (e : error) : M S A := fun s => (s, Throw e).
Definition bind {S A B} (m : M S A) (k : A -> M S B) : M S B :=
  fun s => match m s with
           | (s', Ok a) => k a s'
           | (s', Throw e) => (s', Throw e)
           end.
Definition lift {S A} (r : result A) : M S A := fun s => (s, r).
(** [try { m } catch (err) { h err }] *)
Definition try_catch {S A} (m : M S A) (h : error -> M S A) : M S A :=
  fun s => match m s with
           | (s', Ok a) => (s', Ok a)
           | (s', Throw e) => h e s'
           end.

Definition rbind {A B} (r : result A) (k : A -> result B) : result B :=
  match r with Ok a => k a | Throw e => Throw e end.

End Js.
Export Js.

Declare Scope js_scope.
Delimit Scope js_scope with js.
Notation "x <- m ;; k" := (bind m (fun x => k))
  (at level 100, m at next level, right associativity) : js_scope.
Notation "m ;;; k" := (bind m (fun _ => k))
  (at level 100, right associativity) : js_scope.
Notation "'let?' x := r 'in' k" := (rbind r (fun x => k))
  (at level 100, x name, r at next level, right associativity) : js_scope.
Local Open Scope js_scope.

(** ** Strings: byte order, padding, number printing *)

Module JsString.

Fixpoint repeat_char (c : ascii) (k : nat) : string :=
  match k with
  | O => EmptyString
  | S k' => String c (repeat_char c k')
  end.

(** [s.padStart(targetLength, c)] for a one-character pad string [c]. *)
Definition padStart (s : string) (targetLength : nat) (c : ascii) : string :=
  if (String.length s <? targetLength)%nat
  then repeat_char c (targetLength - String.length s) +:+ s
  else s.

(** The digit characters of [Number.prototype.toString(radix)] and of
    [BigNumber.prototype.toString()]: ['0'..'9'] then ['a'..'z']. *)
Definition digit_char (d : Z) : ascii :=
  if d <? 10 then ascii_of_N (48 + Z.to_N d) else ascii_of_N (87 + Z.to_N d).

(** Digits of a non-negative integer, most significant first, no leading
    zero ("0" for zero).  [fuel] bounds the number of digits. *)
Fixpoint digits_of (fuel : nat) (radix n : Z) (acc : string) : string :=
  match fuel with
  | O => acc
  | S fuel' =>
      let acc' := String (digit_char (n mod radix)) acc in
      if n / radix =? 0 then acc' else digits_of fuel' radix (n / radix) acc'
  end.

Definition magnitude_toString (radix n : Z) : string :=
  digits_of (S (Z.to_nat (Z.log2 n))) radix n EmptyString.

(** [n.toString(radix)] for an integer [n]. *)
Definition toString (radix n : Z) : string :=
  if n <? 0 then String "-"%char (magnitude_toString radix (- n))
  else magnitude_toString radix n.

(** Byte-lexicographic order, the order in which the store keeps its keys. *)
Definition key_lt (a b : string) : Prop := String.ltb a b = true.
Definition key_le (a b : string) : Prop := String.leb a b = true.

#[global] Instance key_lt_dec a b : Decision (key_lt a b).
Proof. unfold key_lt. apply _. Defined.
#[global] Instance key_le_dec a b : Decision (key_le a b).
Proof. unfold key_le. apply _. Defined.

(** Value of one digit character, when it is one. *)
Definition digit_value (c : ascii) : option Z :=
  let n := Z.of_N (N_of_ascii c) in
  if (48 <=? n) && (n <=? 57) then Some (n - 48)
  else if (97 <=? n) && (n <=? 102) then Some (n - 87)
  else if (65 <=? n) && (n <=? 70) then Some (n - 55)
  else None.

Fixpoint parse_digits (radix : Z) (s : string) (acc : Z) : option Z :=
  match s with
  | EmptyString => Some acc
  | String c s' =>
      match digit_value c with
      | Some d => if d <? radix then parse_digits radix s' (acc * radix + d) else None
      | None => None
      end
  end.

End JsString.
Export JsString.

(** ** BigNumber

    The two conversions of the [ethers] library the code goes through.
    [BigNumber.from] accepts a JavaScript number only when it is an integer of
    magnitude below [MAX_SAFE], a string when it is a decimal integer or a
    [0x] hexadecimal quantity, either of them with an optional minus sign,
    and nothing else; [toNumber] gives the value back as a JavaScript number
    unless it needs more than 53 bits. *)

Module BigNumber.

Definition MAX_SAFE : Z := 2 ^ 53 - 1.

(** The text after an optional sign: [0x] followed by one or more
    hexadecimal digits of either case, or one or more decimal digits (the two
    patterns [/^-?0x[0-9a-f]+$/i] and [/^-?[0-9]+$/] of the library).  The
    first pattern ignores case, so it admits the prefix [0X] too; the library
    then reads the text as hexadecimal digits from its first character on,
    and its digit reader takes a character that is no digit by its low four
    bits, which makes the [X] an [8]. *)
Definition from_magnitude (s : string) : option Z :=
  match s with
  | String a (String c (String d r)) =>
      if Ascii.eqb a "0" && Ascii.eqb c "x" then parse_digits 16 (String d r) 0
      else if Ascii.eqb a "0" && Ascii.eqb c "X"
      then parse_digits 16 (String "8" (String d r)) 0
      else parse_digits 10 s 0
  | String _ _ => parse_digits 10 s 0
  | EmptyString => None
  end.

Definition from_string (s : string) : option Z :=
  match s with
  | String a r =>
      if Ascii.eqb a "-" then option_map Z.opp (from_magnitude r)
      else from_magnitude s
  | EmptyString => None
  end.

Definition from (v : value) : result Z :=
  match v with
  | VNum n =>
      if (n >=? MAX_SAFE) || (n <=? - MAX_SAFE)
      then Throw (NumericFault "overflow")
      else Ok n
  | VStr s =>
      match from_string s with
      | Some n => Ok n
      | None => Throw (NumericFault "invalid BigNumber string")
      end
  | VNull => Throw (NumericFault "invalid BigNumber value")
  end.

Definition toNumber (n : Z) : result Z :=
  if Z.abs n <=? MAX_SAFE then Ok n else Throw (NumericFault "overflow").

Definition toString (n : Z) : string := JsString.toString 10 n.

End BigNumber.

(** ** The LevelUP handle

    [TransportDB] is constructed over [db: any], a LevelUP store.  The four
    methods the class calls form the interface; [MemDown] is the reference
    behaviour of such a store: a finite map from keys to values, read back
    unchanged, scanned in byte order of the keys, with [batch] applied as a
    whole and in order.  Behind LevelUP's default value encoding a stored
    number comes back as its decimal text instead; [Utf8Down] further down is
    the store with that encoding, over which the scan cursor is read back as
    well. *)

Module LevelUp.

(** One element of the array given to [db.batch]: [{ type: 'put', key, value }]. *)
Inductive op : Type :=
  | Put (key : string) (v : value).

Class Backend (S : Type) : Type := {
  get : string -> M S value;
  put : string -> value -> M S unit;
  batch : list op -> M S unit;
  (** [createValueStream({ gte, lt })], run until it ends;
      a throw is the stream's ['error'] event. *)
  createValueStream : string -> string -> M S (list value)
}.

Definition apply_op (m : gmap string value) (o : op) : gmap string value :=
  match o with Put k v => <[k := v]> m end.

Definition in_range (gte lt : string) (kv : string * value) : Prop :=
  key_le gte kv.1 /\ key_lt kv.1 lt.

#[global] Instance in_range_dec gte lt kv : Decision (in_range gte lt kv).
Proof. unfold in_range. apply _. Defined.

Definition fst_le (a b : string * value) : Prop := key_le a.1 b.1.

#[global] Instance fst_le_dec a b : Decision (fst_le a b).
Proof. unfold fst_le. apply _. Defined.

Definition scan (gte lt : string) (m : gmap string value) : list (string * value) :=
  merge_sort fst_le (filter (in_range gte lt) (map_to_list m)).

#[global] Instance MemDown : Backend (gmap string value) := {
  get k := fun m =>
    match m !! k with
    | Some v => (m, Ok v)
    | None => (m, Throw (NotFoundError k))
    end;
  put k v := fun m => (<[k := v]> m, Ok tt);
  batch ops := fun m => (foldl apply_op m ops, Ok tt);
  createValueStream gte lt := fun m => (m, Ok ((scan gte lt m).*2))
}.

End LevelUp.
Export LevelUp.

(** ** src/db/db.ts *)

(** The entry interfaces.  They are erased at run time: the class only ever
    reads [element.index] and passes the element through [JSON.stringify]
    and [JSON.parse]. *)
Record EnqueueEntry : Type := {
  enq_index : Z;
  enq_target : string;
  enq_data : string;
  enq_gasLimit : Z;
  enq_origin : string;
  enq_blockNumber : Z;
  enq_timestamp : Z
}.

Inductive QueueOrigin : Type := sequencer | l1.
Inductive TxType : Type := EIP155 | ETH_SIGN.

Record Signature : Type := { sig_r : string; sig_s : string; sig_v : string }.

Record DecodedTransaction : Type := {
  dec_sig : Signature;
  dec_gasLimit : Z;
  dec_gasPrice : Z;
  dec_nonce : Z;
  dec_target : string;
  dec_data : string
}.

Record TransactionEntry : Type := {
  tx_index : Z;
  tx_batchIndex : Z;
  tx_data : string;
  tx_blockNumber : Z;
  tx_timestamp : Z;
  tx_gasLimit : Z;
  tx_target : string;
  tx_origin : string;
  tx_queueOrigin : QueueOrigin;
  tx_queueIndex : option Z;
  tx_type : option TxType;
  tx_decoded : option DecodedTransaction
}.

Record StateRootEntry : Type := {
  sr_index : Z;
  sr_batchIndex : Z;
  sr_value : string
}.

Record StateRootBatchEntry : Type := {
  srb_index : Z;
  srb_blockNumber : Z;
  srb_timestamp : Z;
  srb_submitter : string;
  srb_size : Z;
  srb_root : string;
  srb_prevTotalElements : Z;
  srb_extraData : string
}.

Record TransactionBatchEntry : Type := {
  tb_index : Z;
  tb_blockNumber : Z;
  tb_timestamp : Z;
  tb_submitter : string;
  tb_size : Z;
  tb_root : string;
  tb_prevTotalElements : Z;
  tb_extraData : string
}.

(** What [_putBatch], [_get] and [_values] need of an element ([any]). *)
Class Element (E : Type) : Type := {
  index : E -> Z;
  JSON_stringify : E -> string;
  JSON_parse : string -> result E
}.

Module TransportDB.
Section Methods.
Context {S : Type} `{Backend S} {E : Type} `{Element E}.

Fixpoint map_result {A B} (f : A -> result B) (l : list A) : result (list B) :=
  match l with
  | [] => Ok []
  | a :: l' => let? b := f a in let? bs := map_result f l' in Ok (b :: bs)
  end.

Definition _makeKey (key : string) (index : value) : result string :=
  let? n := BigNumber.from index in
  Ok (key +:+ ":" +:+ padStart (BigNumber.toString n) 32 "0").

Definition _putBatch (key : string) (elements : list E) : M S unit :=
  ops <- lift (map_result
                 (fun element =>
                    let? k := _makeKey key (VNum (index element)) in
                    Ok (Put k (VStr (JSON_stringify element))))
                 elements) ;;
  batch ops.

(** [JSON.parse] of a stored value.  A stored number would parse to that
    number, which is no entry. *)
Definition parse_entry (v : value) : result E :=
  match v with
  | VStr s => JSON_parse s
  | VNum _ | VNull => Throw (TypeError "stored value is not a serialized entry")
  end.

Definition _get (key : string) (index : value) : M S E :=
  k <- lift (_makeKey key index) ;;
  v <- get k ;;
  lift (parse_entry v).

Definition _values (key : string) (start end_ : Z) : M S (list E) :=
  gte <- lift (_makeKey key (VNum start)) ;;
  lt <- lift (_makeKey key (VNum end_)) ;;
  transactions <- createValueStream gte lt ;;
  lift (map_result parse_entry transactions).

(** [entries[entries.length - 1].index] *)
Definition last_index (entries : list E) : result Z :=
  match last entries with
  | Some e => Ok (index e)
  | None => Throw (TypeError "Cannot read property 'index' of undefined")
  end.

Definition putEnqueueEntries (entries : list E) : M S unit :=
  _putBatch "enqueue:index" entries ;;;
  i <- lift (last_index entries) ;;
  put "enqueue:latest" (VNum i).

Definition putTransactionEntries (entries : list E) : M S unit :=
  _putBatch "transaction:index" entries ;;;
  i <- lift (last_index entries) ;;
  put "transaction:latest" (VNum i).

Definition putTransactionBatchEntries (entries : list E) : M S unit :=
  _putBatch "batch:transaction:index" entries ;;;
  i <- lift (last_index entries) ;;
  put "batch:transaction:latest" (VNum i).

Definition putStateRootEntries (entries : list E) : M S unit :=
  _putBatch "stateroot:index" entries ;;;
  i <- lift (last_index entries) ;;
  put "stateroot:latest" (VNum i).

Definition putStateRootBatchEntries (entries : list E) : M S unit :=
  _putBatch "batch:stateroot:index" entries ;;;
  i <- lift (last_index entries) ;;
  put "batch:stateroot:latest" (VNum i).

Definition getEnqueueByIndex (index : value) : M S E :=
  _get "enqueue:index" index.
Definition getTransactionByIndex (index : value) : M S E :=
  _get "transaction:index" index.
Definition getTransactionsByIndexRange (start end_ : Z) : M S (list E) :=
  _values "transaction:index" start end_.
Definition getTransactionBatchByIndex (index : value) : M S E :=
  _get "batch:transaction:index" index.
Definition getStateRootByIndex (index : value) : M S E :=
  _get "stateroot:index" index.
Definition getStateRootsByIndexRange (start end_ : Z) : M S (list E) :=
  _values "stateroot:index" start end_.
Definition getStateRootBatchByIndex (index : value) : M S E :=
  _get "batch:stateroot:index" index.

Definition getLatestEnqueue : M S E :=
  i <- get "enqueue:latest" ;; getEnqueueByIndex i.
Definition getLatestTransaction : M S E :=
  i <- get "transaction:latest" ;; getTransactionByIndex i.
Definition getLatestTransactionBatch : M S E :=
  i <- get "batch:transaction:latest" ;; getTransactionBatchByIndex i.
Definition getLatestStateRoot : M S E :=
  i <- get "stateroot:latest" ;; getStateRootByIndex i.
Definition getLatestStateRootBatch : M S E :=
  i <- get "batch:stateroot:latest" ;; getStateRootBatchByIndex i.

(** Returns [Some block], or [None] for the [null] of the catch clause. *)
Definition getLastScannedEventBlock (event : string) : M S (option Z) :=
  try_catch
    (v <- get ("event:latest:" +:+ event) ;;
     n <- lift (let? b := BigNumber.from v in BigNumber.toNumber b) ;;
     ret (Some n))
    (fun err => ret None).

Definition putLastScannedEventBlock (event : string) (block : Z) : M S unit :=
  put ("event:latest:" +:+ event) (VNum block).

End Methods.
End TransportDB.

(** The five sibling methods of each family, by record kind. *)
Inductive kind : Type :=
  | Enqueue | Transaction | TransactionBatch | StateRoot | StateRootBatch.

#[global] Instance kind_eq_dec : EqDecision kind.
Proof. solve_decision. Defined.

Definition index_key (k : kind) : string :=
  match k with
  | Enqueue => "enqueue:index"
  | Transaction => "transaction:index"
  | TransactionBatch => "batch:transaction:index"
  | StateRoot => "stateroot:index"
  | StateRootBatch => "batch:stateroot:index"
  end.

Definition latest_key (k : kind) : string :=
  match k with
  | Enqueue => "enqueue:latest"
  | Transaction => "transaction:latest"
  | TransactionBatch => "batch:transaction:latest"
  | StateRoot => "stateroot:latest"
  | StateRootBatch => "batch:stateroot:latest"
  end.

Section Dispatch.
Context {S : Type} `{Backend S} {E : Type} `{Element E}.

Definition putEntries (k : kind) : list E -> M S unit :=
  match k with
  | Enqueue => TransportDB.putEnqueueEntries
  | Transaction => TransportDB.putTransactionEntries
  | TransactionBatch => TransportDB.putTransactionBatchEntries
  | StateRoot => TransportDB.putStateRootEntries
  | StateRootBatch => TransportDB.putStateRootBatchEntries
  end.

Definition getByIndex (k : kind) : value -> M S E :=
  match k with
  | Enqueue => TransportDB.getEnqueueByIndex
  | Transaction => TransportDB.getTransactionByIndex
  | TransactionBatch => TransportDB.getTransactionBatchByIndex
  | StateRoot => TransportDB.getStateRootByIndex
  | StateRootBatch => TransportDB.getStateRootBatchByIndex
  end.

Definition getLatest (k : kind) : M S E :=
  match k with
  | Enqueue => TransportDB.getLatestEnqueue
  | Transaction => TransportDB.getLatestTransaction
  | TransactionBatch => TransportDB.getLatestTransactionBatch
  | StateRoot => TransportDB.getLatestStateRoot
  | StateRootBatch => TransportDB.getLatestStateRootBatch
  end.

End Dispatch.

(** ** The L2 ingestion service *)

Module L2IngestionService.

Record L2IngestionServiceOptions : Type := {
  l2ChainId : Z;
  pollingInterval : Z;
  transactionsPerPollingInterval : Z;
  dangerouslyCatchAllErrors : bool;
  legacySequencerCompatibility : bool
}.

(** A block as the endpoint returns it: its [number] field (a quantity such
    as ["0x2"]) and the rest of the payload. *)
Record RawBlock : Type := {
  number : value;
  payload : string
}.

Inductive param : Type :=
  | PStr (s : string)
  | PBool (b : bool).

Inductive info : Type :=
  | Synchronizing (from to : Z)
  | CannotQuery (startBlockNumber endBlockNumber : Z).

(** Modelled from the spec: [toRpcHexString] of [utils] is not under src/;
    "block numbers passed to the endpoint are hexadecimal, 0x-prefixed, no
    leading zeros beyond a single 0 for zero". *)
Definition toRpcHexString (n : Z) : string := "0x" +:+ JsString.toString 16 n.

(** [a || b] on a number that may be [null]: [null] and [0] are falsy. *)
Definition js_or (a : option Z) (b : Z) : Z :=
  match a with
  | Some n => if n =? 0 then b else n
  | None => b
  end.

Section Service.
(** The domain entry that [handleSequencerBlock.parseBlock] builds. *)
Variable Entry : Type.

(** Everything the service does that is visible outside it, in order. *)
Inductive event : Type :=
  | EGetHighestSynced
  | ESetHighestSynced (block : Z)
  | EGetBlockNumber
  | ESend (method : string) (params : list param)
  | EParseBlock (block : RawBlock) (chainId : Z)
  | EStoreBlock (entry : Entry)
  | ESleep (ms : Z)
  | ELogInfo (msg : info)
  | ELogError (err : error).

(** Modelled from the spec: the cursor accessors
    [getHighestSyncedUnconfirmedBlock] and [setHighestSyncedUnconfirmedBlock]
    belong to a [TransportDB] that is not under src/.  The store keeps the
    cursor, a block number or nothing; the getter yields it
    ("[highestSynced = OrderedStore.getLatest(cursorKind)], defaulting to 1
    if NotFound"). *)
Record World : Type := {
  highestSynced : option Z;
  trace : list event
}.

(** Modelled from the spec: what a call of the setter, whose body is not
    under src/, leaves in the store.  The spec's words are "advance the
    synchronization cursor to [target] via a single forward pointer update"
    and "the latest pointer moves forward only, never backward": with
    [forward_only] a block below the stored cursor leaves the cursor as it
    is, and a store without a cursor takes the block.  The source only shows
    the call, so the other reading, a setter that overwrites whatever is
    stored, is kept beside it ([forward_only = false]); the two agree on
    every write that does not go back. *)
Definition pointer_update (forward_only : bool) (stored : option Z) (block : Z)
  : option Z :=
  match stored with
  | Some c => if forward_only && (block <? c) then Some c else Some block
  | None => Some block
  end.

(** What the outside answers during one pass of the loop: the value of
    [this.running] at the loop test and in the catch clause (the flag is
    cleared from outside, by [stop]), the endpoint's replies, the faults of
    the store, which of the two setters the store has, and the block handler.
    [handleSequencerBlock] lives in [handlers/transaction], which is not
    under src/: its [parseBlock] and [storeBlock] are taken as they answer,
    a value or a throw, and a call of either is recorded in the trace. *)
Record Env : Type := {
  running : bool;
  running_in_catch : bool;
  getBlockNumber : result Z;
  getBlockByNumber : string -> result RawBlock;
  getBlockRange : string -> string -> result (list RawBlock);
  parseBlock : RawBlock -> Z -> result Entry;
  storeBlock : Entry -> result unit;
  getHighest_fault : option error;
  setHighest_fault : option error;
  setHighest_forward_only : bool
}.

Variable options : L2IngestionServiceOptions.

Definition emit (e : event) : M World unit :=
  fun w => ({| highestSynced := highestSynced w; trace := trace w ++ [e] |}, Ok tt).

Fixpoint emit_all (es : list event) : M World unit :=
  match es with
  | [] => ret tt
  | e :: es' => emit e ;;; emit_all es'
  end.

(** [sleep] of [utils] only lets time pass; the pass of time is an event. *)
Definition sleep (ms : Z) : M World unit := emit (ESleep ms).

Definition getHighestSyncedUnconfirmedBlock (env : Env) : M World (option Z) :=
  emit EGetHighestSynced ;;;
  match getHighest_fault env with
  | Some e => throw e
  | None => fun w => (w, Ok (highestSynced w))
  end.

(** Line 109 calls the setter with [targetL2Block]; the call is an
    event, what it leaves in the store is [pointer_update]. *)
Definition setHighestSyncedUnconfirmedBlock (env : Env) (block : Z) : M World unit :=
  emit (ESetHighestSynced block) ;;;
  match setHighest_fault env with
  | Some e => throw e
  | None => fun w =>
      ({| highestSynced :=
            pointer_update (setHighest_forward_only env) (highestSynced w) block;
          trace := trace w |}, Ok tt)
  end.

(** [BigNumber.from(a.number).toNumber()] *)
Definition block_number (a : RawBlock) : result Z :=
  let? n := BigNumber.from (number a) in BigNumber.toNumber n.

(** [Array.prototype.sort] with the comparator
    [(a, b) => number(a) - number(b)]: a stable sort; every element of an
    array of two or more is compared, and a comparison that throws ends the
    sort.  In which order the engine compares, and so which of several
    failing comparisons it meets first, is not fixed by the language; the
    insertion order below is one such order. *)
Fixpoint sort_insert (x : RawBlock) (l : list RawBlock) : result (list RawBlock) :=
  match l with
  | [] => Ok [x]
  | y :: l' =>
      let? a := block_number x in
      let? b := block_number y in
      if a - b <=? 0 then Ok (x :: y :: l')
      else let? r := sort_insert x l' in Ok (y :: r)
  end.

Fixpoint sort_blocks (l : list RawBlock) : result (list RawBlock) :=
  match l with
  | [] => Ok []
  | x :: l' => let? r := sort_blocks l' in sort_insert x r
  end.

Fixpoint for_of {A} (l : list A) (body : A -> M World unit) : M World unit :=
  match l with
  | [] => ret tt
  | a :: l' => body a ;;; for_of l' body
  end.

(** Lines 146-171: the blocks of [startBlockNumber .. endBlockNumber] as they
    are handed to the decoding loop.  In compatibility mode every request is
    sent before any reply is awaited; [Promise.all] gives the replies in the
    order of the requests, or throws when a request fails. *)
Definition fetchBlocks (env : Env) (startBlockNumber endBlockNumber : Z)
  : M World (list RawBlock) :=
  if legacySequencerCompatibility options then
    let numbers := seqZ startBlockNumber (endBlockNumber - startBlockNumber + 1) in
    emit_all ((fun i => ESend "eth_getBlockByNumber" [PStr (toRpcHexString i); PBool true])
                <$> numbers) ;;;
    responses <- lift (TransportDB.map_result
                         (fun i => getBlockByNumber env (toRpcHexString i)) numbers) ;;
    lift (sort_blocks responses)
  else
    emit (ESend "eth_getBlockRange"
            [PStr (toRpcHexString startBlockNumber);
             PStr (toRpcHexString endBlockNumber); PBool true]) ;;;
    lift (getBlockRange env (toRpcHexString startBlockNumber)
            (toRpcHexString endBlockNumber)).

Definition _syncSequencerBlocks (env : Env) (startBlockNumber endBlockNumber : Z)
  : M World unit :=
  if endBlockNumber <? startBlockNumber then
    emit (ELogInfo (CannotQuery startBlockNumber endBlockNumber))
  else
    blocks <- fetchBlocks env startBlockNumber endBlockNumber ;;
    for_of blocks (fun block =>
      emit (EParseBlock block (l2ChainId options)) ;;;
      entry <- lift (parseBlock env block (l2ChainId options)) ;;
      emit (EStoreBlock entry) ;;;
      lift (storeBlock env entry)).

(** The three constants computed at the top of the [try] block. *)
Definition highestSyncedL2BlockNumber (stored : option Z) : Z := js_or stored 1.
Definition currentL2Block (blockNumber : Z) : Z := Z.max (blockNumber - 1) 0.
Definition targetL2Block (highestSynced current : Z) : Z :=
  Z.min (highestSynced + transactionsPerPollingInterval options) current.

(** Lines 91-116: what the [try] block does once the three constants are
    known. *)
Definition sync_window (env : Env) (highestSynced current target : Z) : M World unit :=
  if highestSynced =? target then
    sleep (pollingInterval options)
  else
    emit (ELogInfo (Synchronizing highestSynced target)) ;;;
    _syncSequencerBlocks env highestSynced target ;;;
    setHighestSyncedUnconfirmedBlock env target ;;;
    if current - highestSynced <? transactionsPerPollingInterval options
    then sleep (pollingInterval options)
    else ret tt.

(** The [try] block of [_start]. *)
Definition loop_body (env : Env) : M World unit :=
  stored <- getHighestSyncedUnconfirmedBlock env ;;
  let highestSynced := highestSyncedL2BlockNumber stored in
  emit EGetBlockNumber ;;;
  blockNumber <- lift (getBlockNumber env) ;;
  let current := currentL2Block blockNumber in
  let target := targetL2Block highestSynced current in
  sync_window env highestSynced current target.

(** The [catch] clause of [_start]. *)
Definition loop_catch (env : Env) (err : error) : M World unit :=
  if negb (running_in_catch env) || dangerouslyCatchAllErrors options then
    emit (ELogError err) ;;;
    sleep (pollingInterval options)
  else
    throw err.

Definition iteration (env : Env) : M World unit :=
  try_catch (loop_body env) (loop_catch env).

(** How a run of [_start] over a finite script of passes ends: the loop test
    found [this.running] false, an error left the loop, or the script ran
    out with the loop still going. *)
Inductive outcome : Type :=
  | Stopped
  | Raised (err : error)
  | Looping.

Fixpoint _start (script : list Env) (w : World) : World * outcome :=
  match script with
  | [] => (w, Looping)
  | env :: script' =>
      if running env then
        match iteration env w with
        | (w', Ok _) => _start script' w'
        | (w', Throw err) => (w', Raised err)
        end
      else (w, Stopped)
  end.

End Service.
End L2IngestionService.

(** ** Auxiliary definitions for the statements *)

(** The key under which [TransportDB] stores index [n] of a family. *)
Definition stored_key (key : string) (n : Z) : string :=
  key +:+ ":" +:+ padStart (BigNumber.toString n) 32 "0".

(** Strings made of characters from ['0'] upwards, as digit strings are. *)
Fixpoint from_zero_up (s : string) : Prop :=
  match s with
  | EmptyString => True
  | String c s' => (48 <= N_of_ascii c)%N /\ from_zero_up s'
  end.

(** The JavaScript numbers [BigNumber.from] accepts. *)
Definition safe (n : Z) : Prop := - BigNumber.MAX_SAFE < n < BigNumber.MAX_SAFE.

#[global] Instance safe_dec n : Decision (safe n).
Proof. unfold safe. apply _. Defined.

(** The [w] low decimal digits of [n], most significant first. *)
Fixpoint fixed_digits (w : nat) (n : Z) : string :=
  match w with
  | O => EmptyString
  | S w' => fixed_digits w' (n / 10) +:+ String (digit_char (n mod 10)) EmptyString
  end.

(** [JSON.parse(JSON.stringify(e))] gives [e] back. *)
Definition roundtrips {E} `{Element E} (e : E) : Prop :=
  JSON_parse (JSON_stringify e) = Ok e.

(** The operation [_putBatch] builds for one element. *)
Definition entry_op {E} `{Element E} (key : string) (element : E) : op :=
  Put (stored_key key (index element)) (VStr (JSON_stringify element)).

Definition op_key (o : op) : string := match o with Put k _ => k end.

(** The common shape of the five [put...Entries] methods. *)
Definition put_family {S} `{Backend S} {E} `{Element E}
    (ikey lkey : string) (entries : list E) : M S unit :=
  TransportDB._putBatch ikey entries ;;;
  i <- lift (TransportDB.last_index entries) ;;
  put lkey (VNum i).

(** A store whose keys under the family [key] were all written by
    [_putBatch] from entries of non-negative index. *)
Definition family_wf {E} `{Element E} (key : string) (m : gmap string value) : Prop :=
  forall k v, m !! k = Some v -> (exists z, k = key +:+ ":" +:+ z) ->
    exists r : E, 0 <= index r /\ safe (index r) /\
      k = stored_key key (index r) /\ v = VStr (JSON_stringify r) /\ roundtrips r.

(** A store whose every operation fails, as a backend that lost its disk. *)
Definition BrokenDown : Backend unit := {|
  get k := throw (ExternalError "IO error");
  put k v := throw (ExternalError "IO error");
  batch ops := throw (ExternalError "IO error");
  createValueStream gte lt := throw (ExternalError "IO error")
|}.

(** The in-memory store behind LevelUP's default value encoding, [utf8]:
    a value is stored as the text [String(value)], and a read gives that
    text.  The class only ever stores JSON text and integers. *)
Definition utf8 (v : value) : value :=
  match v with
  | VNum n => VStr (JsString.toString 10 n)
  | VStr s => VStr s
  | VNull => VStr "null"
  end.

Definition Utf8Down : Backend (gmap string value) := {|
  get := get (Backend := MemDown);
  put k v := put (Backend := MemDown) k (utf8 v);
  batch ops :=
    batch (Backend := MemDown) ((fun o => match o with Put k v => Put k (utf8 v) end) <$> ops);
  createValueStream := createValueStream (Backend := MemDown)
|}.

(** *** A concrete element: state roots with their JSON text

    The sample element used to run the class on concrete data.  [stringify]
    and [parse] are [JSON.stringify] and [JSON.parse] on state roots whose
    [value] holds no quote and no backslash, as a hexadecimal root does;
    escaping is not modelled. *)

Module StateRootJson.

Definition dquote : string := String (ascii_of_nat 34) EmptyString.

Definition field (name : string) : string := dquote +:+ name +:+ dquote +:+ ":".

Definition stringify (e : StateRootEntry) : string :=
  "{" +:+ field "index" +:+ JsString.toString 10 (sr_index e) +:+
  "," +:+ field "batchIndex" +:+ JsString.toString 10 (sr_batchIndex e) +:+
  "," +:+ field "value" +:+ dquote +:+ sr_value e +:+ dquote +:+ "}".

Fixpoint strip_prefix (p s : string) : option string :=
  match p, s with
  | EmptyString, _ => Some s
  | String a p', String b s' => if Ascii.eqb a b then strip_prefix p' s' else None
  | String _ _, EmptyString => None
  end.

(** Splits [s] at the first character for which [stop] holds. *)
Fixpoint span (stop : ascii -> bool) (s : string) : string * string :=
  match s with
  | EmptyString => (EmptyString, EmptyString)
  | String c s' =>
      if stop c then (EmptyString, s)
      else let '(a, b) := span stop s' in (String c a, b)
  end.

Definition parse_int (s : string) : option Z :=
  match s with
  | String "-" (String c r) => Z.opp <$> parse_digits 10 (String c r) 0
  | String c r => parse_digits 10 (String c r) 0
  | EmptyString => None
  end.

Definition is_comma (c : ascii) : bool := Ascii.eqb c ",".
Definition is_dquote (c : ascii) : bool := Ascii.eqb c (ascii_of_nat 34).

Definition parse_fields (s : string) : option StateRootEntry :=
  s1 ← strip_prefix ("{" +:+ field "index") s;
  let '(i, s2) := span is_comma s1 in
  i ← parse_int i;
  s3 ← strip_prefix ("," +:+ field "batchIndex") s2;
  let '(b, s4) := span is_comma s3 in
  b ← parse_int b;
  s5 ← strip_prefix ("," +:+ field "value" +:+ dquote) s4;
  let '(v, s6) := span is_dquote s5 in
  s7 ← strip_prefix (dquote +:+ "}") s6;
  if String.eqb s7 EmptyString
  then Some {| sr_index := i; sr_batchIndex := b; sr_value := v |}
  else None.

Definition parse (s : string) : result StateRootEntry :=
  match parse_fields s with
  | Some e => Ok e
  | None => Throw (SyntaxError "Unexpected token in JSON")
  end.

#[global] Instance StateRootElement : Element StateRootEntry := {
  index := sr_index;
  JSON_stringify := stringify;
  JSON_parse := parse
}.

Definition root (i : Z) : StateRootEntry :=
  {| sr_index := i; sr_batchIndex := i / 2; sr_value := "0xab" |}.

End StateRootJson.

(** Indices in strictly increasing order along the sequence. *)
Definition index_lt {E} `{Element E} (a b : E) : Prop := index a < index b.

(** C3 as the specification words it: an empty or not strictly increasing
    sequence makes the write fail, and the store is left as it was. *)
Definition rejects_malformed {E} `{Element E}
    (k : kind) (entries : list E) (m : gmap string value) : Prop :=
  entries = [] \/ ~ Sorted index_lt entries ->
  exists err, putEntries k entries m = (m, Throw err).

(** What a range query over [[s, e)] has to return: the entries that the
    get-by-index method of the family finds at their own index and whose
    index lies in the interval, each once, in ascending order of index. *)
Definition range_result {E} `{Element E}
    (key : string) (s e : Z) (m : gmap string value) (rs : list E) : Prop :=
  Sorted index_lt rs /\
  (forall r, r ∈ rs <->
     TransportDB._get key (VNum (index r)) m = (m, Ok r) /\ s <= index r < e) /\
  ((forall r, TransportDB._get key (VNum (index r)) m = (m, Ok r) ->
      ~ (s <= index r < e)) -> rs = []).

(** An entry [r] sits in the store as the pair [kv]. *)
Definition holds {E} `{Element E} (key : string) (r : E) (kv : string * value) : Prop :=
  kv.1 = stored_key key (index r) /\ kv.2 = VStr (JSON_stringify r) /\
  roundtrips r /\ 0 <= index r /\ safe (index r).

(** An entry the store can hold under a non-negative index. *)
Definition storable {E} `{Element E} (e : E) : Prop :=
  0 <= index e /\ safe (index e) /\ roundtrips e.

(** *** Sample data *)

Definition sample_roots : list StateRootEntry :=
  [StateRootJson.root 1; StateRootJson.root 2; StateRootJson.root 10].

Definition unordered_roots : list StateRootEntry :=
  [StateRootJson.root 2; StateRootJson.root 1].

Definition sample_store : gmap string value :=
  (putEntries StateRoot sample_roots ∅).1.

(** *** The ingestion service *)

Import L2IngestionService.
Arguments EGetHighestSynced {Entry}.
Arguments ESetHighestSynced {Entry} block.
Arguments EGetBlockNumber {Entry}.
Arguments ESend {Entry} method params.
Arguments EParseBlock {Entry} block chainId.
Arguments EStoreBlock {Entry} entry.
Arguments ESleep {Entry} ms.
Arguments ELogInfo {Entry} msg.
Arguments ELogError {Entry} err.
Arguments highestSynced {Entry} w.
Arguments trace {Entry} w.
Arguments running {Entry} e.
Arguments running_in_catch {Entry} e.
Arguments getBlockNumber {Entry} e.
Arguments getBlockByNumber {Entry} e _.
Arguments getBlockRange {Entry} e _ _.
Arguments parseBlock {Entry} e _ _.
Arguments storeBlock {Entry} e _.
Arguments getHighest_fault {Entry} e.
Arguments setHighest_fault {Entry} e.
Arguments setHighest_forward_only {Entry} e.
Arguments emit {Entry} e _.
Arguments emit_all {Entry} es.
Arguments sleep {Entry} ms.
Arguments for_of {Entry A} l body.
Arguments getHighestSyncedUnconfirmedBlock {Entry} env.
Arguments setHighestSyncedUnconfirmedBlock {Entry} env block.
Arguments fetchBlocks {Entry} options env startBlockNumber endBlockNumber.
Arguments _syncSequencerBlocks {Entry} options env startBlockNumber endBlockNumber.
Arguments sync_window {Entry} options env highestSynced current target.
Arguments loop_body {Entry} options env.
Arguments loop_catch {Entry} options env err.
Arguments iteration {Entry} options env.
Arguments _start {Entry} options script w.

Section ServiceStatements.
Context {Entry : Type} (options : L2IngestionServiceOptions).

(** The world with further events appended to its trace. *)
Definition add_events (w : World Entry) (es : list (event Entry)) : World Entry :=
  {| highestSynced := highestSynced w; trace := trace w ++ es |}.

(** The requests sent to the endpoint, in order. *)
Definition sends (tr : list (event Entry)) : list (string * list param) :=
  omap (fun e => match e with ESend m ps => Some (m, ps) | _ => None end) tr.

(** The blocks handed to [parseBlock], in order. *)
Definition parsed (tr : list (event Entry)) : list RawBlock :=
  omap (fun e => match e with EParseBlock b _ => Some b | _ => None end) tr.

(** The requests that ask the endpoint for the blocks [first .. last], both
    included, under the configured strategy ([eth_getBlockRange] takes
    inclusive bounds). *)
Definition requests_closed (first last : Z) : list (string * list param) :=
  if legacySequencerCompatibility options then
    (fun i => ("eth_getBlockByNumber", [PStr (toRpcHexString i); PBool true]))
      <$> seqZ first (last - first + 1)
  else
    [("eth_getBlockRange",
      [PStr (toRpcHexString first); PStr (toRpcHexString last); PBool true])].

(** The window as the specification words it: the cursor defaults to 1 only
    when it is absent. *)
Definition spec_highestSynced (stored : option Z) : Z :=
  match stored with Some c => c | None => 1 end.

(** C7 as worded. *)
Definition window_as_specified (env : Env Entry) (w : World Entry) : Prop :=
  forall h, getHighest_fault env = None -> getBlockNumber env = Ok h ->
    let hs := spec_highestSynced (highestSynced w) in
    let head := Z.max (h - 1) 0 in
    let target := Z.min (hs + transactionsPerPollingInterval options) head in
    loop_body options env w =
      sync_window options env hs head target
        (add_events w [EGetHighestSynced; EGetBlockNumber]).


(** Order on stored cursors; an absent cursor is below every value. *)
Definition cursor_le (a b : option Z) : Prop :=
  match a, b with
  | None, _ => True
  | Some x, Some y => x <= y
  | Some _, None => False
  end.




(** A computation that leaves an observation [f] of the world as it found
    it, whether it returns or throws. *)
Definition keeps {A X : Type} (f : World Entry -> X) (m : M (World Entry) A) : Prop :=
  forall w, f (m w).1 = f w.


(** Ascending order of the blocks' own numbers. *)
Definition number_le (a b : RawBlock) : Prop :=
  exists x y, block_number a = Ok x /\ block_number b = Ok y /\ x <= y.

End ServiceStatements.

(** *** Sample runs *)

Definition block (n : Z) : RawBlock :=
  {| number := VStr (toRpcHexString n); payload := EmptyString |}.

Definition scenario_options (legacy : bool) : L2IngestionServiceOptions :=
  {| l2ChainId := 420;
     pollingInterval := 5000;
     transactionsPerPollingInterval := 5;
     dangerouslyCatchAllErrors := false;
     legacySequencerCompatibility := legacy |}.

(** An endpoint at height [height] that answers every request with the
    block asked for; the handler keeps the block number as its entry. *)
Definition scenario_env (height : Z) : Env Z :=
  {| running := true;
     running_in_catch := true;
     getBlockNumber := Ok height;
     getBlockByNumber := fun h =>
       match BigNumber.from (VStr h) with
       | Ok n => Ok (block n)
       | Throw e => Throw e
       end;
     getBlockRange := fun a b =>
       match BigNumber.from (VStr a), BigNumber.from (VStr b) with
       | Ok x, Ok y => Ok (block <$> seqZ x (y - x + 1))
       | _, _ => Throw (ExternalError "bad range")
       end;
     parseBlock := fun b _ => block_number b;
     storeBlock := fun _ => Ok tt;
     getHighest_fault := None;
     setHighest_fault := None;
     setHighest_forward_only := true |}.

(** The same endpoint, answering the two parallel requests for blocks 2 and
    3 with block 3 and block 2. *)
Definition swapped_env : Env Z :=
  {| running := true;
     running_in_catch := true;
     getBlockNumber := Ok 4;
     getBlockByNumber := fun h =>
       if String.eqb h "0x2" then Ok (block 3)
       else if String.eqb h "0x3" then Ok (block 2)
       else Throw (ExternalError "unexpected request");
     getBlockRange := fun _ _ => Throw (ExternalError "unsupported");
     parseBlock := fun b _ => block_number b;
     storeBlock := fun _ => Ok tt;
     getHighest_fault := None;
     setHighest_fault := None;
     setHighest_forward_only := true |}.

(** An endpoint whose height request fails. *)
Definition failing_env (catch_running : bool) : Env Z :=
  {| running := true;
     running_in_catch := catch_running;
     getBlockNumber := Throw (ExternalError "timeout");
     getBlockByNumber := fun _ => Throw (ExternalError "timeout");
     getBlockRange := fun _ _ => Throw (ExternalError "timeout");
     parseBlock := fun b _ => block_number b;
     storeBlock := fun _ => Ok tt;
     getHighest_fault := None;
     setHighest_fault := None;
     setHighest_forward_only := true |}.

(** The same environment over a store whose setter overwrites. *)
Definition overwriting {Entry} (env : Env Entry) : Env Entry :=
  {| running := running env;
     running_in_catch := running_in_catch env;
     getBlockNumber := getBlockNumber env;
     getBlockByNumber := getBlockByNumber env;
     getBlockRange := getBlockRange env;
     parseBlock := parseBlock env;
     storeBlock := storeBlock env;
     getHighest_fault := getHighest_fault env;
     setHighest_fault := setHighest_fault env;
     setHighest_forward_only := false |}.

Definition empty_world : World Z := {| highestSynced := None; trace := [] |}.

Definition world_at (cursor : Z) : World Z :=
  {| highestSynced := Some cursor; trace := [] |}.

(** *** Further sample data *)

(** A batch whose second index is beyond what the key encoding accepts. *)
Definition overflowing_roots : list StateRootEntry :=
  [StateRootJson.root 1; StateRootJson.root (2 ^ 53)].

(** The second components of two runs agree: same value or same error. *)
Definition same_answer {S A} (a b : S * result A) : Prop := a.2 = b.2.

(** *** Further statements about the ingestion service *)

Section MoreServiceStatements.
Context {Entry : Type} (options : L2IngestionServiceOptions).

(** The entries handed to [storeBlock], in order. *)
Definition stored (tr : list (event Entry)) : list Entry :=
  omap (fun e => match e with EStoreBlock entry => Some entry | _ => None end) tr.

(** The handler accepts block [b]: it parses to [entry], which is stored. *)
Definition handled (env : Env Entry) (b : RawBlock) (entry : Entry) : Prop :=
  parseBlock env b (l2ChainId options) = Ok entry /\ storeBlock env entry = Ok tt.

(** The handler throws [err] on block [b], in [parseBlock] or in
    [storeBlock]. *)
Definition handling_fails (env : Env Entry) (b : RawBlock) (err : error) : Prop :=
  parseBlock env b (l2ChainId options) = Throw err \/
  exists entry, parseBlock env b (l2ChainId options) = Ok entry /\
                storeBlock env entry = Throw err.

(** Lines 173-179: the decoding loop of [_syncSequencerBlocks]. *)
Definition decode (env : Env Entry) (blocks : list RawBlock) : M (World Entry) unit :=
  for_of blocks (fun block =>
    emit (EParseBlock block (l2ChainId options)) ;;;
    entry <- lift (parseBlock env block (l2ChainId options)) ;;
    emit (EStoreBlock entry) ;;;
    lift (storeBlock env entry)).

(** The entry [storeBlock] was called with for block [b], if [parseBlock]
    gave one. *)
Definition attempted (env : Env Entry) (b : RawBlock) : list Entry :=
  match parseBlock env b (l2ChainId options) with
  | Ok entry => [entry]
  | Throw _ => []
  end.

(** An environment in which the loop keeps running at height [h] and no
    call fails. *)
Definition steady (env : Env Entry) (h : Z) : Prop :=
  running env = true /\ getHighest_fault env = None /\ setHighest_fault env = None /\
  getBlockNumber env = Ok h /\
  forall s e w, (_syncSequencerBlocks options env s e w).2 = Ok tt.

(** A computation that only appends events satisfying [P] to the trace. *)
Definition adds {A : Type} (P : event Entry -> Prop) (m : M (World Entry) A) : Prop :=
  forall w, exists es, trace (m w).1 = trace w ++ es /\ Forall P es.

(** A sleep of any other duration than the polling interval. *)
Definition paced (e : event Entry) : Prop :=
  forall ms, e = ESleep ms -> ms = pollingInterval options.

End MoreServiceStatements.

(** An endpoint at height [height] with no block to give. *)
Definition quiet_env (height : Z) : Env Z :=
  {| running := true;
     running_in_catch := true;
     getBlockNumber := Ok height;
     getBlockByNumber := fun _ => Throw (ExternalError "no such block");
     getBlockRange := fun _ _ => Ok [];
     parseBlock := fun b _ => block_number b;
     storeBlock := fun _ => Ok tt;
     getHighest_fault := None;
     setHighest_fault := None;
     setHighest_forward_only := true |}.

(** The endpoint of the scenario with a handler that rejects block 3. *)
Definition rejecting_env : Env Z :=
  {| running := true;
     running_in_catch := true;
     getBlockNumber := Ok 11;
     getBlockByNumber := getBlockByNumber (scenario_env 11);
     getBlockRange := getBlockRange (scenario_env 11);
     parseBlock := fun b _ =>
       match block_number b with
       | Ok 3 => Throw (ExternalError "bad signature")
       | r => r
       end;
     storeBlock := fun _ => Ok tt;
     getHighest_fault := None;
     setHighest_fault := None;
     setHighest_forward_only := true |}.

(** A block whose number field is no quantity. *)
Definition malformed_block : RawBlock :=
  {| number := VNull; payload := EmptyString |}.

(** The options of the scenario with the catch-all policy. *)
Definition catch_all_options : L2IngestionServiceOptions :=
  {| l2ChainId := 420;
     pollingInterval := 5000;
     transactionsPerPollingInterval := 5;
     dangerouslyCatchAllErrors := true;
     legacySequencerCompatibility := false |}.

(** An endpoint that answers the request for block 3 with a block whose
    number field is no quantity. *)
Definition malformed_env : Env Z :=
  {| running := true;
     running_in_catch := true;
     getBlockNumber := Ok 4;
     getBlockByNumber := fun h =>
       if String.eqb h "0x2" then Ok (block 2)
       else if String.eqb h "0x3" then Ok malformed_block
       else Throw (ExternalError "unexpected request");
     getBlockRange := fun _ _ => Throw (ExternalError "unsupported");
     parseBlock := fun b _ => block_number b;
     storeBlock := fun _ => Ok tt;
     getHighest_fault := None;
     setHighest_fault := None;
     setHighest_forward_only := true |}.

(* ================================================================= *)
(** * Properties *)

(** ** First checks of the embedding *)

Example toString_decimal : BigNumber.toString 1203 = "1203".
Proof. reflexivity. Qed.

Example toString_negative : BigNumber.toString (-45) = "-45".
Proof. reflexivity. Qed.

Example toRpcHexString_255 : toRpcHexString 255 = "0xff".
Proof. reflexivity. Qed.

Example toRpcHexString_zero : toRpcHexString 0 = "0x0".
Proof. reflexivity. Qed.

Example padStart_short : padStart "7" 4 "0" = "0007".
Proof. reflexivity. Qed.

Example padStart_long : padStart "12345" 4 "0" = "12345".
Proof. reflexivity. Qed.

Example from_hex_quantity : BigNumber.from (VStr "0x1f") = Ok 31.
Proof. reflexivity. Qed.

Example from_signed_and_upper_case :
  BigNumber.from (VStr "-0x1f") = Ok (-31) /\
  BigNumber.from (VStr "0x1F") = Ok 31 /\
  BigNumber.from (VStr "0X1F") = Ok 2079 /\
  BigNumber.from (VStr "-12") = Ok (-12) /\
  BigNumber.from (VStr "007") = Ok 7.
Proof. repeat split; reflexivity. Qed.

Example from_rejected_text :
  BigNumber.from (VStr "0x") = Throw (NumericFault "invalid BigNumber string") /\
  BigNumber.from (VStr "-") = Throw (NumericFault "invalid BigNumber string") /\
  BigNumber.from (VStr "0x-5") = Throw (NumericFault "invalid BigNumber string") /\
  BigNumber.from (VStr "1e+21") = Throw (NumericFault "invalid BigNumber string") /\
  BigNumber.from (VStr EmptyString) = Throw (NumericFault "invalid BigNumber string").
Proof. repeat split; reflexivity. Qed.

Example from_unsafe_number :
  BigNumber.from (VNum (2 ^ 53)) = Throw (NumericFault "overflow").
Proof. reflexivity. Qed.

Example makeKey_nine :
  TransportDB._makeKey "enqueue:index" (VNum 9) =
    Ok "enqueue:index:00000000000000000000000000000009".
Proof. reflexivity. Qed.

Example stringify_root :
  StateRootJson.parse (StateRootJson.stringify (StateRootJson.root 5)) =
    Ok (StateRootJson.root 5).
Proof. reflexivity. Qed.

Example empty_write_throws :
  putEntries StateRoot ([] : list StateRootEntry) (∅ : gmap string value) =
    (∅, Throw (TypeError "Cannot read property 'index' of undefined")).
Proof. reflexivity. Qed.

(** ** Byte order of strings *)

Section StringOrder.

Lemma ascii_compare_refl (c : ascii) : Ascii.compare c c = Eq.
Proof. unfold Ascii.compare. apply N.compare_refl. Qed.

Lemma string_compare_refl (s : string) : String.compare s s = Eq.
Proof. induction s as [|c s IH]; simpl; [done|]. by rewrite ascii_compare_refl. Qed.

Lemma string_compare_app_l (p a b : string) :
  String.compare (p +:+ a) (p +:+ b) = String.compare a b.
Proof. induction p as [|c p IH]; simpl; [done|]. by rewrite ascii_compare_refl. Qed.

Lemma string_compare_app_same_length (a b u v : string) :
  String.length a = String.length b ->
  String.compare (a +:+ u) (b +:+ v) =
    match String.compare a b with Eq => String.compare u v | c => c end.
Proof.
  revert b. induction a as [|c a IH]; intros [|d b] Hlen; simpl in *; try done.
  destruct (Ascii.compare c d); [|done..].
  apply IH. lia.
Qed.

Lemma string_length_app (a b : string) :
  String.length (a +:+ b) = (String.length a + String.length b)%nat.
Proof. induction a; simpl; [done|]. by rewrite IHa. Qed.

Lemma string_app_cons (c : ascii) (a b : string) :
  String c a +:+ b = String c (a +:+ b).
Proof. reflexivity. Qed.

Lemma string_app_assoc (a b c : string) : (a +:+ b) +:+ c = a +:+ (b +:+ c).
Proof.
  induction a as [|x a IH]; [done|].
  by rewrite !string_app_cons, IH.
Qed.

Lemma key_lt_irrefl (a : string) : ~ key_lt a a.
Proof. unfold key_lt, String.ltb. by rewrite string_compare_refl. Qed.

Lemma key_lt_asym (a b : string) : key_lt a b -> ~ key_lt b a.
Proof.
  unfold key_lt, String.ltb. rewrite (String.compare_antisym a b).
  destruct (String.compare b a); simpl; done.
Qed.

Lemma key_le_not_lt (a b : string) : key_le a b <-> ~ key_lt b a.
Proof.
  unfold key_le, key_lt, String.leb, String.ltb.
  rewrite (String.compare_antisym a b).
  destruct (String.compare b a); simpl; split; try done.
Qed.

Lemma key_lt_le (a b : string) : key_lt a b -> key_le a b.
Proof. intros H. apply key_le_not_lt. by apply key_lt_asym. Qed.

Lemma key_le_antisym (a b : string) : key_le a b -> key_le b a -> a = b.
Proof. apply String.leb_antisym. Qed.

End StringOrder.

(** ** Decimal printing and fixed-width keys *)

Section Digits.

Lemma N_of_digit_char (d : Z) :
  0 <= d < 10 -> N_of_ascii (digit_char d) = (48 + Z.to_N d)%N.
Proof.
  intros Hd. unfold digit_char.
  destruct (d <? 10) eqn:E; [|lia].
  apply N_ascii_embedding. lia.
Qed.

Lemma digit_char_compare (d1 d2 : Z) :
  0 <= d1 < 10 -> 0 <= d2 < 10 ->
  Ascii.compare (digit_char d1) (digit_char d2) = (d1 ?= d2).
Proof.
  intros H1 H2. unfold Ascii.compare.
  rewrite !N_of_digit_char by done.
  destruct (Z.compare_spec d1 d2);
    [apply N.compare_eq_iff | apply N.compare_lt_iff | apply N.compare_gt_iff]; lia.
Qed.

Lemma fixed_digits_length (w : nat) (n : Z) : String.length (fixed_digits w n) = w.
Proof.
  revert n. induction w as [|w IH]; intros n; simpl; [done|].
  rewrite string_length_app, IH. simpl. lia.
Qed.

Lemma repeat_char_snoc (c : ascii) (k : nat) :
  repeat_char c k +:+ String c EmptyString = repeat_char c (S k).
Proof.
  induction k as [|k IH]; [done|].
  cbn [repeat_char] in *. by rewrite string_app_cons, IH.
Qed.

Lemma fixed_digits_zero (w : nat) : fixed_digits w 0 = repeat_char "0" w.
Proof.
  induction w as [|w IH]; [done|].
  cbn [fixed_digits]. rewrite Zdiv_0_l, IH.
  change (digit_char (0 mod 10)) with "0"%char.
  apply repeat_char_snoc.
Qed.

(** Fixed-width printing is strictly monotone: comparing the strings is
    comparing the numbers. *)
Lemma fixed_digits_compare (w : nat) (a b : Z) :
  0 <= a < 10 ^ Z.of_nat w -> 0 <= b < 10 ^ Z.of_nat w ->
  String.compare (fixed_digits w a) (fixed_digits w b) = (a ?= b).
Proof.
  revert a b. induction w as [|w IH]; intros a b Ha Hb.
  - simpl in *. assert (a = 0) by lia. assert (b = 0) by lia. by subst.
  - rewrite Nat2Z.inj_succ, Z.pow_succ_r in Ha, Hb by lia.
    simpl.
    rewrite string_compare_app_same_length by (by rewrite !fixed_digits_length).
    rewrite IH by (split; [apply Z.div_pos; lia | apply Z.div_lt_upper_bound; lia]).
    pose proof (Z.div_mod a 10 ltac:(lia)) as Ea.
    pose proof (Z.div_mod b 10 ltac:(lia)) as Eb.
    pose proof (Z.mod_pos_bound a 10 ltac:(lia)) as Ma.
    pose proof (Z.mod_pos_bound b 10 ltac:(lia)) as Mb.
    destruct (Z.compare_spec (a / 10) (b / 10)) as [E|E|E].
    + simpl. rewrite digit_char_compare by done.
      destruct (Z.compare_spec (a mod 10) (b mod 10));
        symmetry; [apply Z.compare_eq_iff | apply Z.compare_lt_iff | apply Z.compare_gt_iff]; lia.
    + symmetry. apply Z.compare_lt_iff. lia.
    + symmetry. apply Z.compare_gt_iff. lia.
Qed.

Lemma digits_of_acc (fuel : nat) (radix n : Z) (acc : string) :
  digits_of fuel radix n acc = digits_of fuel radix n EmptyString +:+ acc.
Proof.
  revert n acc. induction fuel as [|fuel IH]; intros n acc; simpl; [done|].
  destruct (n / radix =? 0); [done|].
  rewrite IH, (IH _ (String _ EmptyString)), string_app_assoc. done.
Qed.

(** With enough fuel, the digits of [n < 10^(w+1)] are at most [w+1] many,
    and left-padded with zeros they are the fixed-width digits. *)
Lemma digits_of_fixed (w fuel : nat) (n : Z) :
  0 <= n < 10 ^ Z.of_nat (S w) -> n < 2 ^ Z.of_nat fuel -> (0 < fuel)%nat ->
  let s := digits_of fuel 10 n EmptyString in
  (0 < String.length s <= S w)%nat /\
  repeat_char "0" (S w - String.length s) +:+ s = fixed_digits (S w) n.
Proof.
  revert fuel n. induction w as [|w IH]; intros fuel n Hn Hf Hpos.
  - destruct fuel as [|fuel]; [lia|]. simpl.
    change (10 ^ Z.of_nat 1) with 10 in Hn.
    rewrite Z.div_small by lia. simpl. split; [lia|done].
  - destruct fuel as [|fuel]; [lia|].
    cbn [digits_of].
    destruct (n / 10 =? 0) eqn:E.
    + apply Z.eqb_eq in E.
      cbn [String.length fixed_digits]. rewrite E. split; [lia|].
      replace (S (S w) - 1)%nat with (S w) by lia.
      change (fixed_digits w (0 / 10) +:+ String (digit_char (0 mod 10)) EmptyString)
        with (fixed_digits (S w) 0).
      by rewrite fixed_digits_zero.
    + apply Z.eqb_neq in E.
      assert (10 <= n) as Hge.
      { destruct (Z_lt_le_dec n 10) as [Hlt|]; [|done].
        rewrite Z.div_small in E by lia. done. }
      rewrite Nat2Z.inj_succ, Z.pow_succ_r in Hn by lia.
      rewrite Nat2Z.inj_succ, Z.pow_succ_r in Hf by lia.
      assert (0 < fuel)%nat as Hfuel.
      { destruct fuel; [|lia]. simpl in Hf. lia. }
      assert (n / 10 < 2 ^ Z.of_nat fuel) as Hf'.
      { apply Z.div_lt_upper_bound; [lia|].
        assert (0 < 2 ^ Z.of_nat fuel) by (apply Z.pow_pos_nonneg; lia). lia. }
      assert (0 <= n / 10 < 10 ^ Z.of_nat (S w)) as Hn'.
      { split; [apply Z.div_pos; lia | apply Z.div_lt_upper_bound; lia]. }
      destruct (IH fuel (n / 10) Hn' Hf' Hfuel) as [Hlen Hpad].
      rewrite digits_of_acc. rewrite string_length_app. cbn [String.length].
      split; [lia|].
      replace (S (S w) - (String.length (digits_of fuel 10 (n / 10) EmptyString) + 1))%nat
        with (S w - String.length (digits_of fuel 10 (n / 10) EmptyString))%nat by lia.
      rewrite <- string_app_assoc, Hpad. done.
Qed.

Lemma magnitude_toString_fixed (w : nat) (n : Z) :
  0 <= n < 10 ^ Z.of_nat (S w) ->
  padStart (magnitude_toString 10 n) (S w) "0" = fixed_digits (S w) n.
Proof.
  intros Hn. unfold padStart, magnitude_toString.
  assert (n < 2 ^ Z.of_nat (S (Z.to_nat (Z.log2 n)))) as Hf.
  { rewrite Nat2Z.inj_succ, Z2Nat.id by apply Z.log2_nonneg.
    destruct (Z.eq_dec n 0) as [->|]; [done|].
    apply Z.log2_spec. lia. }
  destruct (digits_of_fixed w _ n Hn Hf ltac:(lia)) as [Hlen Hpad].
  destruct (Nat.ltb_spec (String.length (digits_of (S (Z.to_nat (Z.log2 n))) 10 n EmptyString))
              (S w)) as [Hlt|Hle]; [done|].
  rewrite <- Hpad.
  replace (S w - _)%nat with 0%nat by lia. done.
Qed.

Lemma toString_padded (n : Z) :
  0 <= n < 10 ^ 32 ->
  padStart (BigNumber.toString n) 32 "0" = fixed_digits 32 n.
Proof.
  intros Hn. unfold BigNumber.toString, JsString.toString.
  destruct (n <? 0) eqn:E; [lia|].
  by apply (magnitude_toString_fixed 31).
Qed.

End Digits.

(** ** Reading back what was printed *)

Section ReadBack.

Lemma digit_value_char (d : Z) : 0 <= d < 16 -> digit_value (digit_char d) = Some d.
Proof.
  intros Hd. destruct d as [|p|p]; [reflexivity| |lia].
  do 4 (destruct p as [p|p|]; try reflexivity; try lia).
Qed.

(** Reading the digits of [n] in the radix they were printed in gives [n]. *)
Lemma parse_digits_of (radix : Z) (fuel : nat) (n : Z) (acc : string) :
  2 <= radix <= 16 -> 0 <= n < 2 ^ Z.of_nat fuel ->
  parse_digits radix (digits_of fuel radix n acc) 0 = parse_digits radix acc n.
Proof.
  intros Hr. revert n acc. induction fuel as [|fuel IH]; intros n acc Hn.
  - cbn in *. by replace n with 0 by lia.
  - rewrite Nat2Z.inj_succ, Z.pow_succ_r in Hn by lia.
    pose proof (Z.div_mod n radix ltac:(lia)) as Hdm.
    pose proof (Z.mod_pos_bound n radix ltac:(lia)) as Hmod.
    assert (parse_digits radix (String (digit_char (n mod radix)) acc) (n / radix) =
            parse_digits radix acc n) as Hstep.
    { cbn [parse_digits]. rewrite digit_value_char by lia.
      destruct (Z.ltb_spec (n mod radix) radix); [|lia].
      f_equal. lia. }
    cbn [digits_of]. destruct (Z.eqb_spec (n / radix) 0) as [Hz|Hnz].
    + rewrite <- Hstep, Hz. done.
    + rewrite IH; [done|].
      split; [apply Z.div_pos; lia|].
      apply Z.div_lt_upper_bound; [lia|].
      assert (0 < 2 ^ Z.of_nat fuel) by (apply Z.pow_pos_nonneg; lia). nia.
Qed.

Lemma parse_magnitude_toString (radix n : Z) :
  2 <= radix <= 16 -> 0 <= n ->
  parse_digits radix (magnitude_toString radix n) 0 = Some n.
Proof.
  intros Hr Hn. unfold magnitude_toString. rewrite parse_digits_of; [done..|].
  split; [done|].
  rewrite Nat2Z.inj_succ, Z2Nat.id by apply Z.log2_nonneg.
  destruct (Z.eq_dec n 0) as [->|]; [done|].
  apply Z.log2_spec. lia.
Qed.

Lemma magnitude_toString_cons (radix n : Z) :
  2 <= radix <= 16 -> 0 <= n ->
  exists c r, magnitude_toString radix n = String c r.
Proof.
  intros Hr Hn. pose proof (parse_magnitude_toString radix n Hr Hn) as Hparse.
  destruct (magnitude_toString radix n) as [|c r] eqn:E; [|by eauto].
  cbn in Hparse. injection Hparse as <-.
  unfold magnitude_toString in E. cbn in E. by rewrite Zdiv_0_l in E.
Qed.

(** A string of decimal digits is read in radix 10. *)
Lemma from_magnitude_decimal (s : string) (n : Z) :
  s <> EmptyString -> parse_digits 10 s 0 = Some n ->
  BigNumber.from_magnitude s = Some n.
Proof.
  intros Hne Hparse. destruct s as [|a [|c [|d r]]]; [done..|].
  cbn [BigNumber.from_magnitude].
  destruct (Ascii.eqb_spec a "0") as [->|]; [|done].
  destruct (Ascii.eqb_spec c "x") as [->|]; [done|].
  destruct (Ascii.eqb_spec c "X") as [->|]; done.
Qed.

Lemma from_string_unsigned (radix : Z) (s : string) (n : Z) :
  parse_digits radix s 0 = Some n ->
  BigNumber.from_string s = BigNumber.from_magnitude s.
Proof.
  intros Hparse. destruct s as [|a r]; [done|]. cbn [BigNumber.from_string].
  destruct (Ascii.eqb_spec a "-") as [->|]; done.
Qed.

(** [BigNumber.from(n.toString())] is [n]. *)
Lemma from_toString (n : Z) : BigNumber.from (VStr (BigNumber.toString n)) = Ok n.
Proof.
  unfold BigNumber.from, BigNumber.toString, JsString.toString.
  destruct (Z.ltb_spec n 0) as [Hneg|Hpos].
  - cbn [BigNumber.from_string]. change (Ascii.eqb "-" "-") with true. cbv iota.
    destruct (magnitude_toString_cons 10 (- n)) as (c & r & Hcons); [lia..|].
    rewrite (from_magnitude_decimal _ (- n)).
    + cbn. by rewrite Z.opp_involutive.
    + by rewrite Hcons.
    + apply parse_magnitude_toString; lia.
  - destruct (magnitude_toString_cons 10 n) as (c & r & Hcons); [lia..|].
    pose proof (parse_magnitude_toString 10 n ltac:(lia) Hpos) as Hparse.
    rewrite (from_string_unsigned 10 _ n Hparse).
    rewrite (from_magnitude_decimal _ n); [done| |done]. by rewrite Hcons.
Qed.

(** [BigNumber.from(toRpcHexString(n))] is [n]. *)
Lemma from_toRpcHexString (n : Z) :
  0 <= n -> BigNumber.from (VStr (toRpcHexString n)) = Ok n.
Proof.
  intros Hn. unfold BigNumber.from, toRpcHexString, JsString.toString.
  destruct (Z.ltb_spec n 0); [lia|].
  destruct (magnitude_toString_cons 16 n) as (c & r & Hcons); [lia..|].
  pose proof (parse_magnitude_toString 16 n ltac:(lia) Hn) as Hparse.
  rewrite Hcons in *.
  change ("0x" +:+ String c r) with (String "0" (String "x" (String c r))).
  cbn [BigNumber.from_string BigNumber.from_magnitude].
  change (Ascii.eqb "0" "-") with false.
  change (Ascii.eqb "0" "0") with true. change (Ascii.eqb "x" "x") with true.
  cbv iota. cbn [andb]. by rewrite Hparse.
Qed.

(** The comparator's key of a block whose [number] is the quantity of [n]
    is [n]. *)
Lemma block_number_quantity (b : RawBlock) (n : Z) :
  number b = VStr (toRpcHexString n) -> 0 <= n <= BigNumber.MAX_SAFE ->
  block_number b = Ok n.
Proof.
  intros Hb Hn. unfold block_number. rewrite Hb, from_toRpcHexString by lia.
  cbn [rbind]. unfold BigNumber.toNumber.
  destruct (Z.leb_spec (Z.abs n) BigNumber.MAX_SAFE); [done|lia].
Qed.

End ReadBack.

(** ** Key encoding *)

Section KeyEncoding.

Lemma makeKey_from (key : string) (v : value) (n : Z) :
  BigNumber.from v = Ok n -> TransportDB._makeKey key v = Ok (stored_key key n).
Proof. intros Hv. unfold TransportDB._makeKey. by rewrite Hv. Qed.

Lemma from_VNum_safe (n : Z) : safe n -> BigNumber.from (VNum n) = Ok n.
Proof.
  unfold safe, BigNumber.from. intros Hn.
  destruct (n >=? BigNumber.MAX_SAFE) eqn:E1; [lia|].
  destruct (n <=? - BigNumber.MAX_SAFE) eqn:E2; [lia|]. done.
Qed.

Lemma from_VNum_inv (n m : Z) : BigNumber.from (VNum n) = Ok m -> safe n /\ m = n.
Proof.
  unfold safe, BigNumber.from.
  destruct (n >=? BigNumber.MAX_SAFE) eqn:E1; [done|].
  destruct (n <=? - BigNumber.MAX_SAFE) eqn:E2; [done|].
  intros [= <-]. lia.
Qed.

Lemma makeKey_VNum (key : string) (n : Z) :
  safe n -> TransportDB._makeKey key (VNum n) = Ok (stored_key key n).
Proof. intros Hn. by apply makeKey_from, from_VNum_safe. Qed.

Lemma makeKey_VNum_inv (key : string) (n : Z) (k : string) :
  TransportDB._makeKey key (VNum n) = Ok k -> safe n /\ k = stored_key key n.
Proof.
  unfold TransportDB._makeKey. destruct (BigNumber.from (VNum n)) as [m|err] eqn:E; [|done].
  apply from_VNum_inv in E as [Hs ->]. simpl. by intros [= <-].
Qed.

(** Comparing two keys of a family is comparing their indices, over the
    whole width of the encoding. *)
Lemma stored_key_compare (key : string) (a b : Z) :
  0 <= a < 10 ^ 32 -> 0 <= b < 10 ^ 32 ->
  String.compare (stored_key key a) (stored_key key b) = (a ?= b).
Proof.
  intros Ha Hb. unfold stored_key.
  rewrite !string_compare_app_l, !toString_padded by done.
  by apply (fixed_digits_compare 32).
Qed.

(** C5. The key encoding is strictly monotone over the supported range: for
    indices [a < b] below [10^32] (given in any form [BigNumber.from]
    accepts), [_makeKey] yields the key of either index, and the key of [a]
    is strictly smaller than the key of [b] in byte-lexicographic order. *)
Theorem makeKey_strictly_monotone (key : string) (ia ib : value) (a b : Z) :
  BigNumber.from ia = Ok a -> BigNumber.from ib = Ok b ->
  0 <= a -> a < b -> b < 10 ^ 32 ->
  exists ka kb,
    TransportDB._makeKey key ia = Ok ka /\
    TransportDB._makeKey key ib = Ok kb /\
    ka = key +:+ ":" +:+ padStart (BigNumber.toString a) 32 "0" /\
    kb = key +:+ ":" +:+ padStart (BigNumber.toString b) 32 "0" /\
    key_lt ka kb.
Proof.
  intros Hia Hib Ha Hab Hb.
  exists (stored_key key a), (stored_key key b).
  split; [by apply makeKey_from|]. split; [by apply makeKey_from|].
  split; [done|]. split; [done|].
  unfold key_lt, String.ltb.
  rewrite stored_key_compare by lia.
  by apply Z.compare_lt_iff in Hab as ->.
Qed.

Lemma makeKey_strictly_monotone_witness :
  exists ka kb,
    TransportDB._makeKey "enqueue:index" (VNum 9) = Ok ka /\
    TransportDB._makeKey "enqueue:index" (VStr "10") = Ok kb /\
    ka = "enqueue:index" +:+ ":" +:+ padStart (BigNumber.toString 9) 32 "0" /\
    kb = "enqueue:index" +:+ ":" +:+ padStart (BigNumber.toString 10) 32 "0" /\
    key_lt ka kb.
Proof.
  apply (makeKey_strictly_monotone "enqueue:index" (VNum 9) (VStr "10") 9 10);
    [reflexivity | reflexivity | lia | lia | reflexivity].
Defined.

(** *** Negative indices: their keys sort below every key of a
    non-negative index, and no two indices share a key. *)

Lemma magnitude_toString_length (w : nat) (n : Z) :
  0 <= n < 10 ^ Z.of_nat (S w) ->
  (0 < String.length (magnitude_toString 10 n) <= S w)%nat.
Proof.
  intros Hn. unfold magnitude_toString.
  assert (n < 2 ^ Z.of_nat (S (Z.to_nat (Z.log2 n)))) as Hf.
  { rewrite Nat2Z.inj_succ, Z2Nat.id by apply Z.log2_nonneg.
    destruct (Z.eq_dec n 0) as [->|]; [done|].
    apply Z.log2_spec. lia. }
  by destruct (digits_of_fixed w _ n Hn Hf ltac:(lia)) as [Hlen _].
Qed.

Lemma magnitude_toString_inj (a b : Z) :
  0 <= a < 10 ^ 32 -> 0 <= b < 10 ^ 32 ->
  magnitude_toString 10 a = magnitude_toString 10 b -> a = b.
Proof.
  intros Ha Hb Heq.
  pose proof (fixed_digits_compare 32 a b Ha Hb) as Hc.
  rewrite <- !(magnitude_toString_fixed 31), Heq, string_compare_refl in Hc by done.
  symmetry in Hc. by apply Z.compare_eq_iff in Hc.
Qed.

Lemma stored_key_negative (key : string) (a : Z) :
  - BigNumber.MAX_SAFE < a < 0 ->
  exists k : nat,
    (k < 32)%nat /\
    stored_key key a =
      key +:+ ":" +:+ repeat_char "0" k +:+ String "-" (magnitude_toString 10 (- a)).
Proof.
  intros Ha. unfold stored_key, BigNumber.toString, JsString.toString.
  destruct (a <? 0) eqn:E; [|lia].
  assert (0 <= - a < 10 ^ Z.of_nat 16) as Hm.
  { unfold BigNumber.MAX_SAFE in Ha. change (10 ^ Z.of_nat 16) with 10000000000000000.
    change (2 ^ 53 - 1) with 9007199254740991 in Ha. lia. }
  pose proof (magnitude_toString_length 15 (- a) Hm) as Hlen.
  exists (31 - String.length (magnitude_toString 10 (- a)))%nat.
  split; [lia|].
  unfold padStart. cbn [String.length].
  destruct (Nat.ltb_spec (S (String.length (magnitude_toString 10 (- a)))) 32); [|lia].
  done.
Qed.

Lemma fixed_digits_from_zero_up (w : nat) (n : Z) : from_zero_up (fixed_digits w n).
Proof.
  revert n. induction w as [|w IH]; intros n; [done|].
  cbn [fixed_digits].
  specialize (IH (n / 10)).
  induction (fixed_digits w (n / 10)) as [|c s IHs].
  - cbn. split; [|done].
    rewrite N_of_digit_char by (apply Z.mod_pos_bound; lia). lia.
  - rewrite string_app_cons. destruct IH as [Hc Hs]. split; [done|]. by apply IHs.
Qed.

Lemma compare_zeros_minus (k : nat) (m t : string) :
  from_zero_up t -> (k < String.length t)%nat ->
  String.compare (repeat_char "0" k +:+ String "-" m) t = Lt.
Proof.
  revert t. induction k as [|k IH]; intros [|c t] Ht Hlen; cbn in Hlen; try lia.
  - destruct Ht as [Hc _]. cbn [repeat_char]. change (EmptyString +:+ ?x) with x.
    cbn [String.compare]. unfold Ascii.compare.
    change (N_of_ascii "-") with 45%N.
    by replace (45 ?= N_of_ascii c)%N with Lt by (symmetry; apply N.compare_lt_iff; lia).
  - destruct Ht as [Hc Ht]. cbn [repeat_char]. rewrite string_app_cons.
    cbn [String.compare]. unfold Ascii.compare.
    change (N_of_ascii "0") with 48%N.
    destruct (N.compare_spec 48 (N_of_ascii c)); [|done|lia].
    apply IH; [done|lia].
Qed.

Lemma stored_key_compare_negative (key : string) (a b : Z) :
  - BigNumber.MAX_SAFE < a < 0 -> 0 <= b < 10 ^ 32 ->
  String.compare (stored_key key a) (stored_key key b) = Lt.
Proof.
  intros Ha Hb.
  destruct (stored_key_negative key a Ha) as (k & Hk & ->).
  unfold stored_key. rewrite !string_compare_app_l, toString_padded by done.
  apply compare_zeros_minus; [apply fixed_digits_from_zero_up|].
  by rewrite fixed_digits_length.
Qed.

Lemma string_app_inv_l (p a b : string) : p +:+ a = p +:+ b -> a = b.
Proof.
  induction p as [|c p IH]; [done|].
  rewrite !string_app_cons. intros [= Heq]. by apply IH.
Qed.

Lemma zeros_minus_inj (k1 k2 : nat) (m1 m2 : string) :
  repeat_char "0" k1 +:+ String "-" m1 = repeat_char "0" k2 +:+ String "-" m2 ->
  m1 = m2.
Proof.
  revert k2. induction k1 as [|k1 IH]; intros [|k2]; cbn [repeat_char];
    rewrite ?string_app_cons; change (EmptyString +:+ ?x) with x; try done.
  - by intros [= ->].
  - intros [= Heq]. by apply IH in Heq.
Qed.

Lemma safe_width (n : Z) : safe n -> 0 <= n -> 0 <= n < 10 ^ 32.
Proof.
  unfold safe, BigNumber.MAX_SAFE. change (2 ^ 53 - 1) with 9007199254740991.
  change (10 ^ 32) with 100000000000000000000000000000000. lia.
Qed.

Lemma stored_key_inj (key : string) (a b : Z) :
  safe a -> safe b -> stored_key key a = stored_key key b -> a = b.
Proof.
  intros Ha Hb Heq.
  destruct (Z_lt_le_dec a 0) as [Na|Pa], (Z_lt_le_dec b 0) as [Nb|Pb].
  - destruct (stored_key_negative key a) as (k1 & _ & E1); [unfold safe in Ha; lia|].
    destruct (stored_key_negative key b) as (k2 & _ & E2); [unfold safe in Hb; lia|].
    rewrite E1, E2 in Heq.
    do 2 apply string_app_inv_l in Heq.
    apply zeros_minus_inj in Heq.
    apply magnitude_toString_inj in Heq; [lia | |];
      apply safe_width; unfold safe in *; lia.
  - pose proof (stored_key_compare_negative key a b) as Hlt.
    rewrite Heq, string_compare_refl in Hlt.
    discriminate Hlt; [unfold safe in Ha; lia | by apply safe_width].
  - pose proof (stored_key_compare_negative key b a) as Hlt.
    rewrite Heq, string_compare_refl in Hlt.
    discriminate Hlt; [unfold safe in Hb; lia | by apply safe_width].
  - pose proof (stored_key_compare key a b (safe_width _ Ha Pa) (safe_width _ Hb Pb)) as Hc.
    rewrite Heq, string_compare_refl in Hc.
    symmetry in Hc. by apply Z.compare_eq_iff in Hc.
Qed.

(** Membership of a stored key in the scanned interval is membership of
    its index in [[s, e)]. *)
Lemma stored_key_ge (key : string) (s i : Z) :
  safe s -> safe i -> 0 <= i ->
  key_le (stored_key key s) (stored_key key i) <-> s <= i.
Proof.
  intros Hs Hi Pi. unfold key_le, String.leb.
  destruct (Z_lt_le_dec s 0) as [Ns|Ps].
  - rewrite stored_key_compare_negative;
      [| unfold safe in Hs; lia | by apply safe_width].
    split; [lia|done].
  - rewrite stored_key_compare by (by apply safe_width).
    destruct (Z.compare_spec s i); split; try done; lia.
Qed.

Lemma stored_key_lt (key : string) (i e : Z) :
  safe i -> safe e -> 0 <= i ->
  key_lt (stored_key key i) (stored_key key e) <-> i < e.
Proof.
  intros Hi He Pi. unfold key_lt, String.ltb.
  destruct (Z_lt_le_dec e 0) as [Ne|Pe].
  - rewrite String.compare_antisym, stored_key_compare_negative;
      [| unfold safe in He; lia | by apply safe_width].
    split; [done|lia].
  - rewrite stored_key_compare by (by apply safe_width).
    destruct (Z.compare_spec i e); split; try done; lia.
Qed.

End KeyEncoding.

(** ** The store: batch writes and point reads *)

Section MapResult.
Context {A B : Type} (f : A -> result B).

Lemma map_result_Forall2 (l : list A) (bs : list B) :
  TransportDB.map_result f l = Ok bs <-> Forall2 (fun a b => f a = Ok b) l bs.
Proof.
  revert bs. induction l as [|a l IH]; intros bs; cbn [TransportDB.map_result].
  - split; [intros [= <-]; constructor | by inversion 1].
  - destruct (f a) as [b|err] eqn:Ea; cbn [rbind].
    + destruct (TransportDB.map_result f l) as [bs'|err] eqn:El; cbn [rbind].
      * split.
        -- intros [= <-]. constructor; [done|]. by apply IH.
        -- inversion 1 as [|? b' ? bs'' Hb Hbs]; subst.
           apply IH in Hbs. congruence.
      * split; [done|]. inversion 1 as [|? b' ? bs'' Hb Hbs]; subst.
        apply IH in Hbs. congruence.
    + split; [done|]. inversion 1; subst. congruence.
Qed.

Lemma map_result_fmap (g : A -> B) (l : list A) :
  Forall (fun a => f a = Ok (g a)) l -> TransportDB.map_result f l = Ok (g <$> l).
Proof.
  intros Hl. apply map_result_Forall2.
  induction Hl; constructor; done.
Qed.

Lemma map_result_throw (l : list A) :
  Exists (fun a => exists err, f a = Throw err) l ->
  exists err, TransportDB.map_result f l = Throw err.
Proof.
  induction 1 as [a l [err Ha]|a l _ [err IH]]; cbn [TransportDB.map_result].
  - rewrite Ha. by exists err.
  - destruct (f a) as [b|err']; cbn [rbind]; [|by eexists].
    rewrite IH. by exists err.
Qed.

End MapResult.

Section MemDownWrites.
Context {E : Type} `{Element E}.

Lemma foldl_apply_op_snoc (m : gmap string value) (ops : list op) (o : op) :
  foldl apply_op m (ops ++ [o]) = apply_op (foldl apply_op m ops) o.
Proof. by rewrite foldl_app. Qed.

Lemma foldl_apply_op_other (m : gmap string value) (ops : list op) (k : string) :
  k ∉ op_key <$> ops -> foldl apply_op m ops !! k = m !! k.
Proof.
  induction ops as [|o ops IH] using rev_ind; [done|].
  rewrite fmap_app, not_elem_of_app. intros [Hops Ho].
  rewrite foldl_apply_op_snoc. destruct o as [k' v']. cbn in *.
  rewrite lookup_insert_ne; [by apply IH|].
  intros ->. apply Ho. by constructor.
Qed.

Lemma foldl_apply_op_lookup (m : gmap string value) (ops : list op) (k : string) (v : value) :
  NoDup (op_key <$> ops) -> Put k v ∈ ops -> foldl apply_op m ops !! k = Some v.
Proof.
  induction ops as [|o ops IH] using rev_ind; [by inversion 2|].
  rewrite fmap_app, NoDup_app. intros (Hnd & Hdisj & _) Hin.
  rewrite foldl_apply_op_snoc. destruct o as [k' v']. cbn in *.
  apply elem_of_app in Hin as [Hin|Hin].
  - rewrite lookup_insert_ne; [by apply IH|].
    intros ->. apply (Hdisj k); [|by constructor].
    apply list_elem_of_fmap. by exists (Put k v).
  - apply list_elem_of_singleton in Hin as [= -> ->]. by rewrite lookup_insert_eq.
Qed.

Lemma foldl_apply_op_is_Some (m : gmap string value) (ops : list op) (k : string) :
  k ∈ op_key <$> ops -> is_Some (foldl apply_op m ops !! k).
Proof.
  induction ops as [|o ops IH] using rev_ind; [by inversion 1|].
  rewrite fmap_app, foldl_apply_op_snoc. destruct o as [k' v']. cbn.
  intros Hin. destruct (decide (k' = k)) as [->|Hne].
  - rewrite lookup_insert_eq. by eexists.
  - rewrite lookup_insert_ne by done. apply IH.
    apply elem_of_app in Hin as [Hin|Hin]; [done|].
    apply list_elem_of_singleton in Hin. congruence.
Qed.

(** [_putBatch] either encodes every key and applies the whole batch, or
    throws before the store is touched. *)
Lemma putBatch_ok (key : string) (entries : list E) (m : gmap string value) :
  Forall (fun e => safe (index e)) entries ->
  TransportDB._putBatch key entries m =
    (foldl apply_op m (entry_op key <$> entries), Ok tt).
Proof.
  intros Hsafe. unfold TransportDB._putBatch, bind, lift.
  rewrite (map_result_fmap _ (entry_op key)); [done|].
  eapply Forall_impl; [exact Hsafe|]. intros e He. cbn beta.
  by rewrite makeKey_VNum.
Qed.

Lemma putBatch_throw (key : string) (entries : list E) (m : gmap string value) :
  ~ Forall (fun e => safe (index e)) entries ->
  exists err, TransportDB._putBatch key entries m = (m, Throw err).
Proof.
  intros Hunsafe. unfold TransportDB._putBatch, bind, lift.
  apply not_Forall_Exists in Hunsafe; [|intros e; apply _].
  destruct (map_result_throw
              (fun element : E =>
                 let? k := TransportDB._makeKey key (VNum (index element)) in
                 Ok (Put k (VStr (JSON_stringify element)))) entries) as [err ->].
  - eapply Exists_impl; [exact Hunsafe|]. intros e He. cbn beta in *.
    destruct (TransportDB._makeKey key (VNum (index e))) as [k|err] eqn:Ek.
    + by apply makeKey_VNum_inv in Ek as [? _].
    + by exists err.
  - by exists err.
Qed.

Lemma putBatch_inv (key : string) (entries : list E) (m m' : gmap string value) :
  TransportDB._putBatch key entries m = (m', Ok tt) ->
  Forall (fun e => safe (index e)) entries /\
  m' = foldl apply_op m (entry_op key <$> entries).
Proof.
  intros Hput.
  destruct (decide (Forall (fun e => safe (index e)) entries)) as [Hs|Hs].
  - rewrite putBatch_ok in Hput by done. by intros; split; [|congruence].
  - destruct (putBatch_throw key entries m Hs) as [err Herr]. congruence.
Qed.

Lemma putEntries_family {St : Type} `{Backend St} (k : kind) (entries : list E) :
  putEntries (S:=St) k entries = put_family (index_key k) (latest_key k) entries.
Proof. by destruct k. Qed.

Lemma getByIndex_family {St : Type} `{Backend St} (k : kind) (i : value) :
  getByIndex (S:=St) (E:=E) k i = TransportDB._get (index_key k) i.
Proof. by destruct k. Qed.

Lemma getLatest_family {St : Type} `{Backend St} (k : kind) :
  getLatest (S:=St) (E:=E) k =
    (i <- get (latest_key k) ;; TransportDB._get (index_key k) i).
Proof. by destruct k. Qed.

Lemma latest_key_not_indexed (k : kind) (n : Z) :
  stored_key (index_key k) n <> latest_key k.
Proof. unfold stored_key. by destruct k. Qed.

Lemma last_index_Some (entries : list E) (top : E) :
  last entries = Some top -> TransportDB.last_index entries = Ok (index top).
Proof. unfold TransportDB.last_index. by intros ->. Qed.

Lemma put_family_ok (ikey lkey : string) (entries : list E) (top : E)
    (m : gmap string value) :
  Forall (fun e => safe (index e)) entries -> last entries = Some top ->
  put_family ikey lkey entries m =
    (<[lkey := VNum (index top)]> (foldl apply_op m (entry_op ikey <$> entries)), Ok tt).
Proof.
  intros Hsafe Hlast. unfold put_family, bind.
  rewrite putBatch_ok by done. unfold lift. by rewrite (last_index_Some _ top).
Qed.

Lemma put_family_inv (ikey lkey : string) (entries : list E) (m m' : gmap string value) :
  put_family ikey lkey entries m = (m', Ok tt) ->
  exists top, last entries = Some top /\
    Forall (fun e => safe (index e)) entries /\
    m' = <[lkey := VNum (index top)]> (foldl apply_op m (entry_op ikey <$> entries)).
Proof.
  unfold put_family, bind at 1.
  destruct (TransportDB._putBatch ikey entries m) as [m1 [[]|err]] eqn:Hb; [|done].
  apply putBatch_inv in Hb as [Hsafe ->].
  unfold bind, lift, TransportDB.last_index.
  destruct (last entries) as [top|]; [|done].
  cbn. intros [= <-]. by exists top.
Qed.

Lemma get_stored (key : string) (e : E) (m : gmap string value) :
  safe (index e) -> roundtrips e ->
  m !! stored_key key (index e) = Some (VStr (JSON_stringify e)) ->
  TransportDB._get key (VNum (index e)) m = (m, Ok e).
Proof.
  intros Hsafe Hrt Hm. unfold TransportDB._get, bind, lift.
  rewrite makeKey_VNum by done. cbn. rewrite Hm. cbn. by rewrite Hrt.
Qed.

End MemDownWrites.

Section IndexedWrites.
Context {E : Type} `{Element E}.

Lemma index_lt_trans : Transitive (index_lt (E:=E)).
Proof. unfold index_lt. intros a b c. lia. Qed.

Lemma increasing_keys_NoDup (key : string) (entries : list E) :
  Forall (fun e => safe (index e)) entries -> Sorted index_lt entries ->
  NoDup (op_key <$> (entry_op key <$> entries)).
Proof.
  intros Hsafe Hsorted.
  apply Sorted_StronglySorted in Hsorted; [|apply index_lt_trans].
  induction Hsorted as [|x l Hl IH Hx]; [constructor|].
  apply Forall_cons in Hsafe as [Hsx Hsl].
  cbn. apply NoDup_cons. split; [|by apply IH].
  rewrite <- list_fmap_compose. intros Hin.
  apply list_elem_of_fmap in Hin as (y & Hy & Hin). cbn in Hy.
  apply stored_key_inj in Hy; [|done|by eapply Forall_forall in Hsl].
  eapply Forall_forall in Hx; [|done]. unfold index_lt in Hx. lia.
Qed.

Lemma increasing_last_max (entries : list E) (top : E) :
  Sorted index_lt entries -> last entries = Some top ->
  Forall (fun e => index e <= index top) entries.
Proof.
  intros Hsorted. apply Sorted_StronglySorted in Hsorted; [|apply index_lt_trans].
  induction Hsorted as [|x l Hl IH Hx]; [done|].
  intros Hlast. destruct l as [|y l'].
  - cbn in Hlast. injection Hlast as <-. by repeat constructor.
  - rewrite last_cons_cons in Hlast. specialize (IH Hlast).
    constructor; [|done].
    apply last_Some_elem_of in Hlast.
    eapply Forall_forall in Hx; [|done]. unfold index_lt in Hx. lia.
Qed.

Lemma written_entry_lookup (ikey lkey : string) (entries : list E) (e : E) (v : value)
    (m : gmap string value) :
  (forall n, stored_key ikey n <> lkey) ->
  NoDup (op_key <$> (entry_op ikey <$> entries)) -> e ∈ entries ->
  <[lkey := v]> (foldl apply_op m (entry_op ikey <$> entries))
    !! stored_key ikey (index e) = Some (VStr (JSON_stringify e)).
Proof.
  intros Hns Hnd Hin. rewrite lookup_insert_ne by (intros Heq; by apply (Hns (index e))).
  apply foldl_apply_op_lookup; [done|].
  apply list_elem_of_fmap. by exists e.
Qed.

(** C4. After an indexed batch write of a non-empty sequence of records with
    strictly increasing indices, every index of the sequence is retrievable
    by the kind's get-by-index method, which returns the record written at
    that index, and the kind's latest pointer holds the maximum index of the
    sequence (so that the get-latest method returns the record of that
    index).  The write itself succeeds whenever every index is a number
    the key encoding accepts. *)
Theorem put_then_get (k : kind) (entries : list E) (m : gmap string value) :
  entries <> [] -> Sorted index_lt entries -> Forall roundtrips entries ->
  (Forall (fun e => safe (index e)) entries ->
   exists m', putEntries k entries m = (m', Ok tt)) /\
  (forall m', putEntries k entries m = (m', Ok tt) ->
     (forall e, e ∈ entries -> getByIndex k (VNum (index e)) m' = (m', Ok e)) /\
     exists top, top ∈ entries /\
       Forall (fun e => index e <= index top) entries /\
       get (latest_key k) m' = (m', Ok (VNum (index top))) /\
       getLatest k m' = (m', Ok top)).
Proof.
  intros Hne Hsorted Hrt. rewrite putEntries_family. split.
  - intros Hsafe. apply last_is_Some in Hne as [top Htop].
    eexists. by apply (put_family_ok _ _ _ top).
  - intros m' Hput.
    apply put_family_inv in Hput as (top & Htop & Hsafe & ->).
    pose proof (increasing_keys_NoDup (index_key k) entries Hsafe Hsorted) as Hnd.
    assert (forall e, e ∈ entries ->
              TransportDB._get (index_key k) (VNum (index e))
                (<[latest_key k := VNum (index top)]>
                   (foldl apply_op m (entry_op (index_key k) <$> entries))) =
              (<[latest_key k := VNum (index top)]>
                 (foldl apply_op m (entry_op (index_key k) <$> entries)), Ok e)) as Hget.
    { intros e He. apply get_stored.
      - by eapply Forall_forall in Hsafe.
      - by eapply Forall_forall in Hrt.
      - apply written_entry_lookup; [apply latest_key_not_indexed|done..]. }
    split; [intros e He; rewrite getByIndex_family; by apply Hget|].
    exists top. split; [by apply last_Some_elem_of|].
    split; [by apply increasing_last_max|].
    assert (get (latest_key k)
              (<[latest_key k := VNum (index top)]>
                 (foldl apply_op m (entry_op (index_key k) <$> entries))) =
            (<[latest_key k := VNum (index top)]>
               (foldl apply_op m (entry_op (index_key k) <$> entries)),
             Ok (VNum (index top)))) as Hlatest.
    { cbn. by rewrite lookup_insert_eq. }
    split; [done|].
    rewrite getLatest_family. unfold bind at 1. rewrite Hlatest.
    apply Hget. by apply last_Some_elem_of.
Qed.

(** Every element of a sequence has a last element with its index. *)
Lemma last_with_index (entries : list E) (e : E) :
  e ∈ entries ->
  exists before e' after,
    entries = before ++ e' :: after /\ index e' = index e /\
    index e ∉ index <$> after.
Proof.
  revert e. induction entries as [|x l IH]; intros e He; [by inversion He|].
  destruct (decide (index e ∈ index <$> l)) as [Hin|Hout].
  - apply list_elem_of_fmap in Hin as (y & Hy & Hyl).
    destruct (IH y Hyl) as (before & e' & after & -> & He' & Hafter).
    exists (x :: before), e', after. rewrite Hy. by repeat split.
  - exists [], x, l. split; [done|].
    apply elem_of_cons in He as [->|He]; [done|].
    exfalso. apply Hout. apply list_elem_of_fmap. by exists e.
Qed.

(** After a batch, a key holds the value of the last operation on it. *)
Lemma foldl_apply_op_last (m : gmap string value) (ops1 ops2 : list op)
    (key : string) (v : value) :
  key ∉ op_key <$> ops2 ->
  foldl apply_op m (ops1 ++ Put key v :: ops2) !! key = Some v.
Proof.
  intros Hout. rewrite foldl_app. cbn [foldl apply_op].
  rewrite foldl_apply_op_other by done. apply lookup_insert_eq.
Qed.

(** C3 (amended). The indexed batch write fails when the sequence is empty,
    with a [TypeError] and without any write.  A non-empty sequence is not
    checked for order: whenever every index is a number the key encoding
    accepts the write succeeds, sets the latest pointer to the index of the
    last element, and stores under every index of the sequence the
    serialized record of the last element that carries this index. *)
Theorem put_unchecked (k : kind) (entries : list E) (m : gmap string value) :
  (exists msg, putEntries k [] m = (m, Throw (TypeError msg))) /\
  (entries <> [] -> Forall (fun e => safe (index e)) entries ->
   exists m' final,
     putEntries k entries m = (m', Ok tt) /\
     last entries = Some final /\
     m' !! latest_key k = Some (VNum (index final)) /\
     forall e, e ∈ entries ->
       exists before e' after,
         entries = before ++ e' :: after /\ index e' = index e /\
         (index e ∉ index <$> after) /\
         m' !! stored_key (index_key k) (index e) = Some (VStr (JSON_stringify e'))).
Proof.
  rewrite !putEntries_family. split.
  - eexists. reflexivity.
  - intros Hne Hsafe. apply last_is_Some in Hne as [final Hfinal].
    eexists _, final. split; [by apply put_family_ok|].
    split; [done|]. split; [apply lookup_insert_eq|].
    intros e He. rewrite lookup_insert_ne by apply not_eq_sym, latest_key_not_indexed.
    destruct (last_with_index entries e He) as (before & e' & after & Heq & He' & Hafter).
    exists before, e', after. split; [done|]. split; [done|]. split; [done|].
    rewrite Heq, fmap_app, fmap_cons. unfold entry_op at 2. rewrite He'.
    apply foldl_apply_op_last.
    intros Hin. apply Hafter.
    apply list_elem_of_fmap in Hin as (o & Ho & Hin).
    apply list_elem_of_fmap in Hin as (z & -> & Hz).
    apply list_elem_of_fmap. exists z. split; [|done].
    cbn in Ho. rewrite Forall_forall in Hsafe.
    apply (stored_key_inj (index_key k)); [apply Hsafe..|done]; [done|].
    rewrite Heq. apply elem_of_app. right. by right.
Qed.

End IndexedWrites.

(** ** The store: range scans *)

Section Scan.

Lemma fst_le_total : Total fst_le.
Proof. intros a b. unfold fst_le, key_le. apply String.leb_total. Qed.

Lemma key_le_ne_lt (a b : string) : key_le a b -> a <> b -> key_lt a b.
Proof.
  unfold key_le, key_lt, String.leb, String.ltb. intros Hle Hne.
  destruct (String.compare a b) eqn:Hc; [|done..].
  by apply String.compare_eq_iff in Hc.
Qed.

(** Two keys that share a prefix enclose only keys with that prefix. *)
Lemma prefix_sandwich (p x y k : string) :
  key_le (p +:+ x) k -> key_lt k (p +:+ y) -> exists z, k = p +:+ z.
Proof.
  unfold key_le, key_lt, String.leb, String.ltb.
  revert k. induction p as [|c p IH]; intros k; [by exists k|].
  rewrite !string_app_cons. destruct k as [|d k]; cbn [String.compare]; [done|].
  rewrite (Ascii.compare_antisym c d).
  destruct (Ascii.compare d c) eqn:Hc; cbn [CompOpp]; try done.
  apply Ascii.compare_eq_iff in Hc as ->.
  intros Hle Hlt. destruct (IH k Hle Hlt) as [z ->]. by exists z.
Qed.

Lemma elem_of_scan (gte lt : string) (m : gmap string value) (kv : string * value) :
  kv ∈ scan gte lt m <-> m !! kv.1 = Some kv.2 /\ in_range gte lt kv.
Proof.
  unfold scan. rewrite merge_sort_Permutation, list_elem_of_filter.
  rewrite elem_of_map_to_list'. tauto.
Qed.

Lemma scan_NoDup (gte lt : string) (m : gmap string value) :
  NoDup ((scan gte lt m).*1).
Proof.
  unfold scan. rewrite merge_sort_Permutation.
  apply (sublist_NoDup _ ((map_to_list m).*1));
    [apply NoDup_fst_map_to_list | apply fmap_sublist, sublist_filter].
Qed.

Lemma scan_Sorted (gte lt : string) (m : gmap string value) :
  Sorted fst_le (scan gte lt m).
Proof. unfold scan. apply Sorted_merge_sort. apply fst_le_total. Qed.

End Scan.

Section RangeQuery.
Context {E : Type} `{Element E}.

Lemma holds_parse (key : string) (l : list (string * value)) :
  Forall (fun kv => exists r : E, holds key r kv) l ->
  exists rs : list E,
    Forall2 (holds key) rs l /\
    TransportDB.map_result TransportDB.parse_entry (l.*2) = Ok rs.
Proof.
  induction 1 as [|kv l [r Hr] _ (rs & Hrs & Hparse)].
  - exists []. by split; [constructor|].
  - exists (r :: rs). split; [by constructor|].
    cbn. destruct Hr as (_ & -> & Hrt & _). cbn. rewrite Hrt. cbn.
    by rewrite Hparse.
Qed.

Lemma holds_Sorted (key : string) (rs : list E) (l : list (string * value)) :
  Forall2 (holds key) rs l -> Sorted fst_le l -> NoDup (l.*1) ->
  Sorted index_lt rs.
Proof.
  induction 1 as [|r kv rs l Hr Hrs IH]; intros Hsorted Hnd; [constructor|].
  apply Sorted_inv in Hsorted as [Hsorted Hhd].
  cbn in Hnd. apply NoDup_cons in Hnd as [Hnotin Hnd].
  constructor; [by apply IH|].
  destruct Hrs as [|r2 kv2 rs l Hr2 _]; constructor.
  apply HdRel_inv in Hhd.
  destruct Hr as (Hk & _ & _ & Hpos & Hsafe), Hr2 as (Hk2 & _ & _ & Hpos2 & Hsafe2).
  unfold index_lt. apply (stored_key_lt key); [done..|].
  rewrite <- Hk, <- Hk2. apply key_le_ne_lt; [done|].
  intros Heq. apply Hnotin. cbn. rewrite Heq. by constructor.
Qed.

Lemma get_inv (key : string) (r : E) (m : gmap string value) :
  TransportDB._get key (VNum (index r)) m = (m, Ok r) ->
  safe (index r) /\
  exists v, m !! stored_key key (index r) = Some v /\ TransportDB.parse_entry v = Ok r.
Proof.
  unfold TransportDB._get, bind, lift.
  destruct (TransportDB._makeKey key (VNum (index r))) as [k|err] eqn:Ek; [|done].
  apply makeKey_VNum_inv in Ek as [Hsafe ->]. cbn.
  destruct (m !! stored_key key (index r)) as [v|]; [|done].
  intros [= Hv]. split; [done|]. by exists v.
Qed.

(** The range query of a family, over a store whose keys of that family
    hold entries of non-negative index. *)
Lemma values_range (key : string) (s e : Z) (m : gmap string value) :
  safe s -> safe e -> family_wf (E:=E) key m ->
  exists rs, TransportDB._values key s e m = (m, Ok rs) /\ range_result key s e m rs.
Proof.
  intros Hs He Hwf.
  set (gte := stored_key key s). set (lt := stored_key key e).
  assert (forall kv, kv ∈ scan gte lt m ->
            exists r : E, holds key r kv /\ s <= index r < e) as Hscan.
  { intros [k v] [Hm [Hge Hlt]]%elem_of_scan. cbn in *.
    destruct (prefix_sandwich (key +:+ ":")
                (padStart (BigNumber.toString s) 32 "0")
                (padStart (BigNumber.toString e) 32 "0") k) as [z Hz].
    { by rewrite string_app_assoc. }
    { by rewrite string_app_assoc. }
    rewrite string_app_assoc in Hz.
    destruct (Hwf k v Hm ltac:(by exists z)) as (r & Hpos & Hsafe & -> & -> & Hrt).
    exists r. split; [done|].
    apply stored_key_ge in Hge; [|done..]. apply stored_key_lt in Hlt; [|done..].
    done. }
  destruct (holds_parse key (scan gte lt m)) as (rs & Hrs & Hparse).
  { apply Forall_forall. intros kv Hkv. destruct (Hscan kv Hkv) as (r & Hr & _).
    by exists r. }
  exists rs. split.
  { unfold TransportDB._values, bind, lift.
    rewrite !makeKey_VNum by done. cbv beta iota.
    change (createValueStream (stored_key key s) (stored_key key e) m)
      with (m, Ok ((scan gte lt m).*2)).
    cbv beta iota. by rewrite Hparse. }
  assert (forall r, r ∈ rs <->
            TransportDB._get key (VNum (index r)) m = (m, Ok r) /\ s <= index r < e)
    as Hiff.
  { intros r. split.
    - intros Hin.
      apply list_elem_of_lookup in Hin as [i Hi].
      destruct (Forall2_lookup_l _ _ _ _ _ Hrs Hi) as (kv & Hkv & Hholds).
      apply list_elem_of_lookup_2 in Hkv.
      destruct (Hscan kv Hkv) as (r' & Hholds' & Hrange).
      assert (r' = r) as ->.
      { destruct Hholds as (_ & Hv & Hrt & _), Hholds' as (_ & Hv' & Hrt' & _).
        rewrite Hv in Hv'. injection Hv' as Hv'.
        unfold roundtrips in *. rewrite Hv' in Hrt. congruence. }
      split; [|done].
      apply elem_of_scan in Hkv as [Hm _].
      destruct Hholds as (Hk & Hv & Hrt & _ & Hsafe).
      apply get_stored; [done..|]. by rewrite <- Hk, <- Hv.
    - intros [Hget Hrange].
      apply get_inv in Hget as (Hsafe & v & Hm & Hv).
      destruct (Hwf _ v Hm ltac:(by eexists)) as (r' & Hpos' & Hsafe' & Hk & -> & Hrt').
      assert (r' = r) as ->.
      { cbn in Hv. unfold roundtrips in Hrt'. congruence. }
      assert ((stored_key key (index r), VStr (JSON_stringify r)) ∈ scan gte lt m) as Hin.
      { apply elem_of_scan. split; [done|]. split; cbn.
        - apply stored_key_ge; [done..|lia].
        - apply stored_key_lt; [done..|lia]. }
      apply list_elem_of_lookup in Hin as [i Hi].
      destruct (Forall2_lookup_r _ _ _ _ _ Hrs Hi) as (r' & Hr' & Hholds).
      assert (r' = r) as ->.
      { destruct Hholds as (_ & Hv' & Hrt & _). cbn in Hv'. injection Hv' as Hv'.
        unfold roundtrips in *. rewrite <- Hv' in Hrt. congruence. }
      by apply list_elem_of_lookup_2 in Hr'. }
  split; [|split; [done|]].
  - apply (holds_Sorted key rs (scan gte lt m)); [done|apply scan_Sorted|apply scan_NoDup].
  - intros Hnone. destruct rs as [|r rs']; [done|].
    exfalso. destruct (proj1 (Hiff r) ltac:(by constructor)) as [Hget Hrange].
    by apply (Hnone r).
Qed.

(** C6. For the two kinds that have a range query (transactions and state
    roots) and every pair of bounds [s], [e], the query returns exactly the
    stored records whose index satisfies [s <= index < e], in ascending
    index order, and the empty sequence when no record qualifies.  The
    bounds are numbers the key encoding accepts and the stored records
    carry non-negative indices. *)
Theorem range_query (s e : Z) (m : gmap string value) :
  safe s -> safe e ->
  (family_wf (E:=E) "transaction:index" m ->
   exists rs, TransportDB.getTransactionsByIndexRange s e m = (m, Ok rs) /\
              range_result "transaction:index" s e m rs) /\
  (family_wf (E:=E) "stateroot:index" m ->
   exists rs, TransportDB.getStateRootsByIndexRange s e m = (m, Ok rs) /\
              range_result "stateroot:index" s e m rs).
Proof.
  intros Hs He. split; intros Hwf; by apply values_range.
Qed.

End RangeQuery.

(** ** The family invariant is kept by every write of the class *)

Section FamilyInvariant.
Context {E : Type} `{Element E}.

Lemma family_wf_empty (key : string) : family_wf (E:=E) key ∅.
Proof. intros k v Hk. by rewrite lookup_empty in Hk. Qed.

Lemma family_wf_insert_other (key k : string) (v : value) (m : gmap string value) :
  (forall z, k <> key +:+ ":" +:+ z) ->
  family_wf (E:=E) key m -> family_wf (E:=E) key (<[k := v]> m).
Proof.
  intros Hk Hwf k' v' Hm [z ->].
  rewrite lookup_insert_ne in Hm by apply Hk.
  apply (Hwf _ _ Hm). by exists z.
Qed.

Lemma family_wf_insert_entry (key : string) (e : E) (m : gmap string value) :
  storable e -> family_wf key m ->
  family_wf key (<[stored_key key (index e) := VStr (JSON_stringify e)]> m).
Proof.
  intros (Hpos & Hsafe & Hrt) Hwf k v Hm Hz.
  destruct (decide (stored_key key (index e) = k)) as [<-|Hne].
  - rewrite lookup_insert_eq in Hm. injection Hm as <-. by exists e.
  - rewrite lookup_insert_ne in Hm by done. by apply Hwf.
Qed.

Lemma family_wf_batch (key : string) (entries : list E) (m : gmap string value) :
  Forall storable entries -> family_wf key m ->
  family_wf key (foldl apply_op m (entry_op key <$> entries)).
Proof.
  intros Hst. revert m. induction Hst as [|e entries He _ IH]; intros m Hwf; [done|].
  cbn. apply IH. by apply family_wf_insert_entry.
Qed.

Lemma family_wf_batch_other (key key' : string) (entries : list E) (m : gmap string value) :
  (forall n z, stored_key key' n <> key +:+ ":" +:+ z) -> family_wf (E:=E) key m ->
  family_wf (E:=E) key (foldl apply_op m (entry_op key' <$> entries)).
Proof.
  intros Hother. revert m. induction entries as [|e entries IH]; intros m Hwf; [done|].
  cbn. apply IH. apply family_wf_insert_other; [|done]. intros z. apply Hother.
Qed.

Lemma latest_key_outside (k k' : kind) (z : string) :
  latest_key k' <> index_key k +:+ ":" +:+ z.
Proof. by destruct k, k'. Qed.

Lemma index_key_outside (k k' : kind) (n : Z) (z : string) :
  k' <> k -> stored_key (index_key k') n <> index_key k +:+ ":" +:+ z.
Proof. unfold stored_key. by destruct k, k'. Qed.

Lemma family_wf_putEntries (k k' : kind) (entries : list E) (m m' : gmap string value) :
  (k' = k -> Forall storable entries) ->
  family_wf (E:=E) (index_key k) m ->
  putEntries k' entries m = (m', Ok tt) ->
  family_wf (E:=E) (index_key k) m'.
Proof.
  intros Hst Hwf Hput. rewrite putEntries_family in Hput.
  apply put_family_inv in Hput as (top & _ & _ & ->).
  apply family_wf_insert_other; [intros z; apply latest_key_outside|].
  destruct (decide (k' = k)) as [->|Hne].
  - apply family_wf_batch; [by apply Hst|done].
  - apply family_wf_batch_other; [|done]. intros n z. by apply index_key_outside.
Qed.

Lemma family_wf_putLastScannedEventBlock (k : kind) (event : string) (block : Z)
    (m m' : gmap string value) :
  family_wf (E:=E) (index_key k) m ->
  TransportDB.putLastScannedEventBlock event block m = (m', Ok tt) ->
  family_wf (E:=E) (index_key k) m'.
Proof.
  intros Hwf [= <-]. apply family_wf_insert_other; [|done].
  intros z. by destruct k.
Qed.

End FamilyInvariant.

(** ** Instances of the store properties on sample data *)

Section StoreWitnesses.
Import StateRootJson.

Lemma sample_roots_storable : Forall storable sample_roots.
Proof. repeat constructor; vm_compute; congruence. Qed.

Lemma sample_roots_increasing : Sorted index_lt sample_roots.
Proof. repeat constructor; unfold index_lt; cbn; lia. Qed.

Lemma sample_store_wf : family_wf (E:=StateRootEntry) "stateroot:index" sample_store.
Proof.
  apply (family_wf_putEntries StateRoot StateRoot sample_roots ∅ sample_store).
  - intros _. apply sample_roots_storable.
  - apply family_wf_empty.
  - reflexivity.
Qed.

Lemma put_then_get_witness :
  exists m',
    putEntries StateRoot sample_roots ∅ = (m', Ok tt) /\
    (forall e, e ∈ sample_roots -> getByIndex StateRoot (VNum (index e)) m' = (m', Ok e)) /\
    exists top, top ∈ sample_roots /\
      Forall (fun e => index e <= index top) sample_roots /\
      get (latest_key StateRoot) m' = (m', Ok (VNum (index top))) /\
      getLatest StateRoot m' = (m', Ok top).
Proof.
  destruct (put_then_get StateRoot sample_roots ∅) as [Hok Hafter].
  - discriminate.
  - apply sample_roots_increasing.
  - eapply Forall_impl; [apply sample_roots_storable|]. by intros e (_ & _ & Hrt).
  - destruct Hok as [m' Hput].
    + eapply Forall_impl; [apply sample_roots_storable|]. by intros e (_ & Hs & _).
    + exists m'. split; [done|]. by apply Hafter.
Defined.

Lemma put_unchecked_witness :
  exists m' final,
    putEntries StateRoot unordered_roots ∅ = (m', Ok tt) /\
    last unordered_roots = Some final /\
    m' !! latest_key StateRoot = Some (VNum (index final)) /\
    forall e, e ∈ unordered_roots ->
      exists before e' after,
        unordered_roots = before ++ e' :: after /\ index e' = index e /\
        (index e ∉ index <$> after) /\
        m' !! stored_key (index_key StateRoot) (index e) =
          Some (VStr (JSON_stringify e')).
Proof.
  apply (proj2 (put_unchecked StateRoot unordered_roots ∅)).
  - discriminate.
  - repeat constructor; vm_compute; congruence.
Defined.

(** C3 fails as worded: the sequence of indices [2, 1] is not strictly
    increasing, yet the write succeeds and stores both records. *)
Lemma put_unordered_accepted :
  ~ rejects_malformed StateRoot unordered_roots ∅.
Proof.
  intros Hclaim. destruct Hclaim as [err Herr].
  - right. intros Hsorted.
    apply Sorted_inv in Hsorted as [_ Hhd]. apply HdRel_inv in Hhd.
    unfold index_lt in Hhd. cbn in Hhd. lia.
  - vm_compute in Herr. discriminate Herr.
Qed.

Lemma range_query_witness :
  exists rs,
    TransportDB.getStateRootsByIndexRange 2 11 sample_store = (sample_store, Ok rs) /\
    range_result "stateroot:index" 2 11 sample_store rs.
Proof.
  apply (proj2 (range_query (E:=StateRootEntry) 2 11 sample_store
                  ltac:(vm_compute; split; reflexivity)
                  ltac:(vm_compute; split; reflexivity))).
  apply sample_store_wf.
Defined.

Example range_query_sample :
  (TransportDB.getStateRootsByIndexRange 2 11 sample_store).2 = Ok [root 2; root 10].
Proof. vm_compute. reflexivity. Qed.

End StoreWitnesses.

(** ** The scan cursor *)

Section ScanCursor.
Context {St : Type} `{Backend St}.

(** C10. [getLastScannedEventBlock] never raises: it returns a block number
    or [null]; whenever the store lookup fails, for a missing key as for
    any other error, it returns [null], and so it does when the stored value
    is no number, so that a caller cannot tell an absent cursor from a failed
    read. *)
Theorem getLastScannedEventBlock_total (event : string) (s : St) :
  (exists s' r, TransportDB.getLastScannedEventBlock event s = (s', Ok r)) /\
  (forall s' err, get ("event:latest:" +:+ event) s = (s', Throw err) ->
     TransportDB.getLastScannedEventBlock event s = (s', Ok None)) /\
  (forall s' v, get ("event:latest:" +:+ event) s = (s', Ok v) ->
     TransportDB.getLastScannedEventBlock event s =
       (s', Ok (match (let? b := BigNumber.from v in BigNumber.toNumber b) with
                | Ok n => Some n
                | Throw _ => None
                end))).
Proof.
  unfold TransportDB.getLastScannedEventBlock, try_catch, bind, lift, ret.
  destruct (get ("event:latest:" +:+ event) s) as [s1 [v|err]].
  - destruct (let? b := BigNumber.from v in BigNumber.toNumber b) as [n|err] eqn:En.
    + split; [by eexists _, _|]. split; [done|].
      intros s' v' [= <- <-]. by rewrite En.
    + split; [by eexists _, _|]. split; [done|].
      intros s' v' [= <- <-]. by rewrite En.
  - split; [by eexists _, _|]. split; [|done].
    by intros s' err' [= <- <-].
Qed.

End ScanCursor.

Lemma getLastScannedEventBlock_total_witness :
  TransportDB.getLastScannedEventBlock (H:=BrokenDown) "ctc" tt = (tt, Ok None) /\
  TransportDB.getLastScannedEventBlock (H:=MemDown) "ctc" ∅ = (∅, Ok None).
Proof.
  split.
  - apply (proj1 (proj2 (getLastScannedEventBlock_total (H:=BrokenDown) "ctc" tt))
             tt (ExternalError "IO error")).
    reflexivity.
  - apply (proj1 (proj2 (getLastScannedEventBlock_total (H:=MemDown) "ctc" ∅))
             ∅ (NotFoundError "event:latest:ctc")).
    reflexivity.
Defined.

(** ** The ingestion loop *)

Section Worlds.
Context {Entry : Type}.

Lemma add_events_nil (w : World Entry) : add_events w [] = w.
Proof. destruct w. unfold add_events. cbn. by rewrite app_nil_r. Qed.

Lemma add_events_app (w : World Entry) (a b : list (event Entry)) :
  add_events (add_events w a) b = add_events w (a ++ b).
Proof. unfold add_events. cbn. by rewrite app_assoc. Qed.

Lemma emit_run (e : event Entry) (w : World Entry) :
  emit e w = (add_events w [e], Ok tt).
Proof. reflexivity. Qed.

Lemma emit_all_run (es : list (event Entry)) (w : World Entry) :
  emit_all es w = (add_events w es, Ok tt).
Proof.
  revert w. induction es as [|e es IH]; intros w; cbn [emit_all].
  - by rewrite add_events_nil.
  - unfold bind. rewrite emit_run, IH, add_events_app. done.
Qed.



(** *** Computations that keep an observation *)

Section Keeps.
Context {X : Type} (f : World Entry -> X).

Lemma keeps_ret {A} (a : A) : keeps f (ret a).
Proof. done. Qed.

Lemma keeps_throw {A} (err : error) : keeps f (throw (A:=A) err).
Proof. done. Qed.

Lemma keeps_lift {A} (r : result A) : keeps f (lift r).
Proof. done. Qed.

Lemma keeps_bind {A B} (m : M (World Entry) A) (k : A -> M (World Entry) B) :
  keeps f m -> (forall a, keeps f (k a)) -> keeps f (bind m k).
Proof.
  intros Hm Hk w. unfold bind. specialize (Hm w).
  destruct (m w) as [w' [a|err]]; cbn in *; [|done].
  by rewrite Hk.
Qed.

Lemma keeps_try_catch {A} (m : M (World Entry) A) (h : error -> M (World Entry) A) :
  keeps f m -> (forall err, keeps f (h err)) -> keeps f (try_catch m h).
Proof.
  intros Hm Hh w. unfold try_catch. specialize (Hm w).
  destruct (m w) as [w' [a|err]]; cbn in *; [done|].
  by rewrite Hh.
Qed.

Lemma keeps_for_of {A} (l : list A) (body : A -> M (World Entry) unit) :
  (forall a, keeps f (body a)) -> keeps f (for_of l body).
Proof.
  intros Hbody. induction l as [|a l IH]; cbn [for_of]; [apply keeps_ret|].
  apply keeps_bind; [apply Hbody|by intros _].
Qed.


Lemma try_catch_keeps {A} (m : M (World Entry) A) (h : error -> M (World Entry) A)
    (w : World Entry) :
  (forall err, keeps f (h err)) -> f (try_catch m h w).1 = f (m w).1.
Proof.
  intros Hh. unfold try_catch. destruct (m w) as [w' [a|err]]; cbn; [done|apply Hh].
Qed.

End Keeps.


Lemma keeps_cursor_emit (e : event Entry) : keeps highestSynced (emit e).
Proof. done. Qed.

End Worlds.

Section Window.
Context {Entry : Type} (options : L2IngestionServiceOptions).

(** Once the cursor and the height are read, the [try] block is
    [sync_window] on the three constants. *)
Lemma loop_body_window (env : Env Entry) (w : World Entry) (h : Z) :
  getHighest_fault env = None -> getBlockNumber env = Ok h ->
  loop_body options env w =
    sync_window options env
      (highestSyncedL2BlockNumber (highestSynced w))
      (currentL2Block h)
      (targetL2Block options (highestSyncedL2BlockNumber (highestSynced w))
         (currentL2Block h))
      (add_events w [EGetHighestSynced; EGetBlockNumber]).
Proof.
  intros Hfault Hheight.
  unfold loop_body, getHighestSyncedUnconfirmedBlock, bind, lift.
  rewrite emit_run, Hfault, emit_run, Hheight, add_events_app. done.
Qed.

(** C7 (amended). At the start of every pass the engine computes its sync
    window as: highestSynced is the stored cursor, defaulting to 1 when no
    cursor is present or when the stored cursor is 0;
    head = max(currentHeight() - 1, 0); and
    target = min(highestSynced + batchSize, head), where batchSize is the
    configured transactions-per-polling-interval.  The rest of the pass runs
    on these three values. *)
Theorem sync_window_computed (env : Env Entry) (w : World Entry) (h : Z) :
  getHighest_fault env = None -> getBlockNumber env = Ok h ->
  let hs := match highestSynced w with
            | Some c => if c =? 0 then 1 else c
            | None => 1
            end in
  let head := Z.max (h - 1) 0 in
  let target := Z.min (hs + transactionsPerPollingInterval options) head in
  loop_body options env w =
    sync_window options env hs head target
      (add_events w [EGetHighestSynced; EGetBlockNumber]).
Proof. intros Hfault Hheight. by apply loop_body_window. Qed.

(** C8. For every error raised inside the loop body: if the engine has been
    asked to stop or the catch-all option is enabled, the error is logged,
    the loop sleeps one polling interval, and iteration continues with the
    next pass; otherwise the same error is re-raised out of the loop, which
    ends the run of the engine. *)
Theorem error_policy (env : Env Entry) (script : list (Env Entry))
    (w w' : World Entry) (err : error) :
  loop_body options env w = (w', Throw err) ->
  (negb (running_in_catch env) || dangerouslyCatchAllErrors options = true ->
     iteration options env w =
       (add_events w' [ELogError err; ESleep (pollingInterval options)], Ok tt) /\
     (running env = true ->
      _start options (env :: script) w =
        _start options script
          (add_events w' [ELogError err; ESleep (pollingInterval options)]))) /\
  (negb (running_in_catch env) || dangerouslyCatchAllErrors options = false ->
     iteration options env w = (w', Throw err) /\
     (running env = true ->
      _start options (env :: script) w = (w', Raised err))).
Proof.
  intros Hbody.
  assert (iteration options env w = loop_catch options env err w') as Hiter.
  { unfold iteration, try_catch. by rewrite Hbody. }
  split; intros Hpolicy.
  - assert (iteration options env w =
              (add_events w' [ELogError err; ESleep (pollingInterval options)], Ok tt))
      as Hrun.
    { rewrite Hiter. unfold loop_catch. rewrite Hpolicy.
      unfold bind, sleep. by rewrite !emit_run, add_events_app. }
    split; [done|]. intros Hrunning. cbn [_start]. by rewrite Hrunning, Hrun.
  - assert (iteration options env w = (w', Throw err)) as Hrun.
    { rewrite Hiter. unfold loop_catch. by rewrite Hpolicy. }
    split; [done|]. intros Hrunning. cbn [_start]. by rewrite Hrunning, Hrun.
Qed.

End Window.

(** C7 fails as worded: with the cursor stored as 0 the pass starts from
    block 1, not from block 0. *)
Lemma stored_zero_counts_as_absent :
  ~ window_as_specified (scenario_options false) (scenario_env 11) (world_at 0).
Proof.
  intros Hclaim. specialize (Hclaim 11 eq_refl eq_refl).
  vm_compute in Hclaim. discriminate Hclaim.
Qed.

(** The stored 0 of that counterexample is what the engine itself writes on
    an empty store while the endpoint is at height 1. *)
Example zero_cursor_reached :
  highestSynced (iteration (scenario_options false) (scenario_env 1) empty_world).1 =
    Some 0.
Proof. reflexivity. Qed.

Lemma sync_window_computed_witness :
  loop_body (scenario_options false) (scenario_env 11) (world_at 0) =
    sync_window (scenario_options false) (scenario_env 11) 1 10 6
      (add_events (world_at 0) [EGetHighestSynced; EGetBlockNumber]).
Proof.
  apply (sync_window_computed (scenario_options false) (scenario_env 11) (world_at 0) 11);
    reflexivity.
Defined.

Lemma error_policy_witness :
  (_start (scenario_options false) [failing_env true; scenario_env 11] empty_world =
     (add_events empty_world [EGetHighestSynced; EGetBlockNumber],
      Raised (ExternalError "timeout"))) /\
  (_start (scenario_options false) [failing_env false; scenario_env 11] empty_world =
     _start (scenario_options false) [scenario_env 11]
       (add_events empty_world
          [EGetHighestSynced; EGetBlockNumber;
           ELogError (ExternalError "timeout"); ESleep 5000])).
Proof.
  split.
  - apply (proj2 (error_policy (scenario_options false) (failing_env true)
                    [scenario_env 11] empty_world
                    (add_events empty_world [EGetHighestSynced; EGetBlockNumber])
                    (ExternalError "timeout") eq_refl));
      reflexivity.
  - apply (proj1 (error_policy (scenario_options false) (failing_env false)
                    [scenario_env 11] empty_world
                    (add_events empty_world [EGetHighestSynced; EGetBlockNumber])
                    (ExternalError "timeout") eq_refl));
      reflexivity.
Defined.

(** ** The fetch stage and the cursor *)

Section Fetch.
Context {Entry : Type} (options : L2IngestionServiceOptions).

Implicit Types (env : Env Entry) (w : World Entry).

Lemma fetchBlocks_world env (s e : Z) w :
  (fetchBlocks options env s e w).1 =
    add_events w ((fun r : string * list param => ESend r.1 r.2)
                    <$> requests_closed options s e).
Proof.
  unfold fetchBlocks, requests_closed.
  destruct (legacySequencerCompatibility options).
  - unfold bind. rewrite emit_all_run. unfold lift.
    rewrite <- list_fmap_compose.
    destruct (TransportDB.map_result _ _) as [responses|err]; [|done].
    by destruct (sort_blocks responses).
  - unfold bind. rewrite emit_run. unfold lift.
    by destruct (getBlockRange env _ _).
Qed.



Lemma fetchBlocks_cursor env (s e : Z) : keeps highestSynced (fetchBlocks options env s e).
Proof. intros w. by rewrite fetchBlocks_world. Qed.


Lemma decode_keeps_cursor env (blocks : list RawBlock) :
  keeps highestSynced
    (for_of blocks (fun block =>
       emit (EParseBlock block (l2ChainId options)) ;;;
       entry <- lift (parseBlock env block (l2ChainId options)) ;;
       emit (EStoreBlock entry) ;;;
       lift (storeBlock env entry))).
Proof.
  apply keeps_for_of. intros b.
  apply keeps_bind; [apply keeps_cursor_emit|]. intros _.
  apply keeps_bind; [apply keeps_lift|]. intros entry.
  apply keeps_bind; [apply keeps_cursor_emit|]. intros _. apply keeps_lift.
Qed.

Lemma sync_keeps_cursor env (s e : Z) :
  keeps highestSynced (_syncSequencerBlocks options env s e).
Proof.
  unfold _syncSequencerBlocks. destruct (e <? s); [apply keeps_cursor_emit|].
  apply keeps_bind; [apply fetchBlocks_cursor|]. intros blocks.
  apply decode_keeps_cursor.
Qed.








End Fetch.



Example first_pass_requests :
  sends (trace (iteration (scenario_options true) (scenario_env 11) empty_world).1) =
    (fun h => ("eth_getBlockByNumber", [PStr h; PBool true]))
      <$> ["0x1"; "0x2"; "0x3"; "0x4"; "0x5"; "0x6"].
Proof. vm_compute. reflexivity. Qed.

Example first_pass_range_request :
  sends (trace (iteration (scenario_options false) (scenario_env 11) empty_world).1) =
    [("eth_getBlockRange", [PStr "0x1"; PStr "0x6"; PBool true])].
Proof. vm_compute. reflexivity. Qed.

Example first_pass_commits :
  (iteration (scenario_options false) (scenario_env 11) empty_world).1 =
    {| highestSynced := Some 6;
       trace := [EGetHighestSynced; EGetBlockNumber; ELogInfo (Synchronizing 1 6);
                 ESend "eth_getBlockRange" [PStr "0x1"; PStr "0x6"; PBool true];
                 EParseBlock (block 1) 420; EStoreBlock 1;
                 EParseBlock (block 2) 420; EStoreBlock 2;
                 EParseBlock (block 3) 420; EStoreBlock 3;
                 EParseBlock (block 4) 420; EStoreBlock 4;
                 EParseBlock (block 5) 420; EStoreBlock 5;
                 EParseBlock (block 6) 420; EStoreBlock 6;
                 ESetHighestSynced 6] |}.
Proof. vm_compute. reflexivity. Qed.

Section Cursor.
Context {Entry : Type} (options : L2IngestionServiceOptions).
Implicit Types (env : Env Entry) (w : World Entry).



Lemma pointer_update_cases (forward_only : bool) (stored : option Z) (block : Z) :
  pointer_update forward_only stored block = stored \/
  pointer_update forward_only stored block = Some block.
Proof. destruct stored as [c|]; cbn; [destruct (_ && _)|]; auto. Qed.

(** A write that does not go back is the same under both setters. *)
Lemma pointer_update_forward (forward_only : bool) (stored : option Z) (block : Z) :
  cursor_le stored (Some block) ->
  pointer_update forward_only stored block = Some block.
Proof.
  destruct stored as [c|]; cbn; [|done]. intros Hle.
  destruct (block <? c) eqn:E; [lia|]. by rewrite andb_false_r.
Qed.


(** The only write of the cursor is the setter's, called with [target]. *)
Lemma sync_window_cursor_update env (hs current target : Z) w :
  highestSynced (sync_window options env hs current target w).1 = highestSynced w \/
  highestSynced (sync_window options env hs current target w).1 =
    pointer_update (setHighest_forward_only env) (highestSynced w) target.
Proof.
  remember (sync_window options env hs current target w).1 as r eqn:Hr.
  unfold sync_window in Hr. destruct (hs =? target); [left; by subst r|].
  unfold bind at 1 in Hr. rewrite emit_run in Hr. unfold bind at 1 in Hr.
  pose proof (sync_keeps_cursor options env hs target
                (add_events w [ELogInfo (Synchronizing hs target)])) as Hsync.
  destruct (_syncSequencerBlocks options env hs target _) as [w1 [[]|err]];
    cbn in Hsync; [|left; by subst r].
  unfold bind at 1, setHighestSyncedUnconfirmedBlock, bind at 1 in Hr.
  rewrite emit_run in Hr.
  destruct (setHighest_fault env) as [err|]; [left; by subst r|].
  right. subst r. rewrite <- Hsync. by destruct (_ <? _).
Qed.

Lemma sync_window_cursor env (hs current target : Z) w :
  highestSynced (sync_window options env hs current target w).1 = highestSynced w \/
  highestSynced (sync_window options env hs current target w).1 = Some target.
Proof.
  destruct (sync_window_cursor_update env hs current target w) as [H|H]; [by left|].
  rewrite H. apply pointer_update_cases.
Qed.

Lemma loop_catch_keeps_cursor env (err : error) :
  keeps highestSynced (loop_catch options env err).
Proof.
  unfold loop_catch. destruct (_ || _); [|apply keeps_throw].
  apply keeps_bind; [apply keeps_cursor_emit|]. intros _. apply keeps_cursor_emit.
Qed.

Lemma iteration_cursor_update env w :
  highestSynced (iteration options env w).1 = highestSynced w \/
  exists h, getBlockNumber env = Ok h /\
    highestSynced (iteration options env w).1 =
      pointer_update (setHighest_forward_only env) (highestSynced w)
        (targetL2Block options (highestSyncedL2BlockNumber (highestSynced w))
           (currentL2Block h)).
Proof.
  unfold iteration.
  rewrite (try_catch_keeps highestSynced) by apply loop_catch_keeps_cursor.
  destruct (getHighest_fault env) as [err|] eqn:Hfault.
  { left. unfold loop_body, getHighestSyncedUnconfirmedBlock, bind.
    by rewrite emit_run, Hfault. }
  destruct (getBlockNumber env) as [h|err] eqn:Hheight.
  - rewrite (loop_body_window options env w h) by done.
    destruct (sync_window_cursor_update env
                (highestSyncedL2BlockNumber (highestSynced w)) (currentL2Block h)
                (targetL2Block options (highestSyncedL2BlockNumber (highestSynced w))
                   (currentL2Block h))
                (add_events w [EGetHighestSynced; EGetBlockNumber])) as [Hsame|Hset].
    + by left.
    + right. by exists h.
  - left. unfold loop_body, getHighestSyncedUnconfirmedBlock, bind, lift.
    by rewrite emit_run, Hfault, emit_run, Hheight.
Qed.

Lemma iteration_cursor env w :
  highestSynced (iteration options env w).1 = highestSynced w \/
  exists h, getBlockNumber env = Ok h /\
    highestSynced (iteration options env w).1 =
      Some (targetL2Block options (highestSyncedL2BlockNumber (highestSynced w))
              (currentL2Block h)).
Proof.
  destruct (iteration_cursor_update env w) as [H|(h & Hh & H)]; [by left|].
  destruct (pointer_update_cases (setHighest_forward_only env) (highestSynced w)
              (targetL2Block options (highestSyncedL2BlockNumber (highestSynced w))
                 (currentL2Block h))) as [Hp|Hp].
  - left. by rewrite H.
  - right. exists h. split; [done|]. by rewrite H.
Qed.



(** The cursor the pass read is never below the stored one. *)
Lemma stored_le_highestSynced (stored : option Z) :
  cursor_le stored (Some (highestSyncedL2BlockNumber stored)).
Proof.
  unfold highestSyncedL2BlockNumber, js_or. destruct stored as [c|]; cbn; [|done].
  destruct (Z.eqb_spec c 0); lia.
Qed.

(** A pass whose window is not empty, whose synchronization returned and
    whose setter did not fail: what it leaves. *)
Lemma iteration_written env w w2 (h : Z) :
  getHighest_fault env = None -> getBlockNumber env = Ok h ->
  setHighest_fault env = None ->
  let hs := highestSyncedL2BlockNumber (highestSynced w) in
  let head := currentL2Block h in
  let target := targetL2Block options hs head in
  hs <> target ->
  _syncSequencerBlocks options env hs target
    (add_events w [EGetHighestSynced; EGetBlockNumber;
                   ELogInfo (Synchronizing hs target)]) = (w2, Ok tt) ->
  iteration options env w =
    ({| highestSynced :=
          pointer_update (setHighest_forward_only env) (highestSynced w) target;
        trace := trace w2 ++
                 ESetHighestSynced target ::
                 (if head - hs <? transactionsPerPollingInterval options
                  then [ESleep (pollingInterval options)] else []) |},
     Ok tt).
Proof.
  intros Hfault Hheight Hset hs head target Hne Hsync. unfold iteration, try_catch.
  rewrite (loop_body_window options env w h) by done. fold hs head target.
  unfold sync_window. destruct (Z.eqb_spec hs target) as [|_]; [done|].
  unfold bind at 1. rewrite emit_run, add_events_app. cbn [app].
  unfold bind at 1. rewrite Hsync.
  pose proof (sync_keeps_cursor options env hs target
                (add_events w [EGetHighestSynced; EGetBlockNumber;
                               ELogInfo (Synchronizing hs target)])) as Hkeep.
  rewrite Hsync in Hkeep. cbn in Hkeep.
  unfold bind at 1, setHighestSyncedUnconfirmedBlock, bind at 1.
  rewrite emit_run, Hset. cbn [add_events highestSynced trace]. rewrite Hkeep.
  destruct (head - hs <? transactionsPerPollingInterval options).
  - unfold sleep. rewrite emit_run. unfold add_events. cbn.
    by rewrite <- app_assoc.
  - unfold ret. by cbn.
Qed.




End Cursor.


(** The two setters part on a write that goes back: with the cursor at 10
    and the endpoint at height 5 (head 4) the pass calls the setter with 4;
    the forward-only setter leaves 10, the overwriting one leaves 4. *)
Example backward_write_trace :
  iteration (scenario_options false) (scenario_env 5) (world_at 10) =
    ({| highestSynced := Some 10;
        trace := [EGetHighestSynced; EGetBlockNumber; ELogInfo (Synchronizing 10 4);
                  ELogInfo (CannotQuery 10 4); ESetHighestSynced 4; ESleep 5000] |},
     Ok tt) /\
  iteration (scenario_options false) (overwriting (scenario_env 5)) (world_at 10) =
    ({| highestSynced := Some 4;
        trace := [EGetHighestSynced; EGetBlockNumber; ELogInfo (Synchronizing 10 4);
                  ELogInfo (CannotQuery 10 4); ESetHighestSynced 4; ESleep 5000] |},
     Ok tt).
Proof. split; vm_compute; reflexivity. Qed.


(** ** Compatibility mode: the ordering barrier *)

Section LegacySort.

Lemma number_le_of_gt (x y : RawBlock) (a b : Z) :
  block_number x = Ok a -> block_number y = Ok b -> ~ a - b <= 0 -> number_le y x.
Proof. intros Hx Hy Hgt. exists b, a. repeat split; [done..|lia]. Qed.

Lemma sort_insert_sorted (x : RawBlock) (l : list RawBlock) :
  (exists a, block_number x = Ok a) ->
  Forall (fun b => exists n, block_number b = Ok n) l ->
  StronglySorted number_le l ->
  exists r, sort_insert x l = Ok r /\ x :: l ≡ₚ r /\ StronglySorted number_le r.
Proof.
  intros [a Ha] Hconv Hsorted.
  induction Hsorted as [|y l Hl IH Hy]; cbn [sort_insert].
  - exists [x]. repeat split; [done|]. repeat constructor.
  - apply Forall_cons in Hconv as [[b Hb] Hconv].
    rewrite Ha, Hb. cbn [rbind].
    destruct (Z.leb_spec (a - b) 0) as [Hle|Hgt].
    + exists (x :: y :: l). split; [done|]. split; [done|].
      constructor; [by constructor|].
      assert (number_le x y) as Hxy by (exists a, b; repeat split; [done..|lia]).
      constructor; [done|].
      eapply Forall_impl; [exact Hy|]. intros z (b' & c & Hb' & Hc & Hbc).
      exists a, c. repeat split; [done..|]. rewrite Hb in Hb'. injection Hb' as <-. lia.
    + destruct (IH Hconv) as (r & -> & Hperm & Hr). cbn [rbind].
      exists (y :: r). split; [done|]. split.
      * rewrite <- Hperm. apply Permutation_swap.
      * constructor; [done|]. rewrite <- Hperm. constructor; [|done].
        apply (number_le_of_gt x y a b); [done..|lia].
Qed.

Lemma sort_blocks_sorted (l : list RawBlock) :
  Forall (fun b => exists n, block_number b = Ok n) l ->
  exists r, sort_blocks l = Ok r /\ l ≡ₚ r /\ StronglySorted number_le r.
Proof.
  induction 1 as [|x l Hx Hl (r & Hr & Hperm & Hsorted)]; cbn [sort_blocks].
  - exists []. repeat split; [done|constructor].
  - rewrite Hr. cbn [rbind].
    destruct (sort_insert_sorted x r Hx) as (r' & Hr' & Hperm' & Hsorted'); [|done|].
    { by rewrite <- Hperm. }
    exists r'. split; [done|]. split; [|done]. by rewrite <- Hperm', <- Hperm.
Qed.

End LegacySort.

Section LegacyFetch.
Context {Entry : Type} (options : L2IngestionServiceOptions).
Implicit Types (env : Env Entry) (w : World Entry).

(** When every block is decoded and stored, the decoder has been handed the
    blocks one after the other, in the order of the sequence. *)
Lemma decode_parsed env (blocks : list RawBlock) w :
  Forall (fun b => exists entry, parseBlock env b (l2ChainId options) = Ok entry /\
                                 storeBlock env entry = Ok tt) blocks ->
  parsed (trace (for_of blocks (fun block =>
             emit (EParseBlock block (l2ChainId options)) ;;;
             entry <- lift (parseBlock env block (l2ChainId options)) ;;
             emit (EStoreBlock entry) ;;;
             lift (storeBlock env entry)) w).1) =
    parsed (trace w) ++ blocks.
Proof.
  intros Hall. revert w.
  induction Hall as [|b blocks (entry & Hparse & Hstore) _ IH]; intros w; cbn [for_of].
  - cbn. by rewrite app_nil_r.
  - unfold bind at 1. unfold bind at 1. rewrite emit_run.
    unfold bind at 1, lift at 1. rewrite Hparse.
    unfold bind at 1. rewrite emit_run. unfold lift at 1. rewrite Hstore.
    rewrite IH, add_events_app. cbn [add_events trace].
    unfold parsed. rewrite omap_app. cbn. by rewrite <- app_assoc.
Qed.

(** A block whose [number] is the quantity of [n] and which the comparator
    can read has [n] as its key: a quantity with a sign is not read. *)
Lemma block_number_quantity_inv (b : RawBlock) (n m : Z) :
  number b = VStr (toRpcHexString n) -> block_number b = Ok m -> m = n.
Proof.
  intros Hb Hm. destruct (Z.ltb_spec n 0) as [Hneg|Hpos].
  - exfalso. revert Hm. unfold block_number, BigNumber.from. rewrite Hb.
    unfold toRpcHexString, JsString.toString.
    destruct (Z.ltb_spec n 0); [|lia]. by cbn.
  - revert Hm. unfold block_number. rewrite Hb, from_toRpcHexString by done.
    cbn [rbind]. unfold BigNumber.toNumber. destruct (_ <=? _); congruence.
Qed.

(** C9. In compatibility mode, whatever blocks the transport returns for the
    per-block requests of a range, and in whatever order, the sequence
    handed to the decoder is a permutation of the responses, sorted
    ascending by each block's own numeric block number: by the key the
    comparator reads, and, for blocks that carry the quantities of the
    numbers [numbers], by these numbers themselves. *)
Theorem legacy_blocks_sorted env (s e : Z) w (responses : list RawBlock) :
  legacySequencerCompatibility options = true ->
  Forall2 (fun i r => getBlockByNumber env (toRpcHexString i) = Ok r)
    (seqZ s (e - s + 1)) responses ->
  Forall (fun b => exists n, block_number b = Ok n) responses ->
  exists blocks w',
    fetchBlocks options env s e w = (w', Ok blocks) /\
    responses ≡ₚ blocks /\
    StronglySorted number_le blocks /\
    (forall numbers : list Z,
       Forall2 (fun b n => number b = VStr (toRpcHexString n)) responses numbers ->
       exists pairs : list (RawBlock * Z),
         zip responses numbers ≡ₚ pairs /\ blocks = pairs.*1 /\
         StronglySorted Z.le (pairs.*2)) /\
    (s <= e ->
     _syncSequencerBlocks options env s e w =
       for_of blocks (fun block =>
         emit (EParseBlock block (l2ChainId options)) ;;;
         entry <- lift (parseBlock env block (l2ChainId options)) ;;
         emit (EStoreBlock entry) ;;;
         lift (storeBlock env entry)) w') /\
    (s <= e ->
     Forall (fun b => exists entry, parseBlock env b (l2ChainId options) = Ok entry /\
                                    storeBlock env entry = Ok tt) blocks ->
     parsed (trace (_syncSequencerBlocks options env s e w).1) =
       parsed (trace w) ++ blocks).
Proof.
  intros Hlegacy Hresp Hconv.
  destruct (sort_blocks_sorted responses Hconv) as (blocks & Hsort & Hperm & Hsorted).
  assert (exists w', fetchBlocks options env s e w = (w', Ok blocks) /\
                     parsed (trace w') = parsed (trace w)) as (w' & Hfetch & Hparsed).
  { unfold fetchBlocks. rewrite Hlegacy. unfold bind. rewrite emit_all_run.
    unfold lift. apply map_result_Forall2 in Hresp. rewrite Hresp, Hsort.
    eexists. split; [done|].
    cbn [add_events trace]. unfold parsed. rewrite omap_app.
    rewrite <- (app_nil_r (omap _ (trace w))) at 2. f_equal.
    generalize (seqZ s (e - s + 1)). intros numbers.
    induction numbers as [|i rest IH]; [done|]. cbn. apply IH. }
  assert (s <= e ->
          _syncSequencerBlocks options env s e w =
            for_of blocks (fun block =>
              emit (EParseBlock block (l2ChainId options)) ;;;
              entry <- lift (parseBlock env block (l2ChainId options)) ;;
              emit (EStoreBlock entry) ;;;
              lift (storeBlock env entry)) w') as Hsync.
  { intros Hse. unfold _syncSequencerBlocks.
    destruct (Z.ltb_spec e s); [lia|]. unfold bind at 1. by rewrite Hfetch. }
  exists blocks, w'. split; [done|]. split; [done|]. split; [done|].
  split; [|split; [done|]].
  - intros numbers Hnumbers.
    set (key := fun b : RawBlock =>
                  match block_number b with Ok n => n | Throw _ => 0 end).
    exists ((fun b => (b, key b)) <$> blocks). split; [|split].
    + rewrite <- Hperm. clear Hperm Hsort Hsorted Hresp.
      induction Hnumbers as [|b n bs ns Hb _ IH]; [done|].
      apply Forall_cons in Hconv as [[m Hm] Hconv]. cbn.
      rewrite IH by done. unfold key at 2. rewrite Hm.
      by rewrite (block_number_quantity_inv b n m Hb Hm).
    + rewrite <- list_fmap_compose. by rewrite list_fmap_id.
    + rewrite <- list_fmap_compose.
      apply (StronglySorted_fmap _ number_le); [|done].
      intros x y (a & c & Ha & Hc & Hac). unfold key. cbn. by rewrite Ha, Hc.
  - intros Hse Hall. rewrite Hsync by done. rewrite decode_parsed by done.
    by rewrite Hparsed.
Qed.

End LegacyFetch.

Lemma legacy_blocks_sorted_witness :
  (fetchBlocks (scenario_options true) swapped_env 2 3 empty_world).2 =
    Ok [block 2; block 3] /\
  parsed (trace (_syncSequencerBlocks (scenario_options true) swapped_env 2 3
                   empty_world).1) =
    [block 2; block 3].
Proof.
  destruct (legacy_blocks_sorted (scenario_options true) swapped_env 2 3 empty_world
              [block 3; block 2])
    as (blocks & w' & Hfetch & _ & _ & Hnumbers & _ & Hparsed).
  - reflexivity.
  - repeat constructor.
  - repeat constructor; eexists; vm_compute; reflexivity.
  - destruct (Hnumbers [3; 2]) as (pairs & Hperm & Hblocks & Hsorted);
      [repeat constructor|].
    apply Permutation_length_2_inv in Hperm as [Hpairs|Hpairs];
      rewrite Hpairs in Hblocks, Hsorted; cbn in Hblocks, Hsorted.
    + exfalso. apply StronglySorted_inv in Hsorted as [_ Hhd].
      apply Forall_inv in Hhd. lia.
    + rewrite Hblocks in Hfetch, Hparsed. split; [by rewrite Hfetch|].
      apply Hparsed; [lia|].
      repeat constructor; eexists; split; vm_compute; reflexivity.
Defined.

(** The scenario of the specification: the responses [3, 2] reach the
    decoder as [2, 3]. *)
Example swapped_responses_reordered :
  (fetchBlocks (scenario_options true) swapped_env 2 3 empty_world).2 =
    Ok [block 2; block 3] /\
  parsed (trace (iteration (scenario_options true) swapped_env (world_at 2)).1) =
    [block 2; block 3].
Proof. split; vm_compute; reflexivity. Qed.

(** * Further properties of the store *)

Section ReadsDependOnLookups.
Context {E : Type} `{Element E}.
Implicit Types (m : gmap string value).

(** Every read leaves the store as it was. *)
Lemma get_state (key : string) (i : value) m :
  (TransportDB._get (E:=E) key i m).1 = m.
Proof.
  unfold TransportDB._get, bind, lift.
  destruct (TransportDB._makeKey key i) as [k|err]; [|done].
  cbn. by destruct (m !! k).
Qed.

Lemma get_ext (key : string) (i : value) m1 m2 :
  (forall n, m1 !! stored_key key n = m2 !! stored_key key n) ->
  same_answer (TransportDB._get (E:=E) key i m1) (TransportDB._get key i m2).
Proof.
  intros Hext. unfold same_answer, TransportDB._get, bind, lift, TransportDB._makeKey.
  destruct (BigNumber.from i) as [n|err]; [|done].
  cbn. fold (stored_key key n). rewrite (Hext n).
  by destruct (m2 !! stored_key key n).
Qed.

Lemma getLatest_ext (k : kind) m1 m2 :
  m1 !! latest_key k = m2 !! latest_key k ->
  (forall n, m1 !! stored_key (index_key k) n = m2 !! stored_key (index_key k) n) ->
  same_answer (getLatest (E:=E) k m1) (getLatest k m2).
Proof.
  intros Hlatest Hext. rewrite !getLatest_family. unfold same_answer, bind.
  cbn [get MemDown]. rewrite Hlatest.
  destruct (m2 !! latest_key k) as [i|]; [|done].
  by apply get_ext.
Qed.

Lemma getLastScannedEventBlock_ext (event : string) m1 m2 :
  m1 !! ("event:latest:" +:+ event) = m2 !! ("event:latest:" +:+ event) ->
  same_answer (TransportDB.getLastScannedEventBlock event m1)
    (TransportDB.getLastScannedEventBlock event m2).
Proof.
  intros Hext.
  unfold same_answer, TransportDB.getLastScannedEventBlock, try_catch, bind, lift, ret.
  cbn [get MemDown]. rewrite Hext.
  destruct (m2 !! ("event:latest:" +:+ event)) as [v|]; [|done].
  by destruct (let? b := BigNumber.from v in BigNumber.toNumber b).
Qed.

Lemma event_key_outside (k : kind) (event z : string) :
  "event:latest:" +:+ event <> index_key k +:+ ":" +:+ z.
Proof. by destruct k. Qed.

Lemma event_key_not_latest (k : kind) (event : string) :
  "event:latest:" +:+ event <> latest_key k.
Proof. by destruct k. Qed.

Lemma latest_keys_distinct (k k' : kind) : k <> k' -> latest_key k <> latest_key k'.
Proof. by destruct k, k'. Qed.

(** What a successful write changes: the keys of the batch and the latest
    pointer of the kind, nothing else. *)
Lemma putEntries_lookup_other (k : kind) (entries : list E) m m' (key : string) :
  putEntries k entries m = (m', Ok tt) ->
  key <> latest_key k ->
  (forall e, e ∈ entries -> key <> stored_key (index_key k) (index e)) ->
  m' !! key = m !! key.
Proof.
  rewrite putEntries_family. intros (top & _ & _ & ->)%put_family_inv Hlatest Hkeys.
  rewrite lookup_insert_ne by done.
  apply foldl_apply_op_other. rewrite <- list_fmap_compose.
  intros (e & -> & He)%list_elem_of_fmap. by apply (Hkeys e He).
Qed.

End ReadsDependOnLookups.

Section StoreExtras.
Context {E : Type} `{Element E}.
Implicit Types (m : gmap string value).

(** X1. Round trip of the scan cursor: after [putLastScannedEventBlock], the
    getter of the same watcher returns the block that was put, for every
    block [BigNumber.from] accepts as a number, over the store that hands a
    stored number back as it is; over the store that hands it back as its
    decimal text the getter returns the block exactly when its magnitude is
    at most [2^53 - 1], and [null] beyond. *)
Theorem scan_cursor_roundtrip (event : string) (block : Z) m :
  (safe block ->
   exists m',
     TransportDB.putLastScannedEventBlock event block m = (m', Ok tt) /\
     TransportDB.getLastScannedEventBlock event m' = (m', Ok (Some block))) /\
  (exists m',
     TransportDB.putLastScannedEventBlock (H:=Utf8Down) event block m = (m', Ok tt) /\
     TransportDB.getLastScannedEventBlock (H:=Utf8Down) event m' =
       (m', Ok (if decide (Z.abs block <= BigNumber.MAX_SAFE)
                then Some block else None))).
Proof.
  split.
  - intros Hsafe. eexists. split; [reflexivity|].
    unfold TransportDB.getLastScannedEventBlock, try_catch, bind, lift, ret.
    cbn [get MemDown]. rewrite lookup_insert_eq.
    rewrite from_VNum_safe by done. cbn [rbind]. unfold BigNumber.toNumber.
    destruct (Z.leb_spec (Z.abs block) BigNumber.MAX_SAFE) as [|Hgt]; [done|].
    unfold safe in Hsafe. lia.
  - eexists. split; [reflexivity|].
    unfold TransportDB.getLastScannedEventBlock, try_catch, bind, lift, ret.
    cbn [get Utf8Down MemDown utf8]. rewrite lookup_insert_eq.
    change (JsString.toString 10 block) with (BigNumber.toString block).
    rewrite from_toString. cbn [rbind]. unfold BigNumber.toNumber.
    destruct (Z.leb_spec (Z.abs block) BigNumber.MAX_SAFE) as [Hle|Hgt];
      destruct (decide (Z.abs block <= BigNumber.MAX_SAFE)); done || lia.
Qed.

(** X2. A write of one watcher's scan cursor changes no other read: the
    cursor of every other watcher, every get-by-index and every get-latest
    answer as before. *)
Theorem scan_cursor_isolated (event : string) (block : Z) m :
  (forall event', event' <> event ->
     same_answer
       (TransportDB.getLastScannedEventBlock event'
          (TransportDB.putLastScannedEventBlock event block m).1)
       (TransportDB.getLastScannedEventBlock event' m)) /\
  (forall k i,
     same_answer
       (getByIndex (E:=E) k i (TransportDB.putLastScannedEventBlock event block m).1)
       (getByIndex k i m)) /\
  (forall k,
     same_answer
       (getLatest (E:=E) k (TransportDB.putLastScannedEventBlock event block m).1)
       (getLatest k m)).
Proof.
  cbn [TransportDB.putLastScannedEventBlock put MemDown fst].
  split; [|split].
  - intros event' Hne. apply getLastScannedEventBlock_ext.
    rewrite lookup_insert_ne; [done|].
    intros Heq. by apply string_app_inv_l in Heq.
  - intros k i. rewrite !getByIndex_family. apply get_ext. intros n.
    rewrite lookup_insert_ne; [done|]. apply event_key_outside.
  - intros k. apply getLatest_ext.
    + rewrite lookup_insert_ne; [done|]. apply event_key_not_latest.
    + intros n. rewrite lookup_insert_ne; [done|]. apply event_key_outside.
Qed.

(** X3. Reading what was never written fails with the store's
    [NotFoundError] on the very key that was looked up, and leaves the store
    untouched: a get-by-index of an index with no record, and a get-latest of
    a kind whose latest pointer was never set. *)
Theorem missing_reads (k : kind) m :
  (forall i n, BigNumber.from i = Ok n -> m !! stored_key (index_key k) n = None ->
     getByIndex (E:=E) k i m =
       (m, Throw (NotFoundError (stored_key (index_key k) n)))) /\
  (m !! latest_key k = None ->
   getLatest (E:=E) k m = (m, Throw (NotFoundError (latest_key k)))).
Proof.
  split.
  - intros i n Hi Hm. rewrite getByIndex_family.
    unfold TransportDB._get, bind, lift. rewrite (makeKey_from _ _ n) by done.
    cbn [get MemDown]. by rewrite Hm.
  - intros Hm. rewrite getLatest_family. unfold bind. cbn [get MemDown].
    by rewrite Hm.
Qed.

(** X4. A batch write is all or nothing with respect to the key encoding:
    when any index of the sequence is a number the encoding rejects, the
    write throws and nothing at all has been written, neither the records
    before the offending one nor the latest pointer. *)
Theorem put_all_or_nothing (k : kind) (entries : list E) m :
  Exists (fun e => ~ safe (index e)) entries ->
  exists err, putEntries k entries m = (m, Throw err).
Proof.
  intros Hex. rewrite putEntries_family. unfold put_family, bind at 1.
  destruct (putBatch_throw (index_key k) entries m) as [err ->]; [|by exists err].
  intros Hall. apply Exists_exists in Hex as (e & He & Hunsafe).
  by eapply Forall_forall in Hall.
Qed.

Lemma foldl_apply_op_determined (ops : list op) (key : string) m1 m2 :
  key ∈ op_key <$> ops ->
  foldl apply_op m1 ops !! key = foldl apply_op m2 ops !! key.
Proof.
  induction ops as [|o ops IH] using rev_ind; [by inversion 1|].
  rewrite fmap_app, !foldl_apply_op_snoc. destruct o as [k' v']. cbn.
  intros Hin. destruct (decide (k' = key)) as [->|Hne].
  - by rewrite !lookup_insert_eq.
  - rewrite !lookup_insert_ne by done. apply IH.
    apply elem_of_app in Hin as [Hin|Hin]; [done|].
    apply list_elem_of_singleton in Hin. congruence.
Qed.

Lemma foldl_apply_op_twice (ops : list op) m :
  foldl apply_op (foldl apply_op m ops) ops = foldl apply_op m ops.
Proof.
  apply map_eq. intros key.
  destruct (decide (key ∈ op_key <$> ops)) as [Hin|Hout].
  - by apply foldl_apply_op_determined.
  - by rewrite foldl_apply_op_other.
Qed.

(** X5. Writes are idempotent: writing the same sequence a second time
    succeeds again and leaves the store exactly as the first write left
    it, whatever the order of the sequence and whatever it overwrote. *)
Theorem put_idempotent (k : kind) (entries : list E) m m' :
  putEntries k entries m = (m', Ok tt) ->
  putEntries k entries m' = (m', Ok tt).
Proof.
  rewrite !putEntries_family. intros (top & Htop & Hsafe & ->)%put_family_inv.
  rewrite (put_family_ok _ _ _ top) by done. f_equal.
  apply map_eq. intros key.
  destruct (decide (latest_key k = key)) as [<-|Hne];
    [by rewrite !lookup_insert_eq|].
  rewrite !lookup_insert_ne by done.
  destruct (decide (key ∈ op_key <$> (entry_op (index_key k) <$> entries)))
    as [Hin|Hout].
  - by apply foldl_apply_op_determined.
  - rewrite foldl_apply_op_other by done. by rewrite lookup_insert_ne.
Qed.

(** X6. The kinds do not interfere: a successful write of one kind changes
    no get-by-index and no get-latest of any other kind. *)
Theorem kinds_isolated (k k' : kind) (entries : list E) m m' :
  putEntries k' entries m = (m', Ok tt) -> k <> k' ->
  (forall i, same_answer (getByIndex (E:=E) k i m') (getByIndex k i m)) /\
  same_answer (getLatest (E:=E) k m') (getLatest k m).
Proof.
  intros Hput Hne.
  assert (forall n, m' !! stored_key (index_key k) n = m !! stored_key (index_key k) n)
    as Hfamily.
  { intros n. apply (putEntries_lookup_other k' entries m m'); [done| |].
    - apply not_eq_sym. unfold stored_key. apply latest_key_outside.
    - intros e _ Heq. symmetry in Heq. revert Heq.
      apply index_key_outside. by apply not_eq_sym. }
  split.
  - intros i. rewrite !getByIndex_family. by apply get_ext.
  - apply getLatest_ext; [|done].
    apply (putEntries_lookup_other k' entries m m'); [done| |].
    + by apply latest_keys_distinct.
    + intros e _. unfold stored_key. apply latest_key_outside.
Qed.

(** X7. Within a kind, a successful write changes only the indices of its
    sequence: the get-by-index of any other index answers as before. *)
Theorem other_indices_kept (k : kind) (entries : list E) m m' (n : Z) :
  putEntries k entries m = (m', Ok tt) ->
  n ∉ index <$> entries ->
  same_answer (getByIndex (E:=E) k (VNum n) m') (getByIndex k (VNum n) m).
Proof.
  intros Hput Hn. rewrite !getByIndex_family.
  destruct (decide (safe n)) as [Hsafe|Hunsafe].
  - unfold same_answer, TransportDB._get, bind, lift.
    rewrite !makeKey_VNum by done. cbn [get MemDown].
    rewrite (putEntries_lookup_other k entries m m').
    + by destruct (m !! stored_key (index_key k) n).
    + done.
    + apply latest_key_not_indexed.
    + intros e He Heq.
      rewrite putEntries_family in Hput.
      apply put_family_inv in Hput as (_ & _ & Hall & _).
      apply stored_key_inj in Heq; [|done|by eapply Forall_forall in Hall].
      apply Hn. apply list_elem_of_fmap. by exists e.
  - unfold same_answer, TransportDB._get, bind, lift.
    destruct (TransportDB._makeKey (index_key k) (VNum n)) as [key|err] eqn:Hk; [|done].
    by apply makeKey_VNum_inv in Hk as [Hsafe _].
Qed.

End StoreExtras.

(** ** Further properties of range queries *)

Section KeyOrderTransitive.

Lemma string_compare_lt_trans (a b c : string) :
  String.compare a b = Lt -> String.compare b c = Lt -> String.compare a c = Lt.
Proof.
  revert b c. induction a as [|x a IH]; intros [|y b] [|z c];
    cbn [String.compare]; try done.
  unfold Ascii.compare.
  destruct (N.compare_spec (N_of_ascii x) (N_of_ascii y)) as [Exy|Lxy|Gxy];
    [|clear IH|done];
    (destruct (N.compare_spec (N_of_ascii y) (N_of_ascii z)) as [Eyz|Lyz|Gyz];
     [| |done]).
  - rewrite Exy, Eyz, N.compare_refl. apply IH.
  - intros _ _. by replace (N_of_ascii x ?= N_of_ascii z)%N with Lt
      by (symmetry; apply N.compare_lt_iff; lia).
  - intros _ _. by replace (N_of_ascii x ?= N_of_ascii z)%N with Lt
      by (symmetry; apply N.compare_lt_iff; lia).
  - intros _ _. by replace (N_of_ascii x ?= N_of_ascii z)%N with Lt
      by (symmetry; apply N.compare_lt_iff; lia).
Qed.

Lemma key_lt_le_trans (a b c : string) : key_lt a b -> key_le b c -> key_lt a c.
Proof.
  unfold key_lt, key_le, String.ltb, String.leb. intros Hab Hbc.
  destruct (String.compare a b) eqn:Eab; try done.
  destruct (String.compare b c) eqn:Ebc; try done.
  - by apply String.compare_eq_iff in Ebc as <-; rewrite Eab.
  - by rewrite (string_compare_lt_trans a b c).
Qed.

Lemma key_le_trans (a b c : string) : key_le a b -> key_le b c -> key_le a c.
Proof.
  intros Hab Hbc. destruct (decide (a = b)) as [->|Hne]; [done|].
  apply key_lt_le. eapply key_lt_le_trans; [|done]. by apply key_le_ne_lt.
Qed.

Lemma fst_le_trans : Transitive fst_le.
Proof. intros a b c. apply key_le_trans. Qed.

(** A scan depends only on the entries of the store inside its interval. *)
Lemma scan_ext (gte lt : string) (m1 m2 : gmap string value) :
  (forall kv, in_range gte lt kv -> m1 !! kv.1 = Some kv.2 <-> m2 !! kv.1 = Some kv.2) ->
  scan gte lt m1 = scan gte lt m2.
Proof.
  intros Hext.
  assert (forall kv, kv ∈ scan gte lt m1 <-> kv ∈ scan gte lt m2) as Hmem.
  { intros kv. rewrite !elem_of_scan. split; intros [Hm Hr];
      (split; [by apply (Hext kv Hr)|done]). }
  pose proof fst_le_trans as Htrans.
  apply (Sorted_unique_strong fst_le); [|apply scan_Sorted..|].
  - intros [k1 v1] [k2 v2] H1 H2 Hle Hge. unfold fst_le in *. cbn in *.
    assert (k1 = k2) as -> by by apply key_le_antisym.
    apply Hmem in H1. apply elem_of_scan in H1 as [H1 _], H2 as [H2 _].
    cbn in *. congruence.
  - apply NoDup_Permutation; [| |done];
      eapply NoDup_fmap_1, scan_NoDup.
Qed.

End KeyOrderTransitive.

Section RangeExtras.
Context {E : Type} `{Element E}.
Implicit Types (m : gmap string value).

Lemma values_ext (key : string) (s e : Z) m1 m2 :
  (forall z, m1 !! (key +:+ ":" +:+ z) = m2 !! (key +:+ ":" +:+ z)) ->
  same_answer (TransportDB._values (E:=E) key s e m1) (TransportDB._values key s e m2).
Proof.
  intros Hext. unfold same_answer, TransportDB._values, bind, lift.
  destruct (TransportDB._makeKey key (VNum s)) as [gte|err] eqn:Hs; [|done].
  destruct (TransportDB._makeKey key (VNum e)) as [lt|err] eqn:He; [|done].
  apply makeKey_VNum_inv in Hs as [_ ->], He as [_ ->].
  cbn [createValueStream MemDown].
  rewrite (scan_ext _ _ m1 m2); [by destruct (TransportDB.map_result _ _)|].
  intros [k v] [Hge Hlt]. cbn in *.
  destruct (prefix_sandwich (key +:+ ":")
              (padStart (BigNumber.toString s) 32 "0")
              (padStart (BigNumber.toString e) 32 "0") k) as [z ->];
    [by rewrite string_app_assoc..|].
  by rewrite string_app_assoc, Hext.
Qed.

Lemma putEntries_family_kept (k k' : kind) (entries : list E) m m' (z : string) :
  putEntries k' entries m = (m', Ok tt) -> k' <> k ->
  m' !! (index_key k +:+ ":" +:+ z) = m !! (index_key k +:+ ":" +:+ z).
Proof.
  intros Hput Hne. apply (putEntries_lookup_other k' entries m m'); [done| |].
  - apply not_eq_sym, latest_key_outside.
  - intros e _ Heq. symmetry in Heq. revert Heq. by apply index_key_outside.
Qed.

(** X8. Range queries see only their own kind: a successful write of any
    other kind, and any write of a scan cursor, leaves the answer of the
    transaction range query and of the state-root range query as it was,
    for every pair of bounds. *)
Theorem range_isolated (s e : Z) m :
  (forall k' (entries : list E) m',
     putEntries k' entries m = (m', Ok tt) ->
     (k' <> Transaction ->
      same_answer (TransportDB.getTransactionsByIndexRange (E:=E) s e m')
        (TransportDB.getTransactionsByIndexRange s e m)) /\
     (k' <> StateRoot ->
      same_answer (TransportDB.getStateRootsByIndexRange (E:=E) s e m')
        (TransportDB.getStateRootsByIndexRange s e m))) /\
  (forall event block,
     same_answer
       (TransportDB.getTransactionsByIndexRange (E:=E) s e
          (TransportDB.putLastScannedEventBlock event block m).1)
       (TransportDB.getTransactionsByIndexRange s e m) /\
     same_answer
       (TransportDB.getStateRootsByIndexRange (E:=E) s e
          (TransportDB.putLastScannedEventBlock event block m).1)
       (TransportDB.getStateRootsByIndexRange s e m)).
Proof.
  split.
  - intros k' entries m' Hput. split; intros Hne; apply values_ext; intros z.
    + by apply (putEntries_family_kept Transaction k' entries).
    + by apply (putEntries_family_kept StateRoot k' entries).
  - intros event block.
    cbn [TransportDB.putLastScannedEventBlock put MemDown fst].
    split; apply values_ext; intros z; by rewrite lookup_insert_ne.
Qed.

(** X9. A range query whose end bound is not above its start bound returns
    the empty sequence, whatever the store holds (bounds that are
    non-negative numbers the key encoding accepts). *)
Theorem empty_interval (s e : Z) m :
  safe s -> safe e -> 0 <= e <= s ->
  TransportDB.getTransactionsByIndexRange (E:=E) s e m = (m, Ok []) /\
  TransportDB.getStateRootsByIndexRange (E:=E) s e m = (m, Ok []).
Proof.
  intros Hs He Hes.
  assert (forall key, TransportDB._values (E:=E) key s e m = (m, Ok [])) as Hvalues.
  { intros key. unfold TransportDB._values, bind, lift.
    rewrite !makeKey_VNum by done. cbn [createValueStream MemDown].
    replace (scan (stored_key key s) (stored_key key e) m) with
      ([] : list (string * value)); [done|].
    symmetry. apply elem_of_nil_inv. intros kv [_ [Hge Hlt]]%elem_of_scan.
    apply (key_lt_irrefl kv.1). eapply key_lt_le_trans; [exact Hlt|].
    eapply key_le_trans; [|exact Hge].
    apply stored_key_ge; [done..|lia|lia]. }
  split; apply Hvalues.
Qed.

Lemma index_sorted_NoDup (l : list E) : Sorted index_lt l -> NoDup l.
Proof.
  intros Hl. apply Sorted_StronglySorted in Hl; [|apply index_lt_trans].
  induction Hl as [|x l Hl IH Hx]; constructor; [|done].
  intros Hin. eapply Forall_forall in Hx; [|done]. unfold index_lt in Hx. lia.
Qed.

(** Two index-ascending sequences with the same members are the same. *)
Lemma index_sorted_unique (l1 l2 : list E) :
  Sorted index_lt l1 -> Sorted index_lt l2 -> (forall r, r ∈ l1 <-> r ∈ l2) -> l1 = l2.
Proof.
  intros H1 H2 Hmem. pose proof index_lt_trans as Htrans.
  apply (Sorted_unique_strong index_lt); [|done..|].
  - unfold index_lt. intros; lia.
  - by apply NoDup_Permutation; [apply index_sorted_NoDup..|].
Qed.

Lemma index_sorted_filter (P : E -> Prop) `{forall r, Decision (P r)} (l : list E) :
  Sorted index_lt l -> Sorted index_lt (filter P l).
Proof.
  intros Hl. apply Sorted_StronglySorted in Hl; [|apply index_lt_trans].
  apply StronglySorted_Sorted.
  induction Hl as [|x l Hl IH Hx]; [constructor|].
  rewrite filter_cons. destruct (decide (P x)); [|done].
  constructor; [done|].
  apply Forall_forall. intros y [_ Hy]%list_elem_of_filter.
  by eapply Forall_forall in Hx.
Qed.

(** X10. Adjacent range queries compose: for bounds [s <= e <= f], the
    query over [s, f) returns the answer over [s, e) followed by the answer
    over [e, f). *)
Theorem ranges_compose (key : string) (s e f : Z) m :
  safe s -> safe e -> safe f -> s <= e <= f -> family_wf (E:=E) key m ->
  exists low high,
    TransportDB._values key s e m = (m, Ok low) /\
    TransportDB._values key e f m = (m, Ok high) /\
    TransportDB._values key s f m = (m, Ok (low ++ high)).
Proof.
  intros Hs He Hf Hsef Hwf.
  destruct (values_range key s e m Hs He Hwf) as (low & Hlow & Hl1 & Hl2 & _).
  destruct (values_range key e f m He Hf Hwf) as (high & Hhigh & Hh1 & Hh2 & _).
  destruct (values_range key s f m Hs Hf Hwf) as (all & Hall & Ha1 & Ha2 & _).
  exists low, high. split; [done|]. split; [done|].
  rewrite Hall. do 2 f_equal. apply index_sorted_unique; [done| |].
  - apply StronglySorted_Sorted, StronglySorted_app.
    split; [|split; apply Sorted_StronglySorted; (done || apply index_lt_trans)].
    intros x1 x2 [_ Hx1]%Hl2 [_ Hx2]%Hh2. unfold index_lt. lia.
  - intros r. rewrite elem_of_app, Ha2, Hl2, Hh2.
    split; [intros [Hget Hr]|intros [[Hget Hr]|[Hget Hr]]].
    + destruct (Z_lt_le_dec (index r) e); [left|right]; (split; [done|lia]).
    + split; [done|lia].
    + split; [done|lia].
Qed.

(** X11. Round trip of a batch through the range query: after writing an
    index-ascending sequence of storable records of a kind into a store that
    held nothing of that kind, the range query over [s, e) returns exactly
    the records of the sequence whose index lies in [s, e), in the order of
    the sequence. *)
Theorem put_then_range (k : kind) (entries : list E) (s e : Z) m m' :
  Sorted index_lt entries -> Forall storable entries ->
  (forall z, m !! (index_key k +:+ ":" +:+ z) = None) ->
  putEntries k entries m = (m', Ok tt) ->
  safe s -> safe e ->
  TransportDB._values (index_key k) s e m' =
    (m', Ok (filter (fun r => s <= index r < e) entries)).
Proof.
  intros Hsorted Hst Hempty Hput Hs He.
  assert (family_wf (E:=E) (index_key k) m) as Hwf0.
  { intros key v Hkey [z ->]. by rewrite Hempty in Hkey. }
  pose proof (family_wf_putEntries k k entries m m' (fun _ => Hst) Hwf0 Hput) as Hwf.
  destruct (values_range (index_key k) s e m' Hs He Hwf) as (rs & Hrs & Hr1 & Hr2 & _).
  rewrite Hrs. do 2 f_equal.
  apply index_sorted_unique; [done|by apply index_sorted_filter|].
  intros r. rewrite Hr2, list_elem_of_filter.
  rewrite putEntries_family in Hput.
  apply put_family_inv in Hput as (top & _ & Hsafe & ->).
  pose proof (increasing_keys_NoDup (index_key k) entries Hsafe Hsorted) as Hnd.
  split; [intros [H1 Hrange]; split; [done|] | intros [Hrange H2]; split; [|done]].
  - apply get_inv in H1 as (Hsr & v & Hm & Hv).
    rewrite lookup_insert_ne in Hm by apply not_eq_sym, latest_key_not_indexed.
    destruct (decide (stored_key (index_key k) (index r)
                        ∈ op_key <$> (entry_op (index_key k) <$> entries)))
      as [Hin|Hout].
    + rewrite <- list_fmap_compose in Hin.
      apply list_elem_of_fmap in Hin as (e0 & Hkey & He0). cbn in Hkey.
      assert (roundtrips e0) as Hrt.
      { eapply Forall_forall in Hst; [|exact He0]. by destruct Hst as (_ & _ & Hrt). }
      rewrite Hkey in Hm.
      rewrite (foldl_apply_op_lookup m _ _ (VStr (JSON_stringify e0))) in Hm;
        [|done|by apply list_elem_of_fmap; exists e0].
      injection Hm as <-. cbn in Hv. unfold roundtrips in Hrt. congruence.
    + rewrite foldl_apply_op_other in Hm by done.
      unfold stored_key in Hm. by rewrite Hempty in Hm.
  - apply get_stored.
    + by eapply Forall_forall in Hsafe.
    + eapply Forall_forall in Hst; [|exact H2]. by destruct Hst as (_ & _ & Hrt).
    + apply written_entry_lookup; [apply latest_key_not_indexed|done..].
Qed.

End RangeExtras.

(** ** Instances of the further store properties on sample data *)

Section StoreExtrasWitnesses.
Import StateRootJson.

Lemma sample_store_written :
  putEntries StateRoot sample_roots ∅ = (sample_store, Ok tt).
Proof. vm_compute. reflexivity. Qed.

Lemma scan_cursor_isolated_witness :
  same_answer
    (TransportDB.getLastScannedEventBlock "scc"
       (TransportDB.putLastScannedEventBlock "ctc" 7 sample_store).1)
    (TransportDB.getLastScannedEventBlock "scc" sample_store).
Proof.
  apply (proj1 (scan_cursor_isolated (E:=StateRootEntry) "ctc" 7 sample_store) "scc").
  discriminate.
Defined.

Lemma missing_reads_witness :
  getByIndex (E:=StateRootEntry) StateRoot (VNum 3) sample_store =
    (sample_store,
     Throw (NotFoundError (stored_key (index_key StateRoot) 3))) /\
  getLatest (E:=StateRootEntry) Transaction sample_store =
    (sample_store, Throw (NotFoundError (latest_key Transaction))).
Proof.
  split.
  - apply (proj1 (missing_reads (E:=StateRootEntry) StateRoot sample_store)
             (VNum 3) 3); vm_compute; reflexivity.
  - apply (proj2 (missing_reads (E:=StateRootEntry) Transaction sample_store)).
    vm_compute. reflexivity.
Defined.

Lemma put_all_or_nothing_witness :
  exists err, putEntries StateRoot overflowing_roots sample_store =
                (sample_store, Throw err).
Proof.
  apply (put_all_or_nothing StateRoot overflowing_roots sample_store).
  apply Exists_cons_tl, Exists_cons_hd. vm_compute. intros [_ Hlt]. discriminate Hlt.
Defined.

Lemma put_idempotent_witness :
  putEntries StateRoot sample_roots sample_store = (sample_store, Ok tt).
Proof.
  apply (put_idempotent StateRoot sample_roots ∅ sample_store).
  apply sample_store_written.
Defined.

Lemma kinds_isolated_witness :
  (forall i, same_answer (getByIndex (E:=StateRootEntry) Transaction i sample_store)
               (getByIndex Transaction i ∅)) /\
  same_answer (getLatest (E:=StateRootEntry) Transaction sample_store)
    (getLatest Transaction ∅).
Proof.
  apply (kinds_isolated Transaction StateRoot sample_roots ∅ sample_store).
  - apply sample_store_written.
  - discriminate.
Defined.

Lemma other_indices_kept_witness :
  same_answer (getByIndex (E:=StateRootEntry) StateRoot (VNum 5) sample_store)
    (getByIndex StateRoot (VNum 5) ∅).
Proof.
  apply (other_indices_kept StateRoot sample_roots ∅ sample_store 5).
  - apply sample_store_written.
  - vm_compute. intros Hin.
    repeat (apply elem_of_cons in Hin as [Hin|Hin]; [discriminate Hin|]).
    by apply elem_of_nil in Hin.
Defined.

Lemma range_isolated_witness :
  same_answer (TransportDB.getTransactionsByIndexRange (E:=StateRootEntry) 0 20 sample_store)
    (TransportDB.getTransactionsByIndexRange 0 20 ∅).
Proof.
  apply (proj1 (proj1 (range_isolated (E:=StateRootEntry) 0 20 ∅)
                  StateRoot sample_roots sample_store sample_store_written)).
  discriminate.
Defined.

Lemma empty_interval_witness :
  TransportDB.getTransactionsByIndexRange (E:=StateRootEntry) 5 2 sample_store =
    (sample_store, Ok []) /\
  TransportDB.getStateRootsByIndexRange (E:=StateRootEntry) 5 2 sample_store =
    (sample_store, Ok []).
Proof.
  apply (empty_interval (E:=StateRootEntry) 5 2 sample_store);
    vm_compute; split; congruence.
Defined.

Lemma ranges_compose_witness :
  exists low high,
    TransportDB._values "stateroot:index" 0 2 sample_store = (sample_store, Ok low) /\
    TransportDB._values "stateroot:index" 2 11 sample_store = (sample_store, Ok high) /\
    TransportDB._values (E:=StateRootEntry) "stateroot:index" 0 11 sample_store =
      (sample_store, Ok (low ++ high)).
Proof.
  apply (ranges_compose (E:=StateRootEntry) "stateroot:index" 0 2 11 sample_store);
    [vm_compute; split; reflexivity..| lia | apply sample_store_wf].
Defined.

Lemma put_then_range_witness :
  TransportDB._values (index_key StateRoot) 2 11 sample_store =
    (sample_store, Ok (filter (fun r => 2 <= index r < 11) sample_roots)).
Proof.
  apply (put_then_range StateRoot sample_roots 2 11 ∅ sample_store).
  - apply sample_roots_increasing.
  - apply sample_roots_storable.
  - intros z. apply lookup_empty.
  - apply sample_store_written.
  - vm_compute. split; reflexivity.
  - vm_compute. split; reflexivity.
Defined.

End StoreExtrasWitnesses.

(** * Further properties of the ingestion loop *)

Section PassOutcomes.
Context {Entry : Type} (options : L2IngestionServiceOptions).
Implicit Types (env : Env Entry) (w : World Entry).

Lemma iteration_idle env w (h : Z) :
  getHighest_fault env = None -> getBlockNumber env = Ok h ->
  highestSyncedL2BlockNumber (highestSynced w) =
    targetL2Block options (highestSyncedL2BlockNumber (highestSynced w))
      (currentL2Block h) ->
  iteration options env w =
    (add_events w [EGetHighestSynced; EGetBlockNumber;
                   ESleep (pollingInterval options)], Ok tt).
Proof.
  intros Hfault Hheight Hidle. unfold iteration, try_catch.
  rewrite (loop_body_window options env w h) by done.
  unfold sync_window. rewrite <- Hidle, Z.eqb_refl.
  unfold sleep. by rewrite emit_run, add_events_app.
Qed.

Lemma iteration_completed env w w2 (h : Z) :
  getHighest_fault env = None -> getBlockNumber env = Ok h ->
  setHighest_fault env = None ->
  let hs := highestSyncedL2BlockNumber (highestSynced w) in
  let head := currentL2Block h in
  let target := targetL2Block options hs head in
  hs < target ->
  _syncSequencerBlocks options env hs target
    (add_events w [EGetHighestSynced; EGetBlockNumber;
                   ELogInfo (Synchronizing hs target)]) = (w2, Ok tt) ->
  iteration options env w =
    ({| highestSynced := Some target;
        trace := trace w2 ++
                 ESetHighestSynced target ::
                 (if head - hs <? transactionsPerPollingInterval options
                  then [ESleep (pollingInterval options)] else []) |},
     Ok tt).
Proof.
  intros Hfault Hheight Hset hs head target Hlt Hsync.
  rewrite (iteration_written options env w w2 h Hfault Hheight Hset);
    fold hs head target; [|lia|done].
  rewrite pointer_update_forward; [done|].
  pose proof (stored_le_highestSynced (highestSynced w)) as Hle. fold hs in Hle.
  destruct (highestSynced w); cbn in *; [lia|done].
Qed.

(** X12. Idle pass: when the cursor already equals the target computed from
    the head and the batch size, the pass sends no request, decodes and
    stores nothing, leaves the cursor as it is, sleeps exactly one polling
    interval and returns. *)
Theorem idle_pass env w (h : Z) :
  getHighest_fault env = None -> getBlockNumber env = Ok h ->
  highestSyncedL2BlockNumber (highestSynced w) =
    targetL2Block options (highestSyncedL2BlockNumber (highestSynced w))
      (currentL2Block h) ->
  iteration options env w =
    (add_events w [EGetHighestSynced; EGetBlockNumber;
                   ESleep (pollingInterval options)], Ok tt).
Proof. apply iteration_idle. Qed.

(** X13. Completed pass and pacing: when the target lies ahead of the
    cursor and the synchronization of the range returns, the pass then
    writes [target] to the cursor, under either setter, and sleeps one
    polling interval exactly when
    [head - highestSynced < batchSize]; with a backlog of a full batch or
    more it returns at once, so that the next pass starts without delay. *)
Theorem completed_pass env w w2 (h : Z) :
  getHighest_fault env = None -> getBlockNumber env = Ok h ->
  setHighest_fault env = None ->
  let hs := highestSyncedL2BlockNumber (highestSynced w) in
  let head := currentL2Block h in
  let target := targetL2Block options hs head in
  hs < target ->
  _syncSequencerBlocks options env hs target
    (add_events w [EGetHighestSynced; EGetBlockNumber;
                   ELogInfo (Synchronizing hs target)]) = (w2, Ok tt) ->
  iteration options env w =
    ({| highestSynced := Some target;
        trace := trace w2 ++
                 ESetHighestSynced target ::
                 (if head - hs <? transactionsPerPollingInterval options
                  then [ESleep (pollingInterval options)] else []) |},
     Ok tt).
Proof. apply iteration_completed. Qed.

Lemma sync_window_throw env (hs current target : Z) w w' (err : error) :
  sync_window options env hs current target w = (w', Throw err) ->
  highestSynced w' = highestSynced w.
Proof.
  unfold sync_window. destruct (hs =? target); [by unfold sleep; rewrite emit_run|].
  unfold bind at 1. rewrite emit_run. unfold bind at 1.
  pose proof (sync_keeps_cursor options env hs target
                (add_events w [ELogInfo (Synchronizing hs target)])) as Hsync.
  destruct (_syncSequencerBlocks options env hs target _) as [w1 [[]|e1]];
    cbn in Hsync; [|by intros [= <- <-]].
  unfold bind at 1, setHighestSyncedUnconfirmedBlock, bind at 1. rewrite emit_run.
  destruct (setHighest_fault env) as [e2|]; [by intros [= <- <-]|].
  destruct (_ <? _); [by unfold sleep; rewrite emit_run|done].
Qed.

Lemma loop_body_throw_keeps env w w' (err : error) :
  loop_body options env w = (w', Throw err) -> highestSynced w' = highestSynced w.
Proof.
  intros Hbody.
  destruct (getHighest_fault env) as [e0|] eqn:Hfault.
  { revert Hbody. unfold loop_body, getHighestSyncedUnconfirmedBlock, bind.
    rewrite emit_run, Hfault. by intros [= <- <-]. }
  destruct (getBlockNumber env) as [h|e0] eqn:Hheight.
  - rewrite (loop_body_window options env w h) in Hbody by done.
    by apply sync_window_throw in Hbody.
  - revert Hbody. unfold loop_body, getHighestSyncedUnconfirmedBlock, bind, lift.
    rewrite emit_run, Hfault, emit_run, Hheight. by intros [= <- <-].
Qed.

(** X14. A pass that ends in an error has not moved the cursor: whatever
    call raised the error, and whether the error is then absorbed or
    re-raised, the stored cursor after the pass is the one before it, so that
    the next pass or the next start fetches the same range again. *)
Theorem failed_pass_keeps_cursor env w w' (err : error) :
  loop_body options env w = (w', Throw err) ->
  highestSynced w' = highestSynced w /\
  highestSynced (iteration options env w).1 = highestSynced w.
Proof.
  intros Hbody. pose proof (loop_body_throw_keeps env w w' err Hbody) as Hkept.
  split; [done|]. unfold iteration.
  rewrite (try_catch_keeps highestSynced) by apply loop_catch_keeps_cursor.
  by rewrite Hbody.
Qed.

(** X15. A pass never marks as synced a block beyond the head it read, nor
    more than one batch beyond the cursor it started from: either the stored
    cursor is unchanged, or it is a value [t] with [t <= max(height - 1, 0)]
    and [t <= highestSynced + batchSize]. *)
Theorem pass_bounds env w :
  highestSynced (iteration options env w).1 = highestSynced w \/
  exists h t,
    getBlockNumber env = Ok h /\
    highestSynced (iteration options env w).1 = Some t /\
    t <= Z.max (h - 1) 0 /\
    t <= highestSyncedL2BlockNumber (highestSynced w) +
         transactionsPerPollingInterval options.
Proof.
  destruct (iteration_cursor options env w) as [Hsame|(h & Hheight & Hset)];
    [by left|].
  right. eexists h, _. split; [done|]. split; [exact Hset|].
  unfold targetL2Block, currentL2Block. lia.
Qed.

Lemma iteration_catch_all env w :
  dangerouslyCatchAllErrors options = true ->
  exists w', iteration options env w = (w', Ok tt).
Proof.
  intros Hall. unfold iteration, try_catch.
  destruct (loop_body options env w) as [w1 [[]|err]]; [by eexists|].
  unfold loop_catch. rewrite Hall, orb_true_r.
  unfold bind, sleep. rewrite !emit_run. by eexists.
Qed.

(** X16. With the catch-all option enabled no error ever leaves the loop:
    whatever the endpoint, the store and the handler do, a run never ends by
    raising; it ends only when [running] is found false. *)
Theorem catch_all_never_raises (script : list (Env Entry)) w (err : error) :
  dangerouslyCatchAllErrors options = true ->
  (_start options script w).2 <> Raised err.
Proof.
  intros Hall. revert w. induction script as [|env script IH]; intros w;
    cbn [_start]; [done|].
  destruct (running env); [|done].
  destruct (iteration_catch_all env w Hall) as [w' ->]. apply IH.
Qed.

End PassOutcomes.

(** ** The decoding loop *)

Section Decoding.
Context {Entry : Type} (options : L2IngestionServiceOptions).
Implicit Types (env : Env Entry) (w : World Entry).

Lemma sync_decode env (s e : Z) w :
  s <= e ->
  _syncSequencerBlocks options env s e w =
    bind (fetchBlocks options env s e) (decode options env) w.
Proof.
  intros Hse. unfold _syncSequencerBlocks. by destruct (Z.ltb_spec e s); [lia|].
Qed.

Lemma parsed_app (a b : list (event Entry)) : parsed (a ++ b) = parsed a ++ parsed b.
Proof. apply omap_app. Qed.

Lemma stored_app (a b : list (event Entry)) : stored (a ++ b) = stored a ++ stored b.
Proof. apply omap_app. Qed.

Lemma decode_cons env (b : RawBlock) (blocks : list RawBlock) w :
  decode options env (b :: blocks) w =
    match parseBlock env b (l2ChainId options) with
    | Ok entry =>
        match storeBlock env entry with
        | Ok _ =>
            decode options env blocks
              (add_events w [EParseBlock b (l2ChainId options); EStoreBlock entry])
        | Throw err =>
            (add_events w [EParseBlock b (l2ChainId options); EStoreBlock entry],
             Throw err)
        end
    | Throw err => (add_events w [EParseBlock b (l2ChainId options)], Throw err)
    end.
Proof.
  unfold decode. cbn [for_of]. unfold bind at 1. unfold bind at 1.
  rewrite emit_run. unfold bind at 1, lift at 1.
  destruct (parseBlock env b (l2ChainId options)) as [entry|err]; [|done].
  unfold bind at 1. rewrite emit_run, add_events_app. unfold lift at 1.
  by destruct (storeBlock env entry) as [[]|err].
Qed.

(** When the loop returns, every block went through the handler. *)
Lemma decode_returns env (blocks : list RawBlock) w w' :
  decode options env blocks w = (w', Ok tt) ->
  exists entries,
    Forall2 (handled options env) blocks entries /\
    parsed (trace w') = parsed (trace w) ++ blocks /\
    stored (trace w') = stored (trace w) ++ entries /\
    highestSynced w' = highestSynced w.
Proof.
  revert w. induction blocks as [|b blocks IH]; intros w.
  - intros [= <-]. exists []. by rewrite !app_nil_r.
  - rewrite decode_cons.
    destruct (parseBlock env b (l2ChainId options)) as [entry|err] eqn:Hparse; [|done].
    destruct (storeBlock env entry) as [[]|err] eqn:Hstore; [|done].
    intros (entries & Hall & Hp & Hs & Hc)%IH.
    exists (entry :: entries). split; [by constructor|].
    rewrite Hp, Hs, Hc. cbn [add_events trace highestSynced].
    rewrite parsed_app, stored_app. cbn. by rewrite <- !app_assoc.
Qed.

(** The loop stops at the first block the handler throws on. *)
Lemma decode_stops env (pre post : list RawBlock) (b : RawBlock)
    (entries : list Entry) (err : error) w :
  Forall2 (handled options env) pre entries ->
  handling_fails options env b err ->
  exists w',
    decode options env (pre ++ b :: post) w = (w', Throw err) /\
    parsed (trace w') = parsed (trace w) ++ pre ++ [b] /\
    stored (trace w') = stored (trace w) ++ entries ++ attempted options env b /\
    highestSynced w' = highestSynced w.
Proof.
  intros Hpre Hfail. revert w.
  induction Hpre as [|p entry pre entries [Hparse Hstore] _ IH]; intros w.
  - cbn [app]. rewrite decode_cons. unfold attempted.
    destruct Hfail as [Hparse|(entry & Hparse & Hstore)].
    + rewrite Hparse. eexists. split; [done|].
      cbn [add_events trace highestSynced]. rewrite parsed_app, stored_app. cbn.
      by rewrite app_nil_r.
    + rewrite Hparse, Hstore. eexists. split; [done|].
      cbn [add_events trace highestSynced]. by rewrite parsed_app, stored_app.
  - cbn [app]. rewrite decode_cons, Hparse, Hstore.
    destruct (IH (add_events w [EParseBlock p (l2ChainId options); EStoreBlock entry]))
      as (w' & -> & Hp & Hs & Hc).
    exists w'. split; [done|]. rewrite Hp, Hs, Hc.
    cbn [add_events trace highestSynced]. rewrite parsed_app, stored_app. cbn.
    by rewrite <- !app_assoc.
Qed.

Lemma fetchBlocks_parsed env (s e : Z) w :
  parsed (trace (fetchBlocks options env s e w).1) = parsed (trace w) /\
  stored (trace (fetchBlocks options env s e w).1) = stored (trace w).
Proof.
  rewrite fetchBlocks_world. cbn [add_events trace].
  rewrite parsed_app, stored_app.
  assert (forall reqs : list (string * list param),
            parsed (Entry:=Entry) ((fun r => ESend r.1 r.2) <$> reqs) = [] /\
            stored (Entry:=Entry) ((fun r => ESend r.1 r.2) <$> reqs) = []) as Hnone.
  { intros reqs. induction reqs as [|r reqs [IH1 IH2]]; [done|]. by cbn. }
  destruct (Hnone (requests_closed options s e)) as [-> ->].
  by rewrite !app_nil_r.
Qed.

(** X17. The synchronization of a non-empty range returns only after the
    whole batch is committed: when [_syncSequencerBlocks] returns, the fetch
    stage had produced a sequence of blocks, every block of it was parsed,
    in that order, and the entry of every block was stored, in that order;
    the cursor is not touched by it. *)
Theorem sync_returns_after_commit env (s e : Z) w w' :
  s <= e ->
  _syncSequencerBlocks options env s e w = (w', Ok tt) ->
  exists blocks entries,
    (fetchBlocks options env s e w).2 = Ok blocks /\
    Forall2 (handled options env) blocks entries /\
    parsed (trace w') = parsed (trace w) ++ blocks /\
    stored (trace w') = stored (trace w) ++ entries /\
    highestSynced w' = highestSynced w.
Proof.
  intros Hse. rewrite sync_decode by done. unfold bind.
  pose proof (fetchBlocks_parsed env s e w) as [Hp0 Hs0].
  pose proof (fetchBlocks_cursor options env s e w) as Hc0.
  destruct (fetchBlocks options env s e w) as [w1 [blocks|err]]; [|done].
  cbn [fst snd] in *.
  intros (entries & Hall & Hp & Hs & Hc)%decode_returns.
  exists blocks, entries. by rewrite Hp, Hs, Hc, Hp0, Hs0, Hc0.
Qed.

(** X18. The decoding loop stops at the first block the handler throws on:
    the blocks before it have been parsed and stored, the failing block has
    been parsed (and handed to [storeBlock] when it is the store that
    failed), no later block of the batch is parsed or stored, and the error
    leaves [_syncSequencerBlocks] with the cursor untouched. *)
Theorem sync_stops_at_first_failure env (s e : Z) w w1
    (pre post : list RawBlock) (b : RawBlock) (entries : list Entry) (err : error) :
  s <= e ->
  fetchBlocks options env s e w = (w1, Ok (pre ++ b :: post)) ->
  Forall2 (handled options env) pre entries ->
  handling_fails options env b err ->
  exists w',
    _syncSequencerBlocks options env s e w = (w', Throw err) /\
    parsed (trace w') = parsed (trace w) ++ pre ++ [b] /\
    stored (trace w') = stored (trace w) ++ entries ++ attempted options env b /\
    highestSynced w' = highestSynced w.
Proof.
  intros Hse Hfetch Hpre Hfail. rewrite sync_decode by done. unfold bind.
  pose proof (fetchBlocks_parsed env s e w) as [Hp0 Hs0].
  pose proof (fetchBlocks_cursor options env s e w) as Hc0.
  rewrite Hfetch in *. cbn [fst] in *.
  destruct (decode_stops env pre post b entries err w1 Hpre Hfail)
    as (w' & Hrun & Hp & Hs & Hc).
  exists w'. by rewrite Hrun, Hp, Hs, Hc, Hp0, Hs0, Hc0.
Qed.

End Decoding.

(** ** Compatibility mode: what the sort does to good and bad input *)

Section SortExtras.

Lemma sort_blocks_ascending (l : list RawBlock) :
  StronglySorted number_le l -> sort_blocks l = Ok l.
Proof.
  induction 1 as [|x l Hl IH Hx]; [done|].
  cbn [sort_blocks]. rewrite IH. cbn [rbind].
  destruct l as [|y l']; [done|]. cbn [sort_insert].
  apply Forall_cons in Hx as [(a & b & -> & -> & Hab) _]. cbn [rbind].
  by destruct (Z.leb_spec (a - b) 0); [|lia].
Qed.

Lemma sort_insert_inv (x : RawBlock) (l r : list RawBlock) :
  sort_insert x l = Ok r ->
  x :: l ≡ₚ r /\
  (l <> [] -> (exists a, block_number x = Ok a) /\
              exists y l', l = y :: l' /\ exists b, block_number y = Ok b).
Proof.
  revert r. induction l as [|y l IH]; intros r; cbn [sort_insert].
  - intros [= <-]. by split.
  - destruct (block_number x) as [a|] eqn:Hx; [|done].
    destruct (block_number y) as [b|] eqn:Hy; [|done]. cbn [rbind].
    intros Hr. split; [|intros _; split; [by exists a|by exists y, l; split; [|exists b]]].
    destruct (a - b <=? 0); [by injection Hr as <-|].
    destruct (sort_insert x l) as [r'|] eqn:Hins; [|done].
    injection Hr as <-. destruct (IH r' eq_refl) as [Hperm _].
    rewrite <- Hperm. apply Permutation_swap.
Qed.

Lemma sort_blocks_inv (l r : list RawBlock) :
  sort_blocks l = Ok r ->
  l ≡ₚ r /\
  ((2 <= length l)%nat -> Forall (fun b => exists n, block_number b = Ok n) l).
Proof.
  revert r. induction l as [|x l IH]; intros r; cbn [sort_blocks].
  - intros [= <-]. split; [done|]. cbn. lia.
  - destruct (sort_blocks l) as [r'|] eqn:Hsort; [|done]. cbn [rbind].
    destruct (IH r' eq_refl) as [Hperm Hconv].
    intros [Hperm' Hhead]%sort_insert_inv.
    split; [by rewrite <- Hperm', <- Hperm|].
    cbn [length]. intros Hlen.
    destruct Hhead as [Hx (y & l' & -> & Hy)].
    { intros ->. apply Permutation_nil_r in Hperm. subst l. cbn in Hlen. lia. }
    constructor; [done|].
    destruct l as [|z [|z' l'']]; [cbn in Hlen; lia| |apply Hconv; cbn; lia].
    apply Permutation_singleton_l in Hperm. injection Hperm as Hz Hnil.
    subst. by repeat constructor.
Qed.

Lemma sort_blocks_throws (l : list RawBlock) :
  (2 <= length l)%nat ->
  Exists (fun b => exists err, block_number b = Throw err) l ->
  exists err, sort_blocks l = Throw err.
Proof.
  intros Hlen Hbad.
  destruct (sort_blocks l) as [r|err] eqn:Hsort; [|by exists err].
  apply sort_blocks_inv in Hsort as [_ Hconv]. specialize (Hconv Hlen).
  apply Exists_exists in Hbad as (b & Hb & err & Herr).
  eapply Forall_forall in Hconv as [n Hn]; [|exact Hb]. congruence.
Qed.

End SortExtras.

Section LegacyExtras.
Context {Entry : Type} (options : L2IngestionServiceOptions).
Implicit Types (env : Env Entry) (w : World Entry).

Lemma legacy_fetch_run env (s e : Z) w (responses : list RawBlock) :
  legacySequencerCompatibility options = true ->
  Forall2 (fun i r => getBlockByNumber env (toRpcHexString i) = Ok r)
    (seqZ s (e - s + 1)) responses ->
  fetchBlocks options env s e w =
    ((fetchBlocks options env s e w).1, sort_blocks responses).
Proof.
  intros Hlegacy Hresp. unfold fetchBlocks. rewrite Hlegacy.
  unfold bind. rewrite emit_all_run. unfold lift.
  apply map_result_Forall2 in Hresp. rewrite Hresp.
  by destruct (sort_blocks responses).
Qed.

(** X19. In compatibility mode, responses that already come back in
    ascending order of their block numbers are handed to the decoder as
    they are: the sort changes nothing, equal numbers included. *)
Theorem legacy_ascending_unchanged env (s e : Z) w (responses : list RawBlock) :
  legacySequencerCompatibility options = true ->
  Forall2 (fun i r => getBlockByNumber env (toRpcHexString i) = Ok r)
    (seqZ s (e - s + 1)) responses ->
  StronglySorted number_le responses ->
  (fetchBlocks options env s e w).2 = Ok responses.
Proof.
  intros Hlegacy Hresp Hsorted.
  rewrite (legacy_fetch_run env s e w responses) by done.
  by apply sort_blocks_ascending.
Qed.

(** X20. In compatibility mode, when two or more blocks were requested and
    the number field of any response does not convert to a number, the fetch
    stage throws: no block of the batch is parsed or stored and the cursor
    stays where it was.  A single response is never looked at: it is handed
    on whatever its number field holds. *)
Theorem legacy_malformed_number env (s e : Z) w (responses : list RawBlock) :
  legacySequencerCompatibility options = true ->
  Forall2 (fun i r => getBlockByNumber env (toRpcHexString i) = Ok r)
    (seqZ s (e - s + 1)) responses ->
  ((2 <= length responses)%nat ->
   Exists (fun b => exists err, block_number b = Throw err) responses ->
   exists err w',
     fetchBlocks options env s e w = (w', Throw err) /\
     parsed (trace w') = parsed (trace w) /\
     stored (trace w') = stored (trace w) /\
     highestSynced w' = highestSynced w) /\
  (forall b, responses = [b] -> (fetchBlocks options env s e w).2 = Ok [b]).
Proof.
  intros Hlegacy Hresp.
  pose proof (legacy_fetch_run env s e w responses Hlegacy Hresp) as Hrun.
  split.
  - intros Hlen Hbad. destruct (sort_blocks_throws responses Hlen Hbad) as [err Herr].
    exists err, (fetchBlocks options env s e w).1.
    split; [by rewrite Hrun at 1; rewrite Herr|].
    destruct (fetchBlocks_parsed options env s e w) as [Hp Hs].
    split; [done|]. split; [done|]. apply fetchBlocks_cursor.
  - intros b ->. by rewrite Hrun.
Qed.

End LegacyExtras.

(** ** Runs of the loop *)

Section Runs.
Context {Entry : Type} (options : L2IngestionServiceOptions).
Implicit Types (env : Env Entry) (w : World Entry).

Lemma steady_step env (h : Z) w :
  steady options env h ->
  1 <= highestSyncedL2BlockNumber (highestSynced w) <= currentL2Block h ->
  0 <= transactionsPerPollingInterval options ->
  exists w',
    iteration options env w = (w', Ok tt) /\
    highestSyncedL2BlockNumber (highestSynced w') =
      Z.min (highestSyncedL2BlockNumber (highestSynced w) +
             transactionsPerPollingInterval options) (currentL2Block h).
Proof.
  intros (_ & Hget & Hset & Hheight & Hsync) Hhs Hbatch.
  set (hs := highestSyncedL2BlockNumber (highestSynced w)) in *.
  set (target := targetL2Block options hs (currentL2Block h)).
  destruct (Z.eq_dec hs target) as [Heq|Hne].
  - eexists. split; [by apply (iteration_idle options env w h)|].
    cbn [add_events highestSynced]. fold hs. rewrite Heq at 1. done.
  - pose proof (Hsync hs target
                  (add_events w [EGetHighestSynced; EGetBlockNumber;
                                 ELogInfo (Synchronizing hs target)])) as Hok.
    destruct (_syncSequencerBlocks options env hs target _) as [w2 [[]|err]] eqn:Hrun;
      [|done].
    assert (hs < target) as Hlt by (unfold target, targetL2Block in *; lia).
    eexists. split; [by apply (iteration_completed options env w w2 h)|].
    cbn [highestSynced]. fold hs target.
    unfold highestSyncedL2BlockNumber at 1, js_or.
    assert (1 <= target) as Hpos by (unfold target, targetL2Block; lia).
    by destruct (Z.eqb_spec target 0); [lia|].
Qed.

(** X21. Catching up: against an endpoint that stays at one height and with
    no call failing, starting from a cursor that is at least 1 and not beyond
    the head, [n] passes bring the cursor to
    [min(highestSynced + n * batchSize, head)]: the engine advances by one
    full batch per pass until it reaches the head, and stays there. *)
Theorem catches_up env (h : Z) (n : nat) w :
  steady options env h ->
  1 <= highestSyncedL2BlockNumber (highestSynced w) <= currentL2Block h ->
  0 <= transactionsPerPollingInterval options ->
  (_start options (replicate n env) w).2 = Looping /\
  highestSyncedL2BlockNumber
    (highestSynced (_start options (replicate n env) w).1) =
    Z.min (highestSyncedL2BlockNumber (highestSynced w) +
           Z.of_nat n * transactionsPerPollingInterval options)
      (currentL2Block h).
Proof.
  intros Hsteady Hhs Hbatch. revert w Hhs.
  induction n as [|n IH]; intros w Hhs.
  - cbn [replicate _start fst snd]. split; [done|]. lia.
  - cbn [replicate _start].
    destruct Hsteady as (Hrun & Hrest). rewrite Hrun.
    destruct (steady_step env h w (conj Hrun Hrest) Hhs Hbatch) as (w' & -> & Hw').
    destruct (IH w') as [Hloop Hcursor]; [rewrite Hw'; lia|].
    split; [done|]. rewrite Hcursor, Hw'.
    assert (0 <= Z.of_nat n * transactionsPerPollingInterval options)
      by (apply Z.mul_nonneg_nonneg; lia).
    rewrite Nat2Z.inj_succ, Z.mul_succ_l. lia.
Qed.

(** *** What a run appends to the trace *)

Lemma adds_ret {A} (P : event Entry -> Prop) (a : A) : adds P (ret a).
Proof. intros w. exists []. by rewrite app_nil_r. Qed.

Lemma adds_throw {A} (P : event Entry -> Prop) (err : error) : adds P (throw (A:=A) err).
Proof. intros w. exists []. by rewrite app_nil_r. Qed.

Lemma adds_lift {A} (P : event Entry -> Prop) (r : result A) : adds P (lift r).
Proof. intros w. exists []. by rewrite app_nil_r. Qed.

Lemma adds_emit (P : event Entry -> Prop) (e : event Entry) : P e -> adds P (emit e).
Proof. intros He w. exists [e]. split; [done|by constructor]. Qed.

Lemma adds_bind {A B} (P : event Entry -> Prop)
    (m : M (World Entry) A) (k : A -> M (World Entry) B) :
  adds P m -> (forall a, adds P (k a)) -> adds P (bind m k).
Proof.
  intros Hm Hk w. unfold bind. destruct (Hm w) as (es & Hes & HP).
  destruct (m w) as [w1 [a|err]]; cbn [fst] in *; [|by exists es].
  destruct (Hk a w1) as (es' & Hes' & HP').
  exists (es ++ es'). split; [by rewrite Hes', Hes, app_assoc|by apply Forall_app].
Qed.

Lemma adds_try_catch {A} (P : event Entry -> Prop)
    (m : M (World Entry) A) (h : error -> M (World Entry) A) :
  adds P m -> (forall err, adds P (h err)) -> adds P (try_catch m h).
Proof.
  intros Hm Hh w. unfold try_catch. destruct (Hm w) as (es & Hes & HP).
  destruct (m w) as [w1 [a|err]]; cbn [fst] in *; [by exists es|].
  destruct (Hh err w1) as (es' & Hes' & HP').
  exists (es ++ es'). split; [by rewrite Hes', Hes, app_assoc|by apply Forall_app].
Qed.

Lemma adds_for_of {A} (P : event Entry -> Prop) (l : list A)
    (body : A -> M (World Entry) unit) :
  (forall a, adds P (body a)) -> adds P (for_of l body).
Proof.
  intros Hbody. induction l as [|a l IH]; cbn [for_of]; [apply adds_ret|].
  apply adds_bind; [apply Hbody|by intros _].
Qed.

Lemma adds_same_trace {A} (P : event Entry -> Prop) (m : M (World Entry) A) :
  (forall w, trace (m w).1 = trace w) -> adds P m.
Proof. intros Hm w. exists []. by rewrite app_nil_r, Hm. Qed.

Lemma iteration_paced env : adds (paced options) (iteration options env).
Proof.
  assert (forall e : event Entry, (forall ms, e <> ESleep ms) -> paced options e)
    as Hother by (intros e He ms ->; by destruct (He ms)).
  assert (paced options (ESleep (Entry:=Entry) (pollingInterval options))) as Hsleep
    by (by intros ms [= <-]).
  apply adds_try_catch.
  - unfold loop_body.
    apply adds_bind.
    { unfold getHighestSyncedUnconfirmedBlock.
      apply adds_bind; [by apply adds_emit, Hother|]. intros _.
      destruct (getHighest_fault env); [apply adds_throw|by apply adds_same_trace]. }
    intros stored0. apply adds_bind; [by apply adds_emit, Hother|]. intros _.
    apply adds_bind; [apply adds_lift|]. intros blockNumber.
    unfold sync_window. destruct (_ =? _); [by apply adds_emit|].
    apply adds_bind; [by apply adds_emit, Hother|]. intros _.
    apply adds_bind.
    { unfold _syncSequencerBlocks. destruct (_ <? _); [by apply adds_emit, Hother|].
      apply adds_bind.
      - intros w. rewrite fetchBlocks_world. eexists. split; [done|].
        apply Forall_fmap, Forall_forall. intros r _. by apply Hother.
      - intros blocks. apply adds_for_of. intros b.
        apply adds_bind; [by apply adds_emit, Hother|]. intros _.
        apply adds_bind; [apply adds_lift|]. intros entry.
        apply adds_bind; [by apply adds_emit, Hother|]. intros _. apply adds_lift. }
    intros _. apply adds_bind.
    { unfold setHighestSyncedUnconfirmedBlock.
      apply adds_bind; [by apply adds_emit, Hother|]. intros _.
      destruct (setHighest_fault env); [apply adds_throw|by apply adds_same_trace]. }
    intros _. destruct (_ <? _); [by apply adds_emit|apply adds_ret].
  - intros err. unfold loop_catch. destruct (_ || _); [|apply adds_throw].
    apply adds_bind; [by apply adds_emit, Hother|]. intros _. by apply adds_emit.
Qed.

(** X22. The history of a run is append-only and paced by one interval:
    whatever happens during a run, the trace it leaves is the trace it
    started from followed by new events, and every sleep among them lasts
    exactly the configured polling interval, the idle wait and the back-off
    after an error alike. *)
Theorem run_appends_paced (script : list (Env Entry)) w :
  exists es,
    trace (_start options script w).1 = trace w ++ es /\
    forall ms, ESleep ms ∈ es -> ms = pollingInterval options.
Proof.
  assert (exists es, trace (_start options script w).1 = trace w ++ es /\
                     Forall (paced options) es) as (es & Hes & Hpaced).
  { revert w. induction script as [|env script IH]; intros w; cbn [_start].
    { exists []. by rewrite app_nil_r. }
    destruct (running env); [|exists []; by rewrite app_nil_r].
    destruct (iteration_paced env w) as (es & Hes & HP).
    destruct (iteration options env w) as [w1 [[]|err]]; cbn [fst] in *;
      [|by exists es].
    destruct (IH w1) as (es' & Hes' & HP').
    exists (es ++ es'). split; [by rewrite Hes', Hes, app_assoc|by apply Forall_app]. }
  exists es. split; [done|]. intros ms Hin.
  eapply Forall_forall in Hpaced; [|exact Hin]. by apply Hpaced.
Qed.

End Runs.

(** ** Instances of the further loop properties on sample runs *)

Lemma idle_pass_witness :
  iteration (scenario_options false) (scenario_env 11) (world_at 10) =
    (add_events (world_at 10)
       [EGetHighestSynced; EGetBlockNumber;
        ESleep (pollingInterval (scenario_options false))], Ok tt).
Proof.
  apply (idle_pass (scenario_options false) (scenario_env 11) (world_at 10) 11);
    reflexivity.
Defined.

Lemma scan_cursor_roundtrip_witness :
  (exists m',
     TransportDB.putLastScannedEventBlock "ctc" 12 ∅ = (m', Ok tt) /\
     TransportDB.getLastScannedEventBlock "ctc" m' = (m', Ok (Some 12))) /\
  (exists m',
     TransportDB.putLastScannedEventBlock (H:=Utf8Down) "ctc" 9007199254740991 ∅ =
       (m', Ok tt) /\
     TransportDB.getLastScannedEventBlock (H:=Utf8Down) "ctc" m' =
       (m', Ok (Some 9007199254740991))).
Proof.
  split.
  - apply (proj1 (scan_cursor_roundtrip "ctc" 12 ∅)). vm_compute. split; reflexivity.
  - destruct (proj2 (scan_cursor_roundtrip "ctc" 9007199254740991 ∅))
      as (m' & Hput & Hget).
    exists m'. split; [exact Hput|].
    rewrite decide_True in Hget by (vm_compute; discriminate). exact Hget.
Defined.

Lemma completed_pass_witness :
  iteration (scenario_options false) (scenario_env 11) empty_world =
    ({| highestSynced := Some 6;
        trace :=
          trace (_syncSequencerBlocks (scenario_options false) (scenario_env 11) 1 6
                   (add_events empty_world
                      [EGetHighestSynced; EGetBlockNumber;
                       ELogInfo (Synchronizing 1 6)])).1 ++
          [ESetHighestSynced 6] |},
     Ok tt).
Proof.
  apply (completed_pass (scenario_options false) (scenario_env 11) empty_world
           (_syncSequencerBlocks (scenario_options false) (scenario_env 11) 1 6
              (add_events empty_world
                 [EGetHighestSynced; EGetBlockNumber;
                  ELogInfo (Synchronizing 1 6)])).1
           11);
    [reflexivity | reflexivity | reflexivity | reflexivity | vm_compute; reflexivity].
Defined.

Lemma failed_pass_keeps_cursor_witness :
  highestSynced (add_events (world_at 7) [EGetHighestSynced; EGetBlockNumber]) =
    highestSynced (world_at 7) /\
  highestSynced (iteration (scenario_options false) (failing_env true) (world_at 7)).1 =
    highestSynced (world_at 7).
Proof.
  apply (failed_pass_keeps_cursor (scenario_options false) (failing_env true)
           (world_at 7) (add_events (world_at 7) [EGetHighestSynced; EGetBlockNumber])
           (ExternalError "timeout")).
  reflexivity.
Defined.

Lemma catch_all_never_raises_witness :
  (_start catch_all_options [failing_env true; failing_env true] empty_world).2 <>
    Raised (ExternalError "timeout").
Proof.
  apply (catch_all_never_raises catch_all_options
           [failing_env true; failing_env true] empty_world (ExternalError "timeout")).
  reflexivity.
Defined.

Lemma sync_returns_after_commit_witness :
  exists blocks entries,
    (fetchBlocks (scenario_options false) (scenario_env 11) 1 6 empty_world).2 =
      Ok blocks /\
    Forall2 (handled (scenario_options false) (scenario_env 11)) blocks entries /\
    parsed (trace (_syncSequencerBlocks (scenario_options false) (scenario_env 11) 1 6
                     empty_world).1) = parsed (trace empty_world) ++ blocks /\
    stored (trace (_syncSequencerBlocks (scenario_options false) (scenario_env 11) 1 6
                     empty_world).1) = stored (trace empty_world) ++ entries /\
    highestSynced (_syncSequencerBlocks (scenario_options false) (scenario_env 11) 1 6
                     empty_world).1 = highestSynced empty_world.
Proof.
  apply (sync_returns_after_commit (scenario_options false) (scenario_env 11) 1 6
           empty_world).
  - lia.
  - vm_compute. reflexivity.
Defined.

Lemma sync_stops_at_first_failure_witness :
  exists w',
    _syncSequencerBlocks (scenario_options false) rejecting_env 1 6 empty_world =
      (w', Throw (ExternalError "bad signature")) /\
    parsed (trace w') = parsed (trace empty_world) ++ [block 1; block 2] ++ [block 3] /\
    stored (trace w') =
      stored (trace empty_world) ++ [1; 2] ++
      attempted (scenario_options false) rejecting_env (block 3) /\
    highestSynced w' = highestSynced empty_world.
Proof.
  apply (sync_stops_at_first_failure (scenario_options false) rejecting_env 1 6
           empty_world
           (fetchBlocks (scenario_options false) rejecting_env 1 6 empty_world).1
           [block 1; block 2] [block 4; block 5; block 6] (block 3) [1; 2]
           (ExternalError "bad signature")).
  - lia.
  - vm_compute. reflexivity.
  - repeat constructor.
  - left. reflexivity.
Defined.

Lemma legacy_ascending_unchanged_witness :
  (fetchBlocks (scenario_options true) (scenario_env 11) 2 3 empty_world).2 =
    Ok [block 2; block 3].
Proof.
  apply (legacy_ascending_unchanged (scenario_options true) (scenario_env 11) 2 3
           empty_world [block 2; block 3]).
  - reflexivity.
  - repeat constructor.
  - repeat constructor. exists 2, 3. repeat split; [reflexivity..|lia].
Defined.

Lemma legacy_malformed_number_witness :
  exists err w',
    fetchBlocks (scenario_options true) malformed_env 2 3 (world_at 2) =
      (w', Throw err) /\
    parsed (trace w') = parsed (trace (world_at 2)) /\
    stored (trace w') = stored (trace (world_at 2)) /\
    highestSynced w' = highestSynced (world_at 2).
Proof.
  apply (proj1 (legacy_malformed_number (scenario_options true) malformed_env 2 3
                  (world_at 2) [block 2; malformed_block] eq_refl
                  ltac:(repeat constructor))).
  - cbn. lia.
  - apply Exists_cons_tl, Exists_cons_hd. eexists. reflexivity.
Defined.

Lemma quiet_env_steady (h : Z) : steady (scenario_options false) (quiet_env h) h.
Proof.
  repeat split. intros s e w. unfold _syncSequencerBlocks.
  by destruct (e <? s).
Qed.

Lemma catches_up_witness :
  (_start (scenario_options false) (replicate 3 (quiet_env 11)) empty_world).2 =
    Looping /\
  highestSyncedL2BlockNumber
    (highestSynced
       (_start (scenario_options false) (replicate 3 (quiet_env 11)) empty_world).1) =
    Z.min (highestSyncedL2BlockNumber (highestSynced empty_world) +
           Z.of_nat 3 * transactionsPerPollingInterval (scenario_options false))
      (currentL2Block 11).
Proof.
  apply (catches_up (scenario_options false) (quiet_env 11) 11 3 empty_world).
  - apply quiet_env_steady.
  - vm_compute. split; discriminate.
  - vm_compute. discriminate.
Defined.

Example catches_up_cursor :
  highestSynced
    (_start (scenario_options false) (replicate 3 (quiet_env 11)) empty_world).1 =
    Some 10.
Proof. reflexivity. Qed.
